(** * frabit.command_wrappers: line multiplexer, quoting, retry engine,
      signal forwarding

    A shallow embedding of [src/frabit/command_wrappers.py].

    Python values are modelled as the code uses them: a [bytes] object is a
    list of integers in [0, 255], a [str] is a list of Unicode code points,
    a keyword dictionary is a finite map from names to values.  What the
    operating system contributes to one invocation (what the child does
    with its input, the chunks returned by [os.read], the answers of
    [select.select], the exit code) is an explicit argument of the functions
    that consume it.  [subprocess.Popen], [os.read] on a pipe, the closing
    of its read end, [pipe.wait()] and [pipe.send_signal()] are taken to
    return. *)

From Stdlib Require Import ZArith List Bool Lia.
From stdpp Require Import base option list strings gmap.
Import ListNotations.

Local Open Scope Z_scope.

(** * Part I: the embedding *)

(** ** Python [str] and [bytes] *)

Abbreviation text := (list Z).
Abbreviation bytes := (list Z).

Module Py.

Definition NL : Z := 10.          (* '\n' *)
Definition SQUOTE : Z := 39.      (* "'"  *)
Definition BACKSLASH : Z := 92.
Definition SPACE : Z := 32.

(** [c in s] for a one-character [c]. *)
Definition contains (c : Z) (s : text) : bool := existsb (Z.eqb c) s.

Fixpoint starts_with (p s : text) : bool :=
  match p, s with
  | [], _ => true
  | _ :: _, [] => false
  | a :: p', b :: s' => (a =? b) && starts_with p' s'
  end.

(** [s.split(sep)] for a one-character separator: never returns an empty
    list, [''.split(sep) == ['']]. *)
Fixpoint split (sep : Z) (s : text) : list text :=
  match s with
  | [] => [[]]
  | c :: s' =>
      if c =? sep then [] :: split sep s'
      else match split sep s' with
           | [] => [[c]]
           | l :: ls => (c :: l) :: ls
           end
  end.

(** [sep.join(parts)]. *)
Fixpoint join (sep : text) (parts : list text) : text :=
  match parts with
  | [] => []
  | [p] => p
  | p :: ps => p ++ sep ++ join sep ps
  end.

(** [s.replace(old, new)]: every non-overlapping occurrence of [old],
    scanning from the left.  [skip] counts the characters of a matched
    occurrence that are still to be dropped. *)
Fixpoint replace_from (old new : text) (skip : nat) (s : text) : text :=
  match s with
  | [] => []
  | c :: s' =>
      match skip with
      | S k => replace_from old new k s'
      | O =>
          if starts_with old s
          then new ++ replace_from old new (Nat.pred (length old)) s'
          else c :: replace_from old new O s'
      end
  end.

Definition replace (old new s : text) : text :=
  match old with
  | [] => new ++ flat_map (fun c => c :: new) s
  | _ :: _ => replace_from old new O s
  end.

(** [l[-1]] and [l[:-1]] on a list that is known not to be empty. *)
Definition last_item (l : list text) : text := List.last l [].
Definition but_last (l : list text) : list text := List.removelast l.

(** *** [data.decode('utf-8', 'replace')]

    The decoder of the interpreter: a well-formed sequence gives its code
    point; an ill-formed one gives U+FFFD for its longest prefix that could
    still start a well-formed sequence (one byte at least), and decoding
    resumes after that prefix; a sequence cut short by the end of the data
    gives one U+FFFD. *)

Definition REPLACEMENT : Z := 0xFFFD.

Definition is_continuation (b : Z) : bool := (0x80 <=? b) && (b <? 0xC0).

Definition cp2 (b1 b2 : Z) : Z :=
  Z.lor (Z.shiftl (Z.land b1 0x1F) 6) (Z.land b2 0x3F).

Definition cp3 (b1 b2 b3 : Z) : Z :=
  Z.lor (Z.shiftl (Z.land b1 0x0F) 12)
    (Z.lor (Z.shiftl (Z.land b2 0x3F) 6) (Z.land b3 0x3F)).

Definition cp4 (b1 b2 b3 b4 : Z) : Z :=
  Z.lor (Z.shiftl (Z.land b1 0x07) 18)
    (Z.lor (Z.shiftl (Z.land b2 0x3F) 12)
       (Z.lor (Z.shiftl (Z.land b3 0x3F) 6) (Z.land b4 0x3F))).

(** The second byte of a three-byte sequence: E0 needs A0..BF (no overlong
    form), ED needs 80..9F (no surrogate). *)
Definition bad_second3 (b1 b2 : Z) : bool :=
  negb (is_continuation b2)
  || (if b2 <? 0xA0 then b1 =? 0xE0 else b1 =? 0xED).

(** The second byte of a four-byte sequence: F0 needs 90..BF, F4 needs
    80..8F. *)
Definition bad_second4 (b1 b2 : Z) : bool :=
  negb (is_continuation b2)
  || (if b2 <? 0x90 then b1 =? 0xF0 else b1 =? 0xF4).

Fixpoint decode (data : bytes) : text :=
  match data with
  | [] => []
  | b1 :: r1 =>
      if b1 <? 0x80 then b1 :: decode r1
      else if b1 <? 0xC2 then REPLACEMENT :: decode r1
      else if b1 <? 0xE0 then
        match r1 with
        | [] => [REPLACEMENT]
        | b2 :: r2 =>
            if is_continuation b2 then cp2 b1 b2 :: decode r2
            else REPLACEMENT :: decode r1
        end
      else if b1 <? 0xF0 then
        match r1 with
        | [] => [REPLACEMENT]
        | b2 :: r2 =>
            if bad_second3 b1 b2 then REPLACEMENT :: decode r1
            else
              match r2 with
              | [] => [REPLACEMENT]
              | b3 :: r3 =>
                  if is_continuation b3 then cp3 b1 b2 b3 :: decode r3
                  else REPLACEMENT :: decode r2
              end
        end
      else if b1 <? 0xF5 then
        match r1 with
        | [] => [REPLACEMENT]
        | b2 :: r2 =>
            if bad_second4 b1 b2 then REPLACEMENT :: decode r1
            else
              match r2 with
              | [] => [REPLACEMENT]
              | b3 :: r3 =>
                  if negb (is_continuation b3) then REPLACEMENT :: decode r2
                  else
                    match r3 with
                    | [] => [REPLACEMENT]
                    | b4 :: r4 =>
                        if is_continuation b4
                        then cp4 b1 b2 b3 b4 :: decode r4
                        else REPLACEMENT :: decode r3
                    end
              end
        end
      else REPLACEMENT :: decode r1
  end.

End Py.

(** ** StreamLineProcessor *)

(** The read end of a pipe: the chunks that successive [os.read] calls will
    return, in order.  Once they are used up the writer has closed its end
    and every read returns [b''].  A chunk of a real pipe is not empty and
    has at most 4096 bytes. *)
Record File := {
  unread : list bytes;
  closed : bool
}.

Definition os_read (f : File) : bytes * File :=
  match unread f with
  | [] => ([], f)
  | data :: rest => (data, {| unread := rest; closed := closed f |})
  end.

Definition close (f : File) : File :=
  {| unread := unread f; closed := true |}.

Record StreamLineProcessor := {
  _file : File;
  _buf : text
}.

(** [StreamLineProcessor(fobject, handler)].  The handler stays with the
    caller that supplies it: [process] lists what it calls the handler
    with, and [run_handlers] below carries the calls out with the handlers
    that [execute] resolved. *)
Definition new_processor (fobject : File) : StreamLineProcessor :=
  {| _file := fobject; _buf := [] |}.

(** [process()]: the returned flag, the arguments of the calls of
    [self._handler] that this call makes when each of them returns (oldest
    first), and the object afterwards. *)
Definition process (self : StreamLineProcessor)
  : bool * list text * StreamLineProcessor :=
  let '(data, f) := os_read (_file self) in
  match data with
  | [] =>
      (true, [_buf self], {| _file := close f; _buf := _buf self |})
  | _ :: _ =>
      let buf := _buf self ++ Py.decode data in
      if negb (Py.contains Py.NL buf) then
        (false, [], {| _file := f; _buf := buf |})
      else
        let tmp := Py.split Py.NL buf in
        (false, Py.but_last tmp, {| _file := f; _buf := Py.last_item tmp |})
  end.

(** A reader driven on its own: [process] is called until it reports the end
    of the stream, at most [n] times.  The result is [None] when [n] calls
    did not reach it. *)
Fixpoint read_lines (n : nat) (p : StreamLineProcessor)
  : option (list text * StreamLineProcessor) :=
  match n with
  | O => None
  | S n' =>
      let '(eof, calls, p') := process p in
      if eof then Some (calls, p')
      else match read_lines n' p' with
           | Some (more, q) => Some (calls ++ more, q)
           | None => None
           end
  end.

(** The handler calls for a stream that arrives as [chunks]. *)
Definition lines_of_chunks (chunks : list bytes) : option (list text) :=
  fst <$> read_lines (S (length chunks))
            (new_processor {| unread := chunks; closed := false |}).

(** A single read of the whole stream followed by a split on newline. *)
Definition lines_of_whole (stream : bytes) : list text :=
  Py.split Py.NL (Py.decode stream).

(** ** Quoting and composition *)

(** [shell_quote(arg)]: ["'{}'".format(arg.replace("'", "'\\''"))].  The
    replacement text is the four characters quote, backslash, quote,
    quote. *)
Definition shell_quote (arg : text) : text :=
  [Py.SQUOTE]
    ++ Py.replace [Py.SQUOTE]
         [Py.SQUOTE; Py.BACKSLASH; Py.SQUOTE; Py.SQUOTE] arg
    ++ [Py.SQUOTE].

(** [full_command_quote(command, args)]; [args=None] is [None] here. *)
Definition full_command_quote (command : text) (args : option (list text))
  : text :=
  match args with
  | Some (a :: l) =>
      command ++ [Py.SPACE] ++ Py.join [Py.SPACE] (map shell_quote (a :: l))
  | _ => command
  end.

(** *** What a POSIX shell reads

    The reading side is not part of the repository.  It follows the quoting
    rules that the comment in [shell_quote] cites: an unquoted backslash
    preserves the next character (a backslash-newline pair is a line
    continuation), single quotes preserve every character up to the next
    single quote, unquoted blanks separate words.  Everything else that a
    shell would interpret (operators, expansions, double quotes with their
    own escapes, comments, globbing) is outside the fragment and makes the
    reader give up with [None]; so does an unterminated quote. *)
Module Posix.

Inductive mode := Unquoted | Escaped | InSingle.

Definition is_blank (c : Z) : bool := (c =? 32) || (c =? 9).

(** The characters that must be quoted to stand for themselves, and those
    that may have to be, depending on where they occur. *)
Definition is_special (c : Z) : bool :=
  existsb (Z.eqb c)
    [ 10 (* newline *); 34 (* double quote *); 36 (* $ *); 96 (* ` *);
      124 (* | *); 38 (* & *); 59 (* ; *); 60 (* < *); 62 (* > *);
      40 (* ( *); 41 (* ) *); 42 (* * *); 63 (* ? *); 91 (* [ *);
      35 (* # *); 126 (* ~ *); 61 (* = *); 37 (* % *); 123 (* { *);
      125 (* } *); 33 (* ! *); 0 ].

Definition push (c : Z) (cur : option text) : option text :=
  Some (default [] cur ++ [c]).

Definition flush (cur : option text) (done : list text) : list text :=
  match cur with
  | Some w => done ++ [w]
  | None => done
  end.

(** [cur] is the word being assembled ([None] between words: a pair of
    quotes with nothing inside still starts a word), [done] the words
    already delimited. *)
Fixpoint scan (m : mode) (cur : option text) (done : list text) (s : text)
  : option (list text) :=
  match s with
  | [] =>
      match m with
      | Unquoted => Some (flush cur done)
      | Escaped | InSingle => None
      end
  | c :: s' =>
      match m with
      | InSingle =>
          if c =? Py.SQUOTE then scan Unquoted cur done s'
          else scan InSingle (push c cur) done s'
      | Escaped =>
          if c =? Py.NL then scan Unquoted cur done s'
          else scan Unquoted (push c cur) done s'
      | Unquoted =>
          if c =? Py.SQUOTE then
            scan InSingle (Some (default [] cur)) done s'
          else if c =? Py.BACKSLASH then scan Escaped cur done s'
          else if is_blank c then scan Unquoted None (flush cur done) s'
          else if is_special c then None
          else scan Unquoted (push c cur) done s'
      end
  end.

(** The words a shell obtains from a command line. *)
Definition words (line : text) : option (list text) :=
  scan Unquoted None [] line.

End Posix.

Definition quoted_char (c : Z) : text :=
  if c =? Py.SQUOTE
  then [Py.SQUOTE; Py.BACKSLASH; Py.SQUOTE; Py.SQUOTE]
  else [c].

(** ** Values, exceptions and outcomes *)

Inductive Stream := Stdout | Stderr.

Definition stream_eqb (a b : Stream) : bool :=
  match a, b with
  | Stdout, Stdout | Stderr, Stderr => true
  | _, _ => false
  end.

(** How a call of a callable of the caller ends: it returns, it raises an
    exception of its own (none of the classes this module raises), or it
    never returns.  Such a callable is taken to leave the [Command] object
    alone. *)
Inductive CallEnd :=
| Done
| Throws (id : nat)
| Never.

(** The callables the module passes around as line handlers and retry
    handlers. *)
Inductive Handler :=
| list_append (s : Stream)       (* [out.append], [err.append] *)
| logging_handler (level : Z)    (* built by [make_logging_handler] *)
| user_callable (id : nat) (ends : CallEnd).
                                 (* a callable of the caller, and how a
                                    call of it in the role it is given
                                    ends *)

(** The Python values that reach the keyword arguments. *)
Inductive Value :=
| VNone
| VBool (b : bool)
| VInt (n : Z)
| VBytes (b : bytes)
| VTuple (l : list Z)
| VCallable (h : Handler).

(** [if v:] *)
Definition truthy (v : Value) : bool :=
  match v with
  | VNone => false
  | VBool b => b
  | VInt n => negb (n =? 0)
  | VBytes b => negb (Nat.eqb (length b) 0)
  | VTuple l => negb (Nat.eqb (length l) 0)
  | VCallable _ => true
  end.

(** [dict(ret=self.ret, out=self.out, err=self.err)], the single argument of
    the exceptions raised on a failed exit-code check. *)
Record Detail := {
  detail_ret : option Z;
  detail_out : option text;
  detail_err : option text
}.

Inductive Exc :=
| CommandFailedException (args : Detail)
| CommandMaxRetryExceeded (args : Detail)
| TypeError
| ValueError
| OverflowError
| BrokenPipeError
| OSError (errno : Z)
| select_error (errno : Z)
| SystemExit (code : Z)
| OtherException (id : nat).

(** How a call ends.  [Hangs]: it never returns, because the readiness wait
    never does. *)
Inductive Outcome (A : Type) :=
| Returns (a : A)
| Raises (e : Exc)
| Hangs.

Arguments Returns {A} a.
Arguments Raises {A} e.
Arguments Hangs {A}.

Definition after_call (ends : CallEnd) : Outcome unit :=
  match ends with
  | Done => Returns tt
  | Throws id => Raises (OtherException id)
  | Never => Hangs
  end.

(** [x in v], as far as the exit-code check needs it: [x] is [self.ret]. *)
Definition py_in (x : option Z) (v : Value) : Outcome bool :=
  match v with
  | VTuple l =>
      match x with
      | Some n => Returns (existsb (Z.eqb n) l)
      | None => Returns false
      end
  | VBytes b =>
      match x with
      | Some n =>
          if (0 <=? n) && (n <? 256) then Returns (existsb (Z.eqb n) b)
          else Raises ValueError
      | None => Raises TypeError
      end
  | VNone | VBool _ | VInt _ | VCallable _ => Raises TypeError
  end.

(** ** The child process, as the operating system presents it *)

Definition EINTR : Z := 4.

(** One answer of [select.select(processors, [], [])]: the streams that are
    ready, or the error number of a failure. *)
Inductive WaitResult :=
| Ready (streams : list Stream)
| Fails (errno : Z).

(** How a write on the input pipe of the child ends.  [Broken]: the child
    has closed its end, the write fails with EPIPE.  [Blocked]: the pipe is
    full and the child does not read, the write never returns. *)
Inductive PipeWrite :=
| Written
| Broken
| Blocked.

Definition after_write (w : PipeWrite) : Outcome unit :=
  match w with
  | Written => Returns tt
  | Broken => Raises BrokenPipeError
  | Blocked => Hangs
  end.

(** One spawned child: how [pipe.stdin.write(data)] ends when it is given
    bytes, and how the [pipe.stdin.close()] that follows such a write ends
    (it flushes what the write left in the buffer); the successive answers
    of the readiness wait (when they are used up, the wait never returns);
    the chunks each pipe delivers; and the exit code. *)
Record ChildRun := {
  stdin_write : PipeWrite;
  stdin_close : PipeWrite;
  waits : list WaitResult;
  stdout_chunks : list bytes;
  stderr_chunks : list bytes;
  returncode : Z
}.

Inductive CmdLine :=
| ShellString (s : text)
| ArgV (argv : list text).

(** The arguments [_build_pipe] gives to [subprocess.Popen]. *)
Record Popen := {
  popen_cmd : CmdLine;
  popen_shell : bool;
  popen_env : option (list (text * text));
  popen_close_fds : Value
}.

(** ** Command *)

(** The attributes that [__init__] sets once. *)
Record Conf := {
  cmd : text;
  args : list text;
  shell : bool;
  close_fds : Value;
  check : Value;
  allowed_retval : Value;
  retry_times : Z;
  retry_sleep : Z;
  retry_handler : Value;
  env : option (list (text * text));
  out_handler : Value;
  err_handler : Value
}.

(** A [Command] object: its configuration and the attributes that every
    invocation rewrites. *)
Record Command := {
  conf : Conf;
  pipe : option Popen;
  ret : option Z;
  out : option text;
  err : option text
}.

Inductive Event :=
| EvPopen (p : Popen)                   (* [subprocess.Popen(...)] *)
| EvStdinWrite (data : Value)           (* [pipe.stdin.write(stdin)] *)
| EvStdinClose                          (* [pipe.stdin.close()] *)
| EvSelect (waited : list Stream)       (* [select.select(processors, ...)] *)
| EvRead (s : Stream)                   (* [os.read] in [process] *)
| EvLine (s : Stream) (line : text)     (* the handler of that reader *)
| EvWait                                (* [pipe.wait()] *)
| EvRetry (self : Command) (args : list text) (kwargs : gmap string Value)
    (attempt : Z) (exc : Exc)           (* [self.retry_handler(...)] *)
| EvSleep (secs : Z)                    (* [time.sleep(...)] *)
| EvSendSignal (owner : nat) (sig : Z)  (* [self.pipe.send_signal(...)], for
                                           the object [owner] as [self] *)
| EvHandler (id : nat) (sig : Z).       (* a signal handler of the program
                                           is called *)

Definition is_popen (e : Event) : bool :=
  match e with EvPopen _ => true | _ => false end.

Definition is_retry (e : Event) : bool :=
  match e with EvRetry _ _ _ _ _ => true | _ => false end.

Definition is_sleep (e : Event) : bool :=
  match e with EvSleep _ => true | _ => false end.

Definition is_send_signal (e : Event) : bool :=
  match e with EvSendSignal _ _ => true | _ => false end.

(** The lines the handler of the reader of [s] was called with. *)
Fixpoint lines (s : Stream) (tr : list Event) : list text :=
  match tr with
  | [] => []
  | EvLine s' l :: tr' =>
      if stream_eqb s s' then l :: lines s tr' else lines s tr'
  | _ :: tr' => lines s tr'
  end.

(** *** The draining loop *)

(** [processors] is the Python list (the readers are named by their
    stream); the two reader objects are kept beside it, since the list only
    holds references to them. *)
Record Readers := {
  processors : list Stream;
  out_reader : StreamLineProcessor;
  err_reader : StreamLineProcessor;
  trace : list Event
}.

Definition reader (s : Stream) (st : Readers) : StreamLineProcessor :=
  match s with
  | Stdout => out_reader st
  | Stderr => err_reader st
  end.

Definition set_reader (s : Stream) (p : StreamLineProcessor) (st : Readers)
  : Readers :=
  match s with
  | Stdout => {| processors := processors st; out_reader := p;
                 err_reader := err_reader st; trace := trace st |}
  | Stderr => {| processors := processors st; out_reader := out_reader st;
                 err_reader := p; trace := trace st |}
  end.

Definition log (evs : list Event) (st : Readers) : Readers :=
  {| processors := processors st; out_reader := out_reader st;
     err_reader := err_reader st; trace := trace st ++ evs |}.

(** [processors.remove(stream)]: the first occurrence goes.  The stream is
    always present when the loop calls it. *)
Fixpoint list_remove (s : Stream) (l : list Stream) : list Stream :=
  match l with
  | [] => []
  | x :: l' => if stream_eqb s x then l' else x :: list_remove s l'
  end.

Definition remove_processor (s : Stream) (st : Readers) : Readers :=
  {| processors := list_remove s (processors st);
     out_reader := out_reader st; err_reader := err_reader st;
     trace := trace st |}.

(** The body of [for stream in ready:]. *)
Definition process_stream (st : Readers) (s : Stream) : Readers :=
  let '(eof, calls, p) := process (reader s st) in
  let st := log (EvRead s :: map (EvLine s) calls) (set_reader s p st) in
  if eof then remove_processor s st else st.

(** What [select.select] returns for an answer of the system: the waited
    objects that are ready, in the order of the waited list. *)
Definition select (waited answer : list Stream) : list Stream :=
  List.filter (fun s => existsb (stream_eqb s) answer) waited.

(** [pipe_processor_loop(processors)]. *)
Fixpoint pipe_processor_loop (ws : list WaitResult) (st : Readers)
  : Outcome unit * Readers :=
  match processors st with
  | [] => (Returns tt, st)
  | _ :: _ =>
      let st1 := log [EvSelect (processors st)] st in
      match ws with
      | [] => (Hangs, st1)
      | Fails errno :: ws' =>
          if errno =? EINTR then pipe_processor_loop ws' st1
          else (Raises (select_error errno), st1)
      | Ready answer :: ws' =>
          let ready := select (processors st) answer in
          pipe_processor_loop ws' (fold_left process_stream ready st1)
      end
  end.

(** *** One attempt *)

Definition pop (key : string) (dflt : Value) (kwargs : gmap string Value)
  : Value * gmap string Value :=
  (default dflt (kwargs !! key), delete key kwargs).

Definition with_results (self : Command) (pipe' : option Popen)
  (ret' : option Z) (out' err' : option text) : Command :=
  {| conf := conf self; pipe := pipe'; ret := ret'; out := out';
     err := err' |}.

(** [check_return_value(allowed_retval)]. *)
Definition check_return_value (self : Command) (allowed_retval : Value)
  : Outcome unit :=
  match py_in (ret self) allowed_retval with
  | Returns true => Returns tt
  | Returns false =>
      Raises (CommandFailedException
                {| detail_ret := ret self; detail_out := out self;
                   detail_err := err self |})
  | Raises e => Raises e
  | Hangs => Hangs
  end.

(** [_build_pipe(args, close_fds)].  The spawn itself is taken to
    succeed. *)
Definition _build_pipe (self : Command) (args' : list text)
  (close_fds' : Value) : Popen :=
  let args' := args (conf self) ++ args' in
  let cmd' :=
    if shell (conf self)
    then ShellString (full_command_quote (cmd (conf self)) (Some args'))
    else ArgV (cmd (conf self) :: args') in
  {| popen_cmd := cmd'; popen_shell := shell (conf self);
     popen_env := env (conf self); popen_close_fds := close_fds' |}.

Definition start_readers (child : ChildRun) : Readers :=
  {| processors := [Stdout; Stderr];
     out_reader :=
       new_processor {| unread := stdout_chunks child; closed := false |};
     err_reader :=
       new_processor {| unread := stderr_chunks child; closed := false |};
     trace := [] |}.

(** [handler(line)] for the handler of the reader of [s]: how the call
    ends, and the call as an event when one is made.  A value that is not
    callable makes the call expression raise [TypeError]. *)
Definition call_handler (handler : Value) (s : Stream) (line : text)
  : Outcome unit * list Event :=
  match handler with
  | VCallable (user_callable _ ends) => (after_call ends, [EvLine s line])
  | VCallable (list_append _) | VCallable (logging_handler _) =>
      (Returns tt, [EvLine s line])
  | VNone | VBool _ | VInt _ | VBytes _ | VTuple _ => (Raises TypeError, [])
  end.

(** The handler calls of the two readers carried out.
    [pipe_processor_loop] records every call that [process] makes as an
    [EvLine] event; here the handlers that [execute] gave to the readers
    are applied to these calls in order.  A call that does not return ends
    the loop at that point: what the trace lists after it does not
    happen. *)
Fixpoint run_handlers (out_handler' err_handler' : Value) (tr : list Event)
  : Outcome unit * list Event :=
  match tr with
  | [] => (Returns tt, [])
  | EvLine s line :: tr' =>
      let handler :=
        match s with
        | Stdout => out_handler'
        | Stderr => err_handler'
        end in
      let '(r, ev) := call_handler handler s line in
      match r with
      | Returns _ =>
          let '(r', rest) := run_handlers out_handler' err_handler' tr' in
          (r', ev ++ rest)
      | Raises e => (Raises e, ev)
      | Hangs => (Hangs, ev)
      end
  | e :: tr' =>
      let '(r', rest) := run_handlers out_handler' err_handler' tr' in
      (r', e :: rest)
  end.

(** [if stdin: pipe.stdin.write(stdin)] and [pipe.stdin.close()].  The
    input pipe is a binary buffered writer: its [write] refuses anything
    but bytes with [TypeError], and what it does with bytes depends on the
    child; with nothing written, [close] has nothing to flush and
    succeeds. *)
Definition feed (stdin : Value) (child : ChildRun)
  : Outcome unit * list Event :=
  if truthy stdin then
    match stdin with
    | VBytes _ =>
        match stdin_write child with
        | Written =>
            (after_write (stdin_close child),
             [EvStdinWrite stdin; EvStdinClose])
        | Broken => (Raises BrokenPipeError, [EvStdinWrite stdin])
        | Blocked => (Hangs, [EvStdinWrite stdin])
        end
    | VNone | VBool _ | VInt _ | VTuple _ | VCallable _ =>
        (Raises TypeError, [])
    end
  else (Returns tt, [EvStdinClose]).

(** [execute] from [# Reset status] on, with its keyword arguments
    resolved and the child that the spawn starts.  An exception on the way
    leaves the process handle on the object and [ret] unset. *)
Definition execute_body (self : Command) (args' : list text)
  (stdin check' allowed_retval' close_fds' out_handler' err_handler' : Value)
  (child : ChildRun) : Outcome Z * Command * list Event :=
  let self := with_results self (pipe self) None None None in
  let pipe' := _build_pipe self args' close_fds' in
  let self := with_results self (Some pipe') None None None in
  let '(fed, ev) := feed stdin child in
  let ev := [EvPopen pipe'] ++ ev in
  match fed with
  | Returns _ =>
      let '(r, st) :=
        pipe_processor_loop (waits child) (start_readers child) in
      let '(called, io) :=
        run_handlers out_handler' err_handler' (trace st) in
      let ev := ev ++ io in
      match called with
      | Returns _ =>
          match r with
          | Returns _ =>
              let self :=
                with_results self (Some pipe') (Some (returncode child))
                  None None in
              let self := with_results self None (ret self) None None in
              let ev := ev ++ [EvWait] in
              if truthy check' then
                match check_return_value self allowed_retval' with
                | Returns _ => (Returns (returncode child), self, ev)
                | Raises e => (Raises e, self, ev)
                | Hangs => (Hangs, self, ev)
                end
              else (Returns (returncode child), self, ev)
          | Raises e => (Raises e, self, ev)
          | Hangs => (Hangs, self, ev)
          end
      | Raises e => (Raises e, self, ev)
      | Hangs => (Hangs, self, ev)
      end
  | Raises e => (Raises e, self, ev)
  | Hangs => (Hangs, self, ev)
  end.

(** [execute(...)]: the keyword arguments are taken out of the dictionary
    one by one; anything left over is an error, raised before the status is
    reset and before anything is spawned. *)
Definition execute (self : Command) (args' : list text)
  (kwargs : gmap string Value) (child : ChildRun)
  : Outcome Z * Command * list Event :=
  let '(stdin, kwargs) := pop "stdin" VNone kwargs in
  let '(check', kwargs) := pop "check" (check (conf self)) kwargs in
  let '(allowed_retval', kwargs) :=
    pop "allowed_retval" (allowed_retval (conf self)) kwargs in
  let '(close_fds', kwargs) :=
    pop "close_fds" (close_fds (conf self)) kwargs in
  let '(out_handler', kwargs) :=
    pop "out_handler" (out_handler (conf self)) kwargs in
  let '(err_handler', kwargs) :=
    pop "err_handler" (err_handler (conf self)) kwargs in
  if negb (Nat.eqb (size kwargs) 0) then (Raises TypeError, self, [])
  else
    execute_body self args' stdin check' allowed_retval' close_fds'
      out_handler' err_handler' child.

Definition has_key (key : string) (kwargs : gmap string Value) : bool :=
  match kwargs !! key with Some _ => true | None => false end.

(** [_get_output_once(...)].  The call of [execute] names
    [out_handler], [err_handler] and [check] itself, so a dictionary that
    still holds one of them makes the call raise [TypeError] (several values
    for one keyword argument) before [execute] is entered. *)
Definition _get_output_once (self : Command) (args' : list text)
  (kwargs : gmap string Value) (child : ChildRun)
  : Outcome (text * text) * Command * list Event :=
  let '(check', kwargs) := pop "check" (check (conf self)) kwargs in
  let '(allowed_retval', kwargs) :=
    pop "allowed_retval" (allowed_retval (conf self)) kwargs in
  if has_key "out_handler" kwargs || has_key "err_handler" kwargs
     || has_key "check" kwargs
  then (Raises TypeError, self, [])
  else
    let kwargs :=
      <["out_handler" := VCallable (list_append Stdout)]>
        (<["err_handler" := VCallable (list_append Stderr)]>
           (<["check" := VBool false]> kwargs)) in
    let '(r, self, ev) := execute self args' kwargs child in
    match r with
    | Returns _ =>
        let out' := Py.join [Py.NL] (lines Stdout ev) in
        let err' := Py.join [Py.NL] (lines Stderr ev) in
        let self :=
          with_results self (pipe self) (ret self) (Some out') (Some err') in
        if truthy check' then
          match check_return_value self allowed_retval' with
          | Returns _ => (Returns (out', err'), self, ev)
          | Raises e => (Raises e, self, ev)
          | Hangs => (Hangs, self, ev)
          end
        else (Returns (out', err'), self, ev)
    | Raises e => (Raises e, self, ev)
    | Hangs => (Hangs, self, ev)
    end.

(** *** The retry loop *)

(** [self.retry_handler(self, args, kwargs, attempt, exc)].  A handler
    that takes one line refuses the five arguments, and a value that is not
    callable cannot be called: both raise [TypeError]. *)
Definition call_retry_handler (self : Command) (args' : list text)
  (kwargs : gmap string Value) (attempt : Z) (exc : Exc)
  : Outcome unit * list Event :=
  match retry_handler (conf self) with
  | VCallable (user_callable _ ends) =>
      (after_call ends, [EvRetry self args' kwargs attempt exc])
  | VCallable (list_append _) | VCallable (logging_handler _)
  | VNone | VBool _ | VInt _ | VBytes _ | VTuple _ =>
      (Raises TypeError, [])
  end.

(** The largest number of seconds that fits the clock of the interpreter:
    a signed 64-bit count of nanoseconds. *)
Definition SLEEP_MAX : Z := 9223372036.

(** [time.sleep(secs)] for an integer: the conversion to the clock raises
    [OverflowError], a negative length [ValueError]. *)
Definition time_sleep (secs : Z) : Outcome unit * list Event :=
  if (secs <? - SLEEP_MAX) || (SLEEP_MAX <? secs)
  then (Raises OverflowError, [])
  else if secs <? 0 then (Raises ValueError, [])
  else (Returns tt, [EvSleep secs]).

(** What [get_output] does between a failed attempt and the next one: the
    retry handler, when there is one, then the sleep. *)
Definition before_retry (self : Command) (args' : list text)
  (kwargs : gmap string Value) (attempt : Z) (exc : Exc)
  : Outcome unit * list Event :=
  let '(r, called) :=
    if truthy (retry_handler (conf self))
    then call_retry_handler self args' kwargs attempt exc
    else (Returns tt, []) in
  match r with
  | Returns _ =>
      let '(r', slept) := time_sleep (retry_sleep (conf self)) in
      (r', called ++ slept)
  | Raises e => (Raises e, called)
  | Hangs => (Hangs, called)
  end.

(** The body of [while True:] in [get_output], [fuel] iterations at most;
    [children i] is the child that the [i]-th attempt of this call spawns
    (every iteration that loops has spawned one, so [attempt] numbers
    them).  [except CommandFailedException] sees no other exception class
    here: [_get_output_once] raises no [CommandMaxRetryExceeded].  An
    exception raised inside the [except] clause leaves the loop. *)
Fixpoint get_output_from (fuel : nat) (attempt : Z) (self : Command)
  (args' : list text) (kwargs : gmap string Value)
  (children : Z -> ChildRun) (tr : list Event)
  : Outcome (text * text) * Command * list Event :=
  match fuel with
  | O => (Hangs, self, tr)
  | S fuel' =>
      let '(r, self, ev) :=
        _get_output_once self args' kwargs (children attempt) in
      let tr := tr ++ ev in
      match r with
      | Raises (CommandFailedException exc_args) =>
          if attempt <? retry_times (conf self) then
            let '(r', ev') :=
              before_retry self args' kwargs attempt
                (CommandFailedException exc_args) in
            let tr := tr ++ ev' in
            match r' with
            | Returns _ =>
                get_output_from fuel' (attempt + 1) self args' kwargs
                  children tr
            | Raises e => (Raises e, self, tr)
            | Hangs => (Hangs, self, tr)
            end
          else if attempt =? 0 then
            (Raises (CommandFailedException exc_args), self, tr)
          else
            (Raises (CommandMaxRetryExceeded exc_args), self, tr)
      | _ => (r, self, tr)
      end
  end.

(** [get_output(...)]: the loop runs at most
    [retry_times + 1] times. *)
Definition get_output (self : Command) (args' : list text)
  (kwargs : gmap string Value) (children : Z -> ChildRun)
  : Outcome (text * text) * Command * list Event :=
  get_output_from (S (Z.to_nat (retry_times (conf self)))) 0 self args'
    kwargs children [].

(** [__call__(...)]. *)
Definition call (self : Command) (args' : list text)
  (kwargs : gmap string Value) (children : Z -> ChildRun)
  : Outcome (option Z) * Command * list Event :=
  let '(r, self, tr) := get_output self args' kwargs children in
  match r with
  | Returns _ => (Returns (ret self), self, tr)
  | Raises e => (Raises e, self, tr)
  | Hangs => (Hangs, self, tr)
  end.

(** *** Signal forwarding *)

Definition SIGTERM : Z := 15.
Definition SIGKILL : Z := 9.
Definition SIGSTOP : Z := 19.
Definition EINVAL : Z := 22.

(** What the platform fixes about signal numbers: [signal.getsignal] and
    [signal.signal] take the numbers from 1 to [NSIG - 1], and the
    disposition of some of these cannot be changed (SIGKILL and SIGSTOP
    everywhere). *)
Record Platform := {
  NSIG : Z;
  unchangeable : list Z
}.

(** Linux with glibc, which keeps 32 and 33 for itself. *)
Definition linux : Platform :=
  {| NSIG := 65; unchangeable := [SIGKILL; SIGSTOP; 32; 33] |}.

(** What [signal.getsignal] can return.  The closure [_handler] that
    [enable_signal_forwarding] builds refers to the object it was called on:
    the [Command] objects of the program are numbered, [owner] is that
    object. *)
Inductive SigHandler :=
| SIG_DFL
| SIG_IGN
| NoHandler                                 (* [None] *)
| PyCallable (id : nat) (result : Outcome unit)
                                            (* another callable of the
                                               program and how a call of it
                                               ends *)
| Forwarder (owner : nat) (signal_id : Z) (old_handler : SigHandler).
                                            (* the closure [_handler] *)

Definition is_callable (h : SigHandler) : bool :=
  match h with
  | PyCallable _ _ | Forwarder _ _ _ => true
  | SIG_DFL | SIG_IGN | NoHandler => false
  end.

(** A call [h(sig, frame)] of an installed handler; [objs] are the
    [Command] objects of the program as they are at that moment.  For the
    closure built by [enable_signal_forwarding] this is the body of
    [_handler]; what another callable does is its own business, the call is
    recorded.  [send_signal] is taken to return. *)
Fixpoint run_handler (h : SigHandler) (objs : nat -> Command) (sig : Z)
  : Outcome unit * list Event :=
  match h with
  | Forwarder owner signal_id old_handler =>
      let sent :=
        match pipe (objs owner) with
        | Some _ => [EvSendSignal owner signal_id]
        | None => []
        end in
      match old_handler with
      | PyCallable _ _ | Forwarder _ _ _ =>
          let '(r, ev) := run_handler old_handler objs sig in
          (r, sent ++ ev)
      | SIG_DFL =>
          if signal_id =? SIGTERM
          then (Raises (SystemExit (128 + signal_id)), sent)
          else (Returns tt, sent)
      | SIG_IGN | NoHandler => (Returns tt, sent)
      end
  | PyCallable id result => (result, [EvHandler id sig])
  | SIG_DFL | SIG_IGN | NoHandler => (Returns tt, [])
  end.

(** [signal.getsignal(signal_id)] on the table of installed handlers, for a
    number in range; a signal without an entry has the default
    disposition. *)
Definition getsignal (table : gmap Z SigHandler) (signal_id : Z)
  : SigHandler :=
  default SIG_DFL (table !! signal_id).

(** [enable_signal_forwarding(signal_id)] called on the object [owner].
    [signal.getsignal] raises [ValueError] for a number out of range;
    [signal.signal] raises [OSError] for a signal whose disposition cannot
    be changed.  In both cases nothing is installed.  The call is made in
    the main thread. *)
Definition enable_signal_forwarding (os : Platform) (owner : nat)
  (signal_id : Z) (table : gmap Z SigHandler)
  : Outcome unit * gmap Z SigHandler :=
  if (signal_id <? 1) || (NSIG os <=? signal_id)
  then (Raises ValueError, table)
  else
    let old_handler := getsignal table signal_id in
    if existsb (Z.eqb signal_id) (unchangeable os)
    then (Raises (OSError EINVAL), table)
    else
      (Returns tt, <[signal_id := Forwarder owner signal_id old_handler]> table).

(** Delivery of [sig] to the controlling process, as far as the
    interpreter is concerned: the handler installed for it is called; with
    [SIG_DFL], [SIG_IGN] or [None] in place there is none to call. *)
Definition deliver (table : gmap Z SigHandler) (objs : nat -> Command)
  (sig : Z) : Outcome unit * list Event :=
  run_handler (getsignal table sig) objs sig.

(** ** Vocabulary of the statements *)

(** The text a child writes on a stream, as the readers decode it: chunk by
    chunk. *)
Definition decoded (chunks : list bytes) : text :=
  concat (map Py.decode chunks).

Definition stdout_text (child : ChildRun) : text :=
  decoded (stdout_chunks child).

Definition stderr_text (child : ChildRun) : text :=
  decoded (stderr_chunks child).

(** No read of a live pipe returns zero bytes. *)
Definition real_chunks (chunks : list bytes) : Prop :=
  Forall (fun c => c <> []) chunks.

(** *** Invariants of the draining loop *)

(** [s] is still in the list of processors. *)
Definition listed (s : Stream) (st : Readers) : bool :=
  existsb (stream_eqb s) (processors st).

(** What holds of the reader of [s] throughout the loop, [total] being the
    decoded text of its whole stream: its buffer holds no newline; no read
    still to come is empty; its file is closed exactly when it has left the
    list; and the lines delivered so far, followed by the split of what is
    buffered and still to come, are the split of [total]. *)
Definition reader_inv (total : text) (s : Stream) (st : Readers) : Prop :=
  let p := reader s st in
  Py.contains Py.NL (_buf p) = false
  /\ real_chunks (unread (_file p))
  /\ closed (_file p) = negb (listed s st)
  /\ lines s (trace st)
       ++ (if listed s st
           then Py.split Py.NL (_buf p ++ decoded (unread (_file p)))
           else [])
     = Py.split Py.NL total.

(** The events of one pass of the loop body. *)
Definition pass_events (st : Readers) (s : Stream) : list Event :=
  EvRead s :: map (EvLine s) (snd (fst (process (reader s st)))).

(** *** Keyword arguments and attempts *)

(** The keyword arguments that [execute] takes out of its dictionary. *)
Definition execute_keys : list string :=
  ["stdin"; "check"; "allowed_retval"; "close_fds"; "out_handler";
   "err_handler"]%string.

(** Those that a caller of [get_output] or [__call__] can pass on:
    [_get_output_once] supplies the two handlers itself. *)
Definition get_output_keys : list string :=
  ["stdin"; "check"; "allowed_retval"; "close_fds"]%string.

(** The dictionary has no key outside [keys]. *)
Definition only_keys (keys : list string) (kwargs : gmap string Value)
  : Prop :=
  forall k, is_Some (kwargs !! k) -> In k keys.

(** What is left of the dictionary when [execute] tests [len(kwargs)]. *)
Definition leftover (kwargs : gmap string Value) : gmap string Value :=
  delete "err_handler"
    (delete "out_handler"
       (delete "close_fds"
          (delete "allowed_retval" (delete "check" (delete "stdin" kwargs))))).

(** The dictionary that [_get_output_once] hands to [execute]. *)
Definition forwarded (kwargs : gmap string Value) : gmap string Value :=
  <["out_handler" := VCallable (list_append Stdout)]>
    (<["err_handler" := VCallable (list_append Stderr)]>
       (<["check" := VBool false]>
          (delete "allowed_retval" (delete "check" kwargs)))).

(** The child takes the input of the call: there is none, or it is bytes
    and both the write and the close that flushes it succeed. *)
Definition takes_input (stdin : Value) (child : ChildRun) : bool :=
  negb (truthy stdin)
  || match stdin, stdin_write child, stdin_close child with
     | VBytes _, Written, Written => true
     | _, _, _ => false
     end.

(** A line handler whose calls return. *)
Definition returns_normally (handler : Value) : bool :=
  match handler with
  | VCallable (user_callable _ Done) => true
  | VCallable (list_append _) | VCallable (logging_handler _) => true
  | _ => false
  end.

(** A retry handler whose calls return. *)
Definition retry_returns (handler : Value) : bool :=
  match handler with
  | VCallable (user_callable _ Done) => true
  | _ => false
  end.

(** What one attempt does before it starts to drain the pipes, when the
    child takes the input. *)
Definition spawn_events (self : Command) (args' : list text)
  (kwargs : gmap string Value) : list Event :=
  let stdin := default VNone (kwargs !! "stdin") in
  [EvPopen (_build_pipe self args'
              (default (close_fds (conf self)) (kwargs !! "close_fds")))]
    ++ (if truthy stdin then [EvStdinWrite stdin] else [])
    ++ [EvStdinClose].

(** The draining of the two pipes of a child runs to the end. *)
Definition drains (child : ChildRun) : Prop :=
  fst (pipe_processor_loop (waits child) (start_readers child)) = Returns tt.

(** The values that one call works with. *)
Definition effective_check (self : Command) (kwargs : gmap string Value)
  : Value :=
  default (check (conf self)) (kwargs !! "check").

Definition effective_allowed_retval (self : Command)
  (kwargs : gmap string Value) : Value :=
  default (allowed_retval (conf self)) (kwargs !! "allowed_retval").

(** The line handlers that [execute] gives to the two readers. *)
Definition effective_out_handler (self : Command)
  (kwargs : gmap string Value) : Value :=
  default (out_handler (conf self)) (kwargs !! "out_handler").

Definition effective_err_handler (self : Command)
  (kwargs : gmap string Value) : Value :=
  default (err_handler (conf self)) (kwargs !! "err_handler").

(** The object while an attempt is under way, and after one that an
    exception cut short: the process handle is in place, the results are
    reset. *)
Definition during_attempt (self : Command) (args' : list text)
  (kwargs : gmap string Value) : Command :=
  {| conf := conf self;
     pipe := Some (_build_pipe self args'
                     (default (close_fds (conf self))
                        (kwargs !! "close_fds")));
     ret := None; out := None; err := None |}.

(** The object after an attempt that drained its child and reaped it. *)
Definition after_attempt (self : Command) (child : ChildRun)
  (out' err' : option text) : Command :=
  {| conf := conf self; pipe := None; ret := Some (returncode child);
     out := out'; err := err' |}.

(** The call gets as far as the spawn: it names neither handler, and
    [execute] finds nothing left over. *)
Definition spawns (kwargs : gmap string Value) : bool :=
  negb (has_key "out_handler" kwargs || has_key "err_handler" kwargs)
  && Nat.eqb (size (leftover (forwarded kwargs))) 0.

(** What [get_output] does between a failed attempt and the next one when
    nothing fails there: the retry handler, when there is one, then the
    sleep. *)
Definition retry_events (s : Command) (args' : list text)
  (kwargs : gmap string Value) (attempt : Z) (exc : Exc) : list Event :=
  (if truthy (retry_handler (conf s))
   then [EvRetry s args' kwargs attempt exc]
   else [])
    ++ [EvSleep (retry_sleep (conf s))].

(** Nothing fails between two attempts: the retry handler is left out or
    is a callable of the caller that returns, and the sleep is one that
    [time.sleep] accepts. *)
Definition retry_step_ok (c : Conf) : bool :=
  (negb (truthy (retry_handler c)) || retry_returns (retry_handler c))
  && (0 <=? retry_sleep c) && (retry_sleep c <=? SLEEP_MAX).

(** How many events of a trace are of the kind [p]. *)
Definition count (p : Event -> bool) (tr : list Event) : nat :=
  length (List.filter p tr).

(** What an attempt does after the spawn. *)
Definition after_spawn (e : Event) : bool :=
  match e with
  | EvStdinWrite _ | EvStdinClose | EvSelect _ | EvRead _ | EvLine _ _
  | EvWait => true
  | _ => false
  end.

(** The events of the draining loop. *)
Definition is_io (e : Event) : bool :=
  match e with
  | EvSelect _ | EvRead _ | EvLine _ _ => true
  | _ => false
  end.

(** ** Sample objects *)

Module Sample.

(** [Command('ls', check=True, retry_times=2, retry_sleep=1,
    retry_handler=f)], once [__init__] has run. *)
Definition command : Command :=
  {| conf :=
       {| cmd := [47; 98; 105; 110; 47; 108; 115];
          args := [];
          shell := false;
          close_fds := VBool true;
          check := VBool true;
          allowed_retval := VTuple [0];
          retry_times := 2;
          retry_sleep := 1;
          retry_handler := VCallable (user_callable 0 Done);
          env := None;
          out_handler := VCallable (logging_handler 20);
          err_handler := VCallable (logging_handler 30) |};
     pipe := None; ret := None; out := None; err := None |}.

(** The same with [retry_times=0]. *)
Definition command_no_retry : Command :=
  {| conf :=
       {| cmd := cmd (conf command);
          args := [];
          shell := false;
          close_fds := VBool true;
          check := VBool true;
          allowed_retval := VTuple [0];
          retry_times := 0;
          retry_sleep := 1;
          retry_handler := VCallable (user_callable 0 Done);
          env := None;
          out_handler := VCallable (logging_handler 20);
          err_handler := VCallable (logging_handler 30) |};
     pipe := None; ret := None; out := None; err := None |}.

(** A child that writes "hi\nxy\n" on its output in two pieces and "e" on
    its error stream, and exits with code 1; the first wait is interrupted
    once. *)
Definition child : ChildRun :=
  {| stdin_write := Written; stdin_close := Written;
     waits := [Ready [Stderr]; Fails EINTR; Ready [Stdout; Stderr];
               Ready [Stdout]; Ready [Stdout]];
     stdout_chunks := [[104; 105; 10; 120]; [121; 10]];
     stderr_chunks := [[101]];
     returncode := 1 |}.

Definition children : Z -> ChildRun := fun _ => child.

End Sample.

(** The argument vector the child is started with: the list itself in
    direct mode, the words the shell reads from the string in shell mode. *)
Definition child_argv (p : Popen) : option (list text) :=
  match popen_cmd p with
  | ArgV argv => Some argv
  | ShellString s => Posix.words s
  end.

(** [Command('ls', args=['-l'], shell=True)]. *)
Definition demo_shell_command : Command :=
  {| conf :=
       {| cmd := [108; 115];
          args := [[45; 108]];
          shell := true;
          close_fds := VBool true;
          check := VBool false;
          allowed_retval := VTuple [0];
          retry_times := 0;
          retry_sleep := 0;
          retry_handler := VNone;
          env := None;
          out_handler := VCallable (logging_handler 20);
          err_handler := VCallable (logging_handler 30) |};
     pipe := None; ret := None; out := None; err := None |}.

(** [n] calls of [process] in a row on one reader: the flags they return,
    the handler calls they make, and the reader afterwards. *)
Fixpoint process_times (n : nat) (p : StreamLineProcessor)
  : list bool * list text * StreamLineProcessor :=
  match n with
  | O => ([], [], p)
  | S n' =>
      let '(eof, calls, p') := process p in
      let '(flags, more, q) := process_times n' p' in
      (eof :: flags, calls ++ more, q)
  end.

Definition is_read (s : Stream) (e : Event) : bool :=
  match e with
  | EvRead s' => stream_eqb s s'
  | _ => false
  end.

(** No reader is read twice without a readiness wait in between; [seen]
    are the readers read since the last wait. *)
Fixpoint reads_once (seen : list Stream) (tr : list Event) : bool :=
  match tr with
  | [] => true
  | EvSelect _ :: tr' => reads_once [] tr'
  | EvRead s :: tr' =>
      negb (existsb (stream_eqb s) seen) && reads_once (s :: seen) tr'
  | _ :: tr' => reads_once seen tr'
  end.

(** The answer of a wait that is either an interruption or lists both
    streams as ready. *)
Definition full_answer (w : WaitResult) : bool :=
  match w with
  | Ready a =>
      existsb (stream_eqb Stdout) a && existsb (stream_eqb Stderr) a
  | Fails errno => errno =? EINTR
  end.

Definition is_ready (w : WaitResult) : bool :=
  match w with Ready _ => true | Fails _ => false end.

(** How many answers of the wait report readiness. *)
Definition count_ready (ws : list WaitResult) : nat :=
  length (List.filter is_ready ws).

Definition chunks_of (child : ChildRun) (s : Stream) : list bytes :=
  match s with
  | Stdout => stdout_chunks child
  | Stderr => stderr_chunks child
  end.

(** The reads made on [s], those still to come and the final one for the
    end of the stream add up to the chunks of the stream plus one. *)
Definition reads_balance (child : ChildRun) (st : Readers) : Prop :=
  forall s,
    real_chunks (unread (_file (reader s st)))
    /\ (listed s st = false -> unread (_file (reader s st)) = [])
    /\ (count (is_read s) (trace st)
        + length (unread (_file (reader s st)))
        + (if listed s st then 1 else 0)
        = length (chunks_of child s) + 1)%nat.

(** A child whose draining is cut short: after one answer the wait fails
    with EBADF. *)
Definition demo_cut_child : ChildRun :=
  {| stdin_write := Written; stdin_close := Written;
     waits := [Ready [Stdout]; Fails 9];
     stdout_chunks := [[97; 10; 98]; [99; 10]];
     stderr_chunks := [[101; 10]];
     returncode := 0 |}.

(** A child whose waits are interrupted once and otherwise report both
    streams. *)
Definition demo_full_child : ChildRun :=
  {| stdin_write := Written; stdin_close := Written;
     waits := [Ready [Stdout; Stderr]; Fails EINTR; Ready [Stderr; Stdout];
               Ready [Stdout; Stderr]];
     stdout_chunks := [[97; 10; 98]; [99; 10]];
     stderr_chunks := [[101; 10]];
     returncode := 0 |}.

Definition is_wait (e : Event) : bool :=
  match e with EvWait => true | _ => false end.

Definition is_policy_failure {A} (r : Outcome A) : bool :=
  match r with
  | Raises (CommandFailedException _) => true
  | _ => false
  end.

(** A child that writes "ok\n" and exits with code 0. *)
Definition demo_ok_child : ChildRun :=
  {| stdin_write := Written; stdin_close := Written;
     waits := [Ready [Stdout; Stderr]; Ready [Stdout]];
     stdout_chunks := [[111; 107; 10]];
     stderr_chunks := [];
     returncode := 0 |}.

(** The first spawn fails, the later ones succeed. *)
Definition demo_flaky : Z -> ChildRun :=
  fun i => if i =? 0 then Sample.child else demo_ok_child.

(** Two configurations that differ, if at all, in the exit-code check, the
    accepted exit codes and the descriptor policy, and there only where the
    call gives a value of its own; the handlers and the retry settings are
    free. *)
Definition same_where_not_overridden (kwargs : gmap string Value)
  (c c' : Conf) : Prop :=
  cmd c = cmd c' /\ args c = args c' /\ shell c = shell c'
  /\ env c = env c'
  /\ (kwargs !! "check" = None -> check c = check c')
  /\ (kwargs !! "allowed_retval" = None ->
      allowed_retval c = allowed_retval c')
  /\ (kwargs !! "close_fds" = None -> close_fds c = close_fds c').

(** The same for the two line handlers. *)
Definition same_handlers_where_not_overridden (kwargs : gmap string Value)
  (c c' : Conf) : Prop :=
  (kwargs !! "out_handler" = None -> out_handler c = out_handler c')
  /\ (kwargs !! "err_handler" = None -> err_handler c = err_handler c').

(** Built like [Sample.command], but without exit-code check, with other
    accepted codes and another retry count. *)
Definition demo_lenient_command : Command :=
  {| conf :=
       {| cmd := cmd (conf Sample.command);
          args := [];
          shell := false;
          close_fds := VBool false;
          check := VBool false;
          allowed_retval := VTuple [0; 1];
          retry_times := 5;
          retry_sleep := 0;
          retry_handler := VNone;
          env := None;
          out_handler := VCallable (user_callable 1 Done);
          err_handler := VCallable (user_callable 2 Done) |};
     pipe := None; ret := None; out := None; err := None |}.

(** [check=True, allowed_retval=(2,), close_fds=True] given in the call. *)
Definition demo_overrides : gmap string Value :=
  <["check" := VBool true]>
    (<["allowed_retval" := VTuple [2]]> {[ "close_fds" := VBool true ]}).

(** The same with line handlers of the call's own. *)
Definition demo_full_overrides : gmap string Value :=
  <["out_handler" := VCallable (user_callable 5 Done)]>
    (<["err_handler" := VCallable (user_callable 6 Done)]> demo_overrides).

(** A command that already holds the results of an earlier call. *)
Definition demo_used_command : Command :=
  {| conf := conf demo_lenient_command;
     pipe := None; ret := Some 7; out := Some [111; 108; 100];
     err := Some [] |}.

Definition COLON : Z := 58.

(** [Ssh._args_for_suse(args)]:
    [[' ' + a if a.startswith(':') else a for a in args]]. *)
Definition _args_for_suse (args : list text) : list text :=
  map (fun a => if Py.starts_with [COLON] a then Py.SPACE :: a else a) args.

(** [Ssh.get_output(...)]: the arguments of the call are mangled, then the
    method of the base class runs. *)
Definition ssh_get_output (self : Command) (args' : list text)
  (kwargs : gmap string Value) (children : Z -> ChildRun)
  : Outcome (text * text) * Command * list Event :=
  get_output self (_args_for_suse args') kwargs children.

(** The command lines of the spawns of a trace. *)
Fixpoint spawned (tr : list Event) : list CmdLine :=
  match tr with
  | [] => []
  | EvPopen p :: tr' => popen_cmd p :: spawned tr'
  | _ :: tr' => spawned tr'
  end.

(** The command line that a call spawns. *)
Definition call_line (self : Command) (args' : list text)
  (kwargs : gmap string Value) : CmdLine :=
  popen_cmd (_build_pipe self args'
               (default (close_fds (conf self)) (kwargs !! "close_fds"))).

(** [enable_signal_forwarding(signal_id)] called [n] times on the object
    [owner]; the first call that raises ends the sequence. *)
Fixpoint enable_times (n : nat) (os : Platform) (owner : nat)
  (signal_id : Z) (table : gmap Z SigHandler)
  : Outcome unit * gmap Z SigHandler :=
  match n with
  | O => (Returns tt, table)
  | S n' =>
      let '(r, table') := enable_signal_forwarding os owner signal_id table in
      match r with
      | Returns _ => enable_times n' os owner signal_id table'
      | Raises e => (Raises e, table')
      | Hangs => (Hangs, table')
      end
  end.

(** The signal can be given a handler on this platform. *)
Definition settable (os : Platform) (signal_id : Z) : bool :=
  (1 <=? signal_id) && (signal_id <? NSIG os)
  && negb (existsb (Z.eqb signal_id) (unchangeable os)).

(** A command with a live child. *)
Definition demo_running_command : Command :=
  {| conf := conf Sample.command;
     pipe := Some (_build_pipe Sample.command [] (VBool true));
     ret := None; out := None; err := None |}.

(** A program with two [Command] objects: number 0 has no child, every
    other number stands for one with a live child. *)
Definition demo_objs (i : nat) : Command :=
  match i with
  | O => Sample.command
  | S _ => demo_running_command
  end.

(** The body of the handlers built by [make_logging_handler] and
    [make_output_handler]: the messages that one call with [line] emits.
    An empty line emits nothing; a prefix that is [None] or empty is left
    out. *)
Definition handler_messages (prefix : option text) (line : text)
  : list text :=
  match line with
  | [] => []
  | _ :: _ =>
      match prefix with
      | Some (c :: p) => [(c :: p) ++ line]
      | Some [] | None => [line]
      end
  end.

(** [make_logging_handler(level, prefix)]: the records that the handler
    sends to the logger when it is called with [line]. *)
Definition make_logging_handler (level : Z) (prefix : option text)
  (line : text) : list (Z * text) :=
  map (pair level) (handler_messages prefix line).

Definition nonempty (l : text) : bool :=
  match l with [] => false | _ :: _ => true end.

(** The arguments of [Command.__init__]. *)
Record InitArgs := {
  init_cmd : text;
  init_args : option (list text);
  init_env_append : option (gmap text text);
  init_path : option text;
  init_shell : bool;
  init_check : Value;
  init_allowed_retval : Value;
  init_close_fds : Value;
  init_out_handler : Value;
  init_err_handler : Value;
  init_retry_times : Z;
  init_retry_sleep : Z;
  init_retry_handler : Value
}.

(** How the constructor ends: with the object, or with
    [CommandFailedException('{} not in PATH'.format(cmd))]. *)
Inductive InitResult :=
| Built (c : Command)
| NotInPath (message : text).

Definition PATH : text := [80; 65; 84; 72].

Definition NOT_IN_PATH : text :=
  [32; 110; 111; 116; 32; 105; 110; 32; 80; 65; 84; 72].

Definition INFO : Z := 20.
Definition WARNING : Z := 30.

(** [if t:] for a string that may be [None]. *)
Definition text_truthy (t : option text) : bool :=
  match t with
  | Some (_ :: _) => true
  | Some [] | None => false
  end.

(** The environment overlay of the constructor: [env_append or {}], with
    [PATH] set when a path is given. *)
Definition env_overlay (a : InitArgs) : gmap text text :=
  let env_append := default ∅ (init_env_append a) in
  if text_truthy (init_path a)
  then <[PATH := default [] (init_path a)]> env_append
  else env_append.

(** [self.env]: a copy of [os.environ] updated with the overlay, or [None]
    when the overlay is empty. *)
Definition init_env (environ : gmap text text) (a : InitArgs)
  : option (gmap text text) :=
  if negb (Nat.eqb (size (env_overlay a)) 0)
  then Some (env_overlay a ∪ environ)
  else None.

(** [Command.__init__(...)].  [which] is [frabit.utils.which], which is not
    part of the file, [environ] is [os.environ]. *)
Definition init_command (which : text -> option text -> option text)
  (environ : gmap text text) (a : InitArgs) : InitResult :=
  let resolved :=
    if init_shell a then Some (init_cmd a)
    else
      match which (init_cmd a) (init_path a) with
      | Some (c :: p) => Some (c :: p)
      | Some [] | None => None
      end in
  match resolved with
  | None => NotInPath (init_cmd a ++ NOT_IN_PATH)
  | Some cmd' =>
      Built
        {| conf :=
             {| cmd := cmd';
                args := default [] (init_args a);
                shell := init_shell a;
                close_fds := init_close_fds a;
                check := init_check a;
                allowed_retval := init_allowed_retval a;
                retry_times := init_retry_times a;
                retry_sleep := init_retry_sleep a;
                retry_handler := init_retry_handler a;
                env := map_to_list <$> init_env environ a;
                out_handler :=
                  if truthy (init_out_handler a) then init_out_handler a
                  else VCallable (logging_handler INFO);
                err_handler :=
                  if truthy (init_err_handler a) then init_err_handler a
                  else VCallable (logging_handler WARNING) |};
           pipe := None; ret := None; out := None; err := None |}
  end.

(** [Command('ls', env_append={'LANG': 'C', 'PATH': '/x'}, path='/bin')]. *)
Definition demo_init_args : InitArgs :=
  {| init_cmd := [108; 115];
     init_args := None;
     init_env_append :=
       Some (<[[76; 65; 78; 71] := [67]]> {[ PATH := [47; 120] ]});
     init_path := Some [47; 98; 105; 110];
     init_shell := false;
     init_check := VBool false;
     init_allowed_retval := VTuple [0];
     init_close_fds := VBool true;
     init_out_handler := VNone;
     init_err_handler := VNone;
     init_retry_times := 0;
     init_retry_sleep := 0;
     init_retry_handler := VNone |}.

(** An inherited environment with [PATH=/usr/bin] and [HOME=/root]. *)
Definition demo_environ : gmap text text :=
  <[PATH := [47; 117; 115; 114; 47; 98; 105; 110]]>
    {[ [72; 79; 77; 69] := [47; 114; 111; 111; 116] ]}.

(** A [which] that finds [ls] in [/bin] and nothing else. *)
Definition demo_which (c : text) (path : option text) : option text :=
  if bool_decide (c = [108; 115]) then Some [47; 98; 105; 110; 47; 108; 115]
  else None.

(** A child that has closed its input: the close that flushes the written
    bytes fails. *)
Definition demo_deaf_child : ChildRun :=
  {| stdin_write := Written; stdin_close := Broken;
     waits := [Ready [Stdout; Stderr]; Ready [Stdout]];
     stdout_chunks := [[111; 107; 10]];
     stderr_chunks := [];
     returncode := 0 |}.

(** [Command('ls', check=True, retry_times=2, retry_sleep=-1,
    retry_handler=f)]. *)
Definition demo_negative_sleep : Command :=
  {| conf :=
       {| cmd := cmd (conf Sample.command);
          args := [];
          shell := false;
          close_fds := VBool true;
          check := VBool true;
          allowed_retval := VTuple [0];
          retry_times := 2;
          retry_sleep := -1;
          retry_handler := VCallable (user_callable 0 Done);
          env := None;
          out_handler := VCallable (logging_handler 20);
          err_handler := VCallable (logging_handler 30) |};
     pipe := None; ret := None; out := None; err := None |}.

(** * Part II: properties *)

(** ** The string primitives *)

Section TextFacts.

Implicit Types (s t : text) (sep c : Z).

Lemma split_not_nil sep s : Py.split sep s <> [].
Proof.
  destruct s as [|c s]; simpl; [discriminate|].
  destruct (c =? sep); [discriminate|].
  destruct (Py.split sep s); discriminate.
Qed.

Lemma split_no_sep sep s :
  Py.contains sep s = false -> Py.split sep s = [s].
Proof.
  unfold Py.contains. induction s as [|c s IH]; simpl; [reflexivity|].
  intros H. apply orb_false_elim in H as [Hc Hs].
  rewrite Z.eqb_sym, Hc, (IH Hs). reflexivity.
Qed.

Lemma contains_app sep s t :
  Py.contains sep (s ++ t) = Py.contains sep s || Py.contains sep t.
Proof. unfold Py.contains. apply existsb_app. Qed.

(** The last piece of a split holds no separator. *)
Lemma last_split_no_sep sep s :
  Py.contains sep (Py.last_item (Py.split sep s)) = false.
Proof.
  unfold Py.last_item, Py.contains.
  induction s as [|c s IH]; simpl; [reflexivity|].
  pose proof (split_not_nil sep s) as Hne.
  destruct (c =? sep) eqn:Hc.
  - destruct (Py.split sep s) as [|l ls]; [contradiction|]. exact IH.
  - destruct (Py.split sep s) as [|l ls]; [contradiction|].
    destruct ls as [|l' ls'].
    + simpl in *. rewrite Z.eqb_sym, Hc. exact IH.
    + exact IH.
Qed.

(** Splitting a concatenation: the pieces completed by the first part, then
    the split of what the first part left over followed by the second. *)
Lemma split_app sep s t :
  Py.split sep (s ++ t)
  = Py.but_last (Py.split sep s)
      ++ Py.split sep (Py.last_item (Py.split sep s) ++ t).
Proof.
  unfold Py.but_last, Py.last_item.
  induction s as [|c s IH]; simpl; [reflexivity|].
  pose proof (split_not_nil sep s) as Hne.
  destruct (c =? sep) eqn:Hc.
  - rewrite IH. destruct (Py.split sep s) as [|l ls]; [contradiction|].
    reflexivity.
  - rewrite IH. destruct (Py.split sep s) as [|l ls]; [contradiction|].
    destruct ls as [|l' ls']; simpl.
    + rewrite Hc. reflexivity.
    + reflexivity.
Qed.

(** Joining what was split gives the string back. *)
Lemma join_split sep s : Py.join [sep] (Py.split sep s) = s.
Proof.
  induction s as [|c s IH]; simpl; [reflexivity|].
  pose proof (split_not_nil sep s) as Hne.
  destruct (c =? sep) eqn:Hc.
  - apply Z.eqb_eq in Hc. subst c.
    destruct (Py.split sep s) as [|l ls]; [contradiction|].
    simpl in *. rewrite IH. reflexivity.
  - destruct (Py.split sep s) as [|l ls]; [contradiction|].
    destruct ls as [|l' ls']; simpl in *; rewrite <- IH; reflexivity.
Qed.

(** With a one-character [old] the replacement acts character by
    character. *)
Lemma replace_one_char c (new s : text) :
  Py.replace [c] new s
  = flat_map (fun x => if x =? c then new else [x]) s.
Proof.
  unfold Py.replace.
  induction s as [|x s IH]; simpl; [reflexivity|].
  rewrite (Z.eqb_sym c x), andb_true_r.
  destruct (x =? c); simpl; rewrite IH; reflexivity.
Qed.

(** Seven-bit data decodes to itself. *)
Lemma decode_ascii (data : bytes) :
  Forall (fun b => b < 0x80) data -> Py.decode data = data.
Proof.
  induction 1 as [|b data Hb _ IH]; simpl; [reflexivity|].
  destruct (Z.ltb_spec b 128); [|lia]. rewrite IH. reflexivity.
Qed.

End TextFacts.

(** ** Quoting *)

Section QuoteRoundTrip.

Lemma shell_quote_chars (S : text) :
  shell_quote S = [Py.SQUOTE] ++ flat_map quoted_char S ++ [Py.SQUOTE].
Proof. unfold shell_quote. rewrite replace_one_char. reflexivity. Qed.

(** Inside the opening quote, the body of the quoted form adds exactly the
    characters of [S] to the current word and leaves the reader inside
    single quotes. *)
Lemma scan_quoted_body (S w : text) (done : list text) (rest : text) :
  Posix.scan Posix.InSingle (Some w) done (flat_map quoted_char S ++ rest)
  = Posix.scan Posix.InSingle (Some (w ++ S)) done rest.
Proof.
  revert w. induction S as [|c S IH]; intros w.
  - simpl. rewrite app_nil_r. reflexivity.
  - simpl flat_map. rewrite <- app_assoc. unfold quoted_char at 1.
    destruct (c =? Py.SQUOTE) eqn:Hc.
    + apply Z.eqb_eq in Hc. subst c. simpl.
      rewrite IH. unfold Posix.push. simpl.
      rewrite <- app_assoc. reflexivity.
    + simpl. rewrite Hc. unfold Posix.push. simpl.
      rewrite IH, <- app_assoc. reflexivity.
Qed.

Lemma words_shell_quote (S : text) : Posix.words (shell_quote S) = Some [S].
Proof.
  rewrite shell_quote_chars. unfold Posix.words. simpl.
  rewrite scan_quoted_body. reflexivity.
Qed.

(** The quoted arguments of a composed command line read back as the
    arguments, after whatever words the command token contributes. *)
Lemma scan_quoted_args (l : list text) (done : list text) :
  Posix.scan Posix.Unquoted None done
    (Py.join [Py.SPACE] (map shell_quote l))
  = Some (done ++ l).
Proof.
  revert done. induction l as [|a l IH]; intros done.
  - simpl. rewrite app_nil_r. reflexivity.
  - destruct l as [|b l].
    + simpl map. simpl Py.join. rewrite shell_quote_chars. simpl.
      rewrite <- (app_nil_r (flat_map quoted_char a ++ [Py.SQUOTE])).
      rewrite <- app_assoc, scan_quoted_body. reflexivity.
    + change (Py.join [Py.SPACE] (map shell_quote (a :: b :: l)))
        with (shell_quote a ++ [Py.SPACE]
                ++ Py.join [Py.SPACE] (map shell_quote (b :: l))).
      rewrite shell_quote_chars.
      remember (Py.join [Py.SPACE] (map shell_quote (b :: l))) as tl.
      simpl. rewrite <- !app_assoc, scan_quoted_body. simpl.
      subst tl. rewrite IH, <- app_assoc. reflexivity.
Qed.

End QuoteRoundTrip.

(** C4.  For every string [S] (the empty one, and those with quotes, blanks
    and shell metacharacters included), a POSIX shell reading
    [shell_quote S] obtains exactly one word, and that word is [S]; the
    quoted form is [S] between single quotes with every single quote of [S]
    written as quote, backslash, quote, quote. *)
Theorem shell_quote_round_trip (S : text) :
  Posix.words (shell_quote S) = Some [S]
  /\ shell_quote S
     = [Py.SQUOTE]
         ++ flat_map (fun c => if c =? Py.SQUOTE
                               then [Py.SQUOTE; Py.BACKSLASH;
                                     Py.SQUOTE; Py.SQUOTE]
                               else [c]) S
         ++ [Py.SQUOTE].
Proof.
  split.
  - apply words_shell_quote.
  - apply shell_quote_chars.
Qed.

(** ** The line multiplexer *)

Section Lines.

Lemma read_lines_step (n : nat) (p : StreamLineProcessor) :
  read_lines (S n) p
  = let '(eof, calls, p') := process p in
    if eof then Some (calls, p')
    else match read_lines n p' with
         | Some (more, q) => Some (calls ++ more, q)
         | None => None
         end.
Proof. reflexivity. Qed.

(** A reader whose buffer holds no newline delivers, up to the end of the
    stream, the split of its buffer followed by the decoded chunks. *)
Lemma read_lines_chunks (chunks : list bytes) :
  real_chunks chunks ->
  forall (buf : text) (cl : bool),
    Py.contains Py.NL buf = false ->
    exists q,
      read_lines (S (length chunks))
        {| _file := {| unread := chunks; closed := cl |}; _buf := buf |}
      = Some (Py.split Py.NL (buf ++ decoded chunks), q).
Proof.
  induction 1 as [|c chunks Hc _ IH]; intros buf cl Hbuf.
  - eexists. simpl. unfold decoded. simpl.
    rewrite app_nil_r, (split_no_sep _ _ Hbuf). reflexivity.
  - destruct c as [|b c]; [contradiction|].
    change (decoded ((b :: c) :: chunks))
      with (Py.decode (b :: c) ++ decoded chunks).
    rewrite app_assoc.
    change (length ((b :: c) :: chunks)) with (S (length chunks)).
    rewrite read_lines_step. unfold process, os_read.
    cbn [_file unread _buf closed].
    remember (buf ++ Py.decode (b :: c)) as buf' eqn:Ebuf.
    destruct (Py.contains Py.NL buf') eqn:Hnl; cbn [negb].
    + destruct (IH (Py.last_item (Py.split Py.NL buf')) cl
                  (last_split_no_sep _ _)) as [q Hq].
      exists q. rewrite Hq, <- split_app. reflexivity.
    + destruct (IH buf' cl Hnl) as [q Hq].
      exists q. rewrite Hq. reflexivity.
Qed.

(** However the stream is cut into reads, the handler receives the split of
    the concatenation of the decoded reads. *)
Lemma lines_of_chunks_decoded (chunks : list bytes) :
  real_chunks chunks ->
  lines_of_chunks chunks = Some (Py.split Py.NL (decoded chunks)).
Proof.
  intros H. unfold lines_of_chunks, new_processor.
  destruct (read_lines_chunks chunks H [] false eq_refl) as [q Hq].
  rewrite Hq. reflexivity.
Qed.

(** For seven-bit data the cut is invisible: the handler receives the lines
    of the whole stream. *)
Lemma lines_of_chunks_ascii (chunks : list bytes) :
  real_chunks chunks ->
  Forall (Forall (fun b => b < 0x80)) chunks ->
  lines_of_chunks chunks = Some (lines_of_whole (concat chunks)).
Proof.
  intros H Hascii. rewrite (lines_of_chunks_decoded _ H).
  unfold lines_of_whole, decoded. do 2 f_equal.
  rewrite decode_ascii.
  - induction Hascii as [|c l Hc _ IH]; simpl; [reflexivity|].
    inversion H; subst. rewrite (decode_ascii _ Hc), IH; auto.
  - apply Forall_concat. exact Hascii.
Qed.

End Lines.

(** C1.  The two bytes of U+00E9 arriving in two reads: the handler is
    called once, with two replacement characters, while the whole stream
    read at once and split gives the one line U+00E9. *)
Theorem process_decodes_each_read :
  lines_of_chunks [[0xC3]; [0xA9]] = Some [[0xFFFD; 0xFFFD]]
  /\ lines_of_whole ([0xC3] ++ [0xA9]) = [[0xE9]]
  /\ real_chunks [[0xC3]; [0xA9]].
Proof.
  split; [reflexivity|]. split; [reflexivity|].
  repeat constructor; discriminate.
Qed.

(** ** The draining loop *)

Section Loop.

Lemma stream_eqb_eq (a b : Stream) : stream_eqb a b = true <-> a = b.
Proof. destruct a, b; simpl; split; congruence. Qed.

Lemma stream_eqb_refl (a : Stream) : stream_eqb a a = true.
Proof. destruct a; reflexivity. Qed.

Lemma stream_eqb_neq (a b : Stream) : a <> b -> stream_eqb a b = false.
Proof. destruct a, b; simpl; congruence. Qed.

Lemma lines_app (s : Stream) (a b : list Event) :
  lines s (a ++ b) = lines s a ++ lines s b.
Proof.
  induction a as [|e a IH]; simpl; [reflexivity|].
  destruct e; try exact IH.
  destruct (stream_eqb s s0); simpl; rewrite IH; reflexivity.
Qed.

Lemma lines_of_calls (s s' : Stream) (calls : list text) :
  lines s (map (EvLine s') calls) = if stream_eqb s s' then calls else [].
Proof.
  induction calls as [|c calls IH]; simpl.
  - destruct (stream_eqb s s'); reflexivity.
  - destruct (stream_eqb s s'); rewrite IH; reflexivity.
Qed.

Lemma listed_remove_other (s s' : Stream) (l : list Stream) :
  s <> s' ->
  existsb (stream_eqb s) (list_remove s' l) = existsb (stream_eqb s) l.
Proof.
  intros Hne. induction l as [|x l IH]; simpl; [reflexivity|].
  destruct (stream_eqb s' x) eqn:Hx.
  - apply stream_eqb_eq in Hx. subst x.
    rewrite (stream_eqb_neq _ _ Hne). reflexivity.
  - simpl. rewrite IH. reflexivity.
Qed.

Lemma listed_remove_self (s : Stream) (l : list Stream) :
  NoDup l -> existsb (stream_eqb s) (list_remove s l) = false.
Proof.
  induction 1 as [|x l Hx Hl IH]; simpl; [reflexivity|].
  destruct (stream_eqb s x) eqn:Hsx.
  - apply stream_eqb_eq in Hsx. subst x.
    apply not_true_is_false. intros H.
    apply existsb_exists in H as (y & Hy & E).
    apply stream_eqb_eq in E. subst y. apply Hx.
    apply list_elem_of_In. exact Hy.
  - simpl. rewrite Hsx, IH. reflexivity.
Qed.

Lemma NoDup_list_remove (s : Stream) (l : list Stream) :
  NoDup l -> NoDup (list_remove s l).
Proof.
  induction 1 as [|x l Hx Hl IH]; simpl; [constructor|].
  destruct (stream_eqb s x); [exact Hl|].
  constructor; [|exact IH].
  intros Hin. apply Hx. clear -Hin.
  induction l as [|y l IH]; simpl in *; [inversion Hin|].
  destruct (stream_eqb s y).
  - right. exact Hin.
  - inversion Hin; subst; [left|right; auto].
Qed.



(** What one pass of the loop body leaves behind. *)
Lemma process_stream_reader (st : Readers) (s : Stream) :
  reader s (process_stream st s) = snd (process (reader s st)).
Proof.
  unfold process_stream.
  destruct (process (reader s st)) as [[[] calls] p]; destruct s; reflexivity.
Qed.

Lemma process_stream_trace (st : Readers) (s : Stream) :
  trace (process_stream st s)
  = trace st ++ EvRead s :: map (EvLine s) (snd (fst (process (reader s st)))).
Proof.
  unfold process_stream.
  destruct (process (reader s st)) as [[[] calls] p]; destruct s; reflexivity.
Qed.

Lemma process_stream_processors (st : Readers) (s : Stream) :
  processors (process_stream st s)
  = if fst (fst (process (reader s st)))
    then list_remove s (processors st)
    else processors st.
Proof.
  unfold process_stream.
  destruct (process (reader s st)) as [[[] calls] p]; destruct s; reflexivity.
Qed.

Lemma process_stream_other_reader (st : Readers) (s s' : Stream) :
  s <> s' -> reader s (process_stream st s') = reader s st.
Proof.
  intros Hne. unfold process_stream.
  destruct (process (reader s' st)) as [[[] calls] p];
    destruct s, s'; try congruence; reflexivity.
Qed.

Lemma process_stream_other (st : Readers) (s s' : Stream) :
  s <> s' ->
  reader s (process_stream st s') = reader s st
  /\ lines s (trace (process_stream st s')) = lines s (trace st)
  /\ listed s (process_stream st s') = listed s st.
Proof.
  intros Hne. split; [apply process_stream_other_reader; exact Hne|]. split.
  - rewrite process_stream_trace, lines_app. simpl. rewrite lines_of_calls.
    rewrite (stream_eqb_neq _ _ Hne), app_nil_r. reflexivity.
  - unfold listed. rewrite process_stream_processors.
    destruct (fst (fst (process (reader s' st)))); [|reflexivity].
    apply listed_remove_other. exact Hne.
Qed.

Lemma process_stream_self (total : text) (st : Readers) (s : Stream) :
  NoDup (processors st) ->
  listed s st = true ->
  reader_inv total s st ->
  reader_inv total s (process_stream st s).
Proof.
  intros Hnd Hin (Hbuf & Hreal & Hcl & Hlines).
  rewrite Hin in Hlines, Hcl. simpl in Hcl.
  unfold reader_inv, listed.
  rewrite process_stream_reader, process_stream_trace,
    process_stream_processors.
  unfold process, os_read.
  destruct (reader s st) as [[un cl] buf] eqn:Ep.
  cbn [_file _buf unread closed] in *.
  destruct un as [|c un].
  - (* end of stream *)
    cbn [fst snd _file _buf unread closed close].
    rewrite (listed_remove_self _ _ Hnd).
    repeat split; auto.
    rewrite lines_app. simpl. rewrite stream_eqb_refl, app_nil_r.
    unfold decoded in Hlines. simpl in Hlines.
    rewrite app_nil_r, (split_no_sep _ _ Hbuf) in Hlines. exact Hlines.
  - inversion Hreal as [|? ? Hc Hun]; subst.
    destruct c as [|b c]; [contradiction|].
    change (decoded ((b :: c) :: un))
      with (Py.decode (b :: c) ++ decoded un) in Hlines.
    rewrite app_assoc in Hlines.
    remember (buf ++ Py.decode (b :: c)) as buf' eqn:Ebuf.
    unfold listed in Hin.
    destruct (Py.contains Py.NL buf') eqn:Hnl;
      cbn [negb fst snd _file _buf unread closed]; rewrite Hin.
    + split; [apply last_split_no_sep|].
      split; [exact Hun|]. split; [reflexivity|].
      rewrite lines_app. cbn [lines].
      rewrite lines_of_calls, stream_eqb_refl.
      rewrite <- app_assoc, <- split_app. exact Hlines.
    + split; [exact Hnl|].
      split; [exact Hun|]. split; [reflexivity|].
      rewrite lines_app. simpl. rewrite app_nil_r. exact Hlines.
Qed.


Lemma listed_process_self (st : Readers) (s : Stream) :
  NoDup (processors st) ->
  listed s st = true ->
  listed s (process_stream st s) = negb (fst (fst (process (reader s st)))).
Proof.
  intros Hnd Hin. unfold listed. rewrite process_stream_processors.
  destruct (fst (fst (process (reader s st)))); simpl.
  - apply listed_remove_self. exact Hnd.
  - exact Hin.
Qed.

Lemma NoDup_process_stream (st : Readers) (s : Stream) :
  NoDup (processors st) -> NoDup (processors (process_stream st s)).
Proof.
  intros H. rewrite process_stream_processors.
  destruct (fst (fst (process (reader s st)))); [|exact H].
  apply NoDup_list_remove. exact H.
Qed.

Lemma flat_map_agree {A B} (f g : A -> list B) (l : list A) :
  (forall x, In x l -> f x = g x) -> flat_map f l = flat_map g l.
Proof.
  induction l as [|a l IH]; intros H; simpl; [reflexivity|].
  rewrite (H a), IH; auto.
  - intros x Hx. apply H. right. exact Hx.
  - left. reflexivity.
Qed.

(** The [for] loop over the ready readers: each of them is processed once,
    from the state it had when the wait returned; the others are left as
    they were. *)
Lemma for_each_ready (rs : list Stream) :
  forall st : Readers,
    NoDup rs ->
    NoDup (processors st) ->
    (forall s, In s rs -> listed s st = true) ->
    let st' := fold_left process_stream rs st in
    NoDup (processors st')
    /\ trace st' = trace st ++ flat_map (pass_events st) rs
    /\ forall s,
         if existsb (stream_eqb s) rs
         then reader s st' = snd (process (reader s st))
              /\ listed s st' = negb (fst (fst (process (reader s st))))
         else reader s st' = reader s st /\ listed s st' = listed s st.
Proof.
  induction rs as [|a rs IH]; intros st Hrs Hnd Hin; cbn zeta.
  - simpl. rewrite app_nil_r. auto.
  - apply NoDup_cons in Hrs as [Ha Hrs].
    assert (Hin' : forall s, In s rs -> listed s (process_stream st a) = true).
    { intros s Hs.
      assert (s <> a) by (intros ->; apply Ha, list_elem_of_In, Hs).
      destruct (process_stream_other st s a) as (_ & _ & ->); auto.
      apply Hin. right. exact Hs. }
    destruct (IH (process_stream st a) Hrs (NoDup_process_stream _ _ Hnd)
                Hin') as (Hnd' & Htr & Hrd).
    simpl fold_left. split; [exact Hnd'|]. split.
    + rewrite Htr, process_stream_trace. simpl flat_map.
      rewrite <- app_assoc. f_equal. unfold pass_events at 2. simpl.
      do 2 f_equal. apply flat_map_agree. intros s Hs. unfold pass_events.
      assert (s <> a) by (intros ->; apply Ha, list_elem_of_In, Hs).
      rewrite process_stream_other_reader by assumption. reflexivity.
    + intros s. specialize (Hrd s). simpl existsb.
      destruct (stream_eqb s a) eqn:Hsa.
      * apply stream_eqb_eq in Hsa. subst s.
        assert (Hna : existsb (stream_eqb a) rs = false).
        { apply not_true_is_false. intros H.
          apply existsb_exists in H as (y & Hy & E).
          apply stream_eqb_eq in E. subst y.
          apply Ha, list_elem_of_In, Hy. }
        rewrite Hna in Hrd. destruct Hrd as [-> ->]. simpl.
        split; [apply process_stream_reader|].
        apply listed_process_self; [exact Hnd|]. apply Hin. left. reflexivity.
      * assert (s <> a)
          by (intros ->; rewrite stream_eqb_refl in Hsa; discriminate).
        destruct (process_stream_other st s a) as (Er & _ & El); auto.
        simpl. rewrite Er, El in Hrd. exact Hrd.
Qed.

Lemma NoDup_select (waited answer : list Stream) :
  NoDup waited -> NoDup (select waited answer).
Proof.
  unfold select. induction 1 as [|x l Hx Hl IH]; simpl; [constructor|].
  destruct (existsb (stream_eqb x) answer); [|exact IH].
  constructor; [|exact IH].
  intros Hin. apply Hx. apply list_elem_of_In.
  apply list_elem_of_In in Hin. apply filter_In in Hin. tauto.
Qed.

Lemma select_listed (st : Readers) (answer : list Stream) (s : Stream) :
  In s (select (processors st) answer) -> listed s st = true.
Proof.
  unfold select, listed. intros H. apply filter_In in H as [H _].
  apply existsb_exists. exists s. split; [exact H|apply stream_eqb_refl].
Qed.

Lemma select_ready (waited answer : list Stream) (s : Stream) :
  existsb (stream_eqb s) (select waited answer)
  = existsb (stream_eqb s) waited && existsb (stream_eqb s) answer.
Proof.
  unfold select. induction waited as [|x l IH]; simpl; [reflexivity|].
  destruct (existsb (stream_eqb x) answer) eqn:Hx; simpl; rewrite IH.
  - destruct (stream_eqb s x) eqn:Hsx; simpl; [|reflexivity].
    apply stream_eqb_eq in Hsx. subst x. rewrite Hx. reflexivity.
  - destruct (stream_eqb s x) eqn:Hsx; simpl; [|reflexivity].
    apply stream_eqb_eq in Hsx. subst x. rewrite Hx.
    rewrite andb_false_r. reflexivity.
Qed.


Lemma reader_inv_other (total : text) (st : Readers) (s a : Stream) :
  s <> a -> reader_inv total s st -> reader_inv total s (process_stream st a).
Proof.
  intros Hne H. unfold reader_inv in *.
  destruct (process_stream_other st s a Hne) as (-> & -> & ->). exact H.
Qed.

Lemma reader_inv_select (total : text) (st : Readers) (s : Stream)
  (l : list Stream) :
  reader_inv total s st -> reader_inv total s (log [EvSelect l] st).
Proof.
  unfold reader_inv, listed. destruct s; simpl; rewrite lines_app; simpl;
    rewrite app_nil_r; auto.
Qed.

Lemma for_each_ready_inv (T : Stream -> text) (rs : list Stream) :
  forall st : Readers,
    NoDup rs ->
    NoDup (processors st) ->
    (forall s, In s rs -> listed s st = true) ->
    (forall s, reader_inv (T s) s st) ->
    forall s, reader_inv (T s) s (fold_left process_stream rs st).
Proof.
  induction rs as [|a rs IH]; intros st Hrs Hnd Hin Hinv; [exact Hinv|].
  apply NoDup_cons in Hrs as [Ha Hrs]. simpl.
  apply IH; [exact Hrs|apply NoDup_process_stream; exact Hnd| |].
  - intros s Hs.
    assert (s <> a) by (intros ->; apply Ha, list_elem_of_In, Hs).
    destruct (process_stream_other st s a) as (_ & _ & ->); auto.
    apply Hin. right. exact Hs.
  - intros s. destruct (stream_eqb s a) eqn:Hsa.
    + apply stream_eqb_eq in Hsa. subst s.
      apply process_stream_self; auto. apply Hin. left. reflexivity.
    + apply reader_inv_other; auto.
      intros ->. rewrite stream_eqb_refl in Hsa. discriminate.
Qed.

(** The loop, one step at a time. *)
Lemma loop_done (ws : list WaitResult) (st : Readers) :
  processors st = [] -> pipe_processor_loop ws st = (Returns tt, st).
Proof. intros H. destruct ws; simpl; rewrite H; reflexivity. Qed.

Lemma loop_hangs (st : Readers) :
  processors st <> [] ->
  pipe_processor_loop [] st = (Hangs, log [EvSelect (processors st)] st).
Proof.
  intros H. simpl. destruct (processors st); [contradiction|reflexivity].
Qed.

Lemma loop_fails (errno : Z) (ws : list WaitResult) (st : Readers) :
  processors st <> [] ->
  pipe_processor_loop (Fails errno :: ws) st
  = if errno =? EINTR
    then pipe_processor_loop ws (log [EvSelect (processors st)] st)
    else (Raises (select_error errno), log [EvSelect (processors st)] st).
Proof.
  intros H. simpl. destruct (processors st); [contradiction|reflexivity].
Qed.

Lemma loop_ready (answer : list Stream) (ws : list WaitResult)
  (st : Readers) :
  processors st <> [] ->
  pipe_processor_loop (Ready answer :: ws) st
  = pipe_processor_loop ws
      (fold_left process_stream (select (processors st) answer)
         (log [EvSelect (processors st)] st)).
Proof.
  intros H. simpl. destruct (processors st); [contradiction|reflexivity].
Qed.

Lemma nil_or_not (l : list Stream) : l = [] \/ l <> [].
Proof. destruct l; [left|right]; congruence. Qed.

Lemma loop_invariant (T : Stream -> text) (ws : list WaitResult) :
  forall st : Readers,
    NoDup (processors st) ->
    (forall s, reader_inv (T s) s st) ->
    forall r st',
      pipe_processor_loop ws st = (r, st') ->
      NoDup (processors st')
      /\ (forall s, reader_inv (T s) s st')
      /\ (r = Returns tt <-> processors st' = [])
      /\ (forall e, r = Raises e ->
            exists errno, errno <> EINTR /\ e = select_error errno
                          /\ In (Fails errno) ws).
Proof.
  induction ws as [|w ws IH]; intros st Hnd Hinv r st' Hrun.
  - destruct (nil_or_not (processors st)) as [Hp|Hne].
    + rewrite (loop_done _ _ Hp) in Hrun. inversion Hrun; subst.
      split; [exact Hnd|]. split; [exact Hinv|].
      split; [tauto|intros; discriminate].
    + rewrite (loop_hangs _ Hne) in Hrun. inversion Hrun; subst.
      split; [exact Hnd|].
      split; [intros s; apply reader_inv_select, Hinv|].
      split; [|intros; discriminate].
      simpl. split; [discriminate|tauto].
  - destruct (nil_or_not (processors st)) as [Hp|Hne].
    + rewrite (loop_done _ _ Hp) in Hrun. inversion Hrun; subst.
      split; [exact Hnd|]. split; [exact Hinv|].
      split; [tauto|intros; discriminate].
    + destruct w as [answer|errno].
      * rewrite (loop_ready _ _ _ Hne) in Hrun.
        apply IH in Hrun.
        -- destruct Hrun as (H1 & H2 & H3 & H4).
           split; [exact H1|]. split; [exact H2|]. split; [exact H3|].
           intros e He. destruct (H4 e He) as (n & ? & ? & ?).
           exists n. repeat split; auto. right. assumption.
        -- apply for_each_ready; [apply NoDup_select; exact Hnd|exact Hnd|].
           intros s Hs. apply (select_listed st answer s Hs).
        -- apply for_each_ready_inv;
             [apply NoDup_select; exact Hnd|exact Hnd| |].
           ++ intros s Hs. apply (select_listed st answer s Hs).
           ++ intros s. apply reader_inv_select, Hinv.
      * rewrite (loop_fails _ _ _ Hne) in Hrun.
        destruct (errno =? EINTR) eqn:He.
        -- apply IH in Hrun.
           ++ destruct Hrun as (H1 & H2 & H3 & H4).
              split; [exact H1|]. split; [exact H2|]. split; [exact H3|].
              intros e Hr. destruct (H4 e Hr) as (n & ? & ? & ?).
              exists n. repeat split; auto. right. assumption.
           ++ exact Hnd.
           ++ intros s. apply reader_inv_select, Hinv.
        -- inversion Hrun; subst.
           split; [exact Hnd|].
           split; [intros s; apply reader_inv_select, Hinv|].
           split; [simpl; split; [discriminate|tauto]|].
           intros e Hr. inversion Hr; subst. exists errno.
           repeat split; [apply Z.eqb_neq; exact He|left; reflexivity].
Qed.

Lemma start_readers_inv (child : ChildRun) :
  real_chunks (stdout_chunks child) ->
  real_chunks (stderr_chunks child) ->
  NoDup (processors (start_readers child))
  /\ forall s,
       reader_inv
         (match s with
          | Stdout => stdout_text child
          | Stderr => stderr_text child
          end) s (start_readers child).
Proof.
  intros Ho He. split.
  - simpl. apply NoDup_cons. split; [|apply NoDup_singleton].
    intros H. apply list_elem_of_singleton in H. discriminate.
  - intros []; unfold reader_inv; simpl; auto.
Qed.

End Loop.

(** ** One attempt *)

Section Keywords.

Implicit Types (kwargs : gmap string Value) (k : string).

Lemma execute_eq (self : Command) (args' : list text) kwargs
  (child : ChildRun) :
  execute self args' kwargs child
  = if negb (Nat.eqb (size (leftover kwargs)) 0)
    then (Raises TypeError, self, [])
    else execute_body self args'
           (default VNone (kwargs !! "stdin"))
           (default (check (conf self)) (kwargs !! "check"))
           (default (allowed_retval (conf self))
              (kwargs !! "allowed_retval"))
           (default (close_fds (conf self)) (kwargs !! "close_fds"))
           (default (out_handler (conf self)) (kwargs !! "out_handler"))
           (default (err_handler (conf self)) (kwargs !! "err_handler"))
           child.
Proof.
  unfold execute, pop, leftover.
  rewrite !lookup_delete_ne by done. reflexivity.
Qed.

Lemma leftover_lookup kwargs k :
  ~ In k execute_keys -> leftover kwargs !! k = kwargs !! k.
Proof.
  intros Hk. unfold leftover.
  rewrite !lookup_delete_ne; [reflexivity|..];
    intros <-; apply Hk; simpl; tauto.
Qed.

Lemma leftover_known kwargs k :
  In k execute_keys -> leftover kwargs !! k = None.
Proof.
  unfold leftover. simpl.
  intros [<-|[<-|[<-|[<-|[<-|[<-|[]]]]]]];
    repeat first [apply lookup_delete_eq | rewrite lookup_delete_ne by done].
Qed.

(** An unrecognized key survives the six [pop]s. *)
Lemma leftover_unknown kwargs k :
  is_Some (kwargs !! k) -> ~ In k execute_keys ->
  Nat.eqb (size (leftover kwargs)) 0 = false.
Proof.
  intros [v Hv] Hk. apply Nat.eqb_neq.
  apply (map_size_ne_0_lookup_2 _ k). rewrite leftover_lookup by exact Hk.
  eauto.
Qed.

(** With recognized keys only, nothing is left. *)
Lemma leftover_recognized kwargs :
  only_keys execute_keys kwargs ->
  Nat.eqb (size (leftover kwargs)) 0 = true.
Proof.
  intros H. apply Nat.eqb_eq, map_size_empty_iff, map_empty. intros k.
  destruct (in_dec String.string_dec k execute_keys) as [Hk|Hk].
  - apply leftover_known. exact Hk.
  - rewrite leftover_lookup by exact Hk.
    destruct (kwargs !! k) eqn:E; [|reflexivity].
    exfalso. apply Hk, H. rewrite E. eauto.
Qed.

Lemma forwarded_lookup kwargs k :
  ~ In k execute_keys -> forwarded kwargs !! k = kwargs !! k.
Proof.
  intros Hk. unfold forwarded.
  rewrite !lookup_insert_ne, !lookup_delete_ne; [reflexivity|..];
    intros <-; apply Hk; simpl; tauto.
Qed.

Lemma forwarded_only_keys kwargs :
  only_keys get_output_keys kwargs -> only_keys execute_keys (forwarded kwargs).
Proof.
  intros H k Hk.
  destruct (in_dec String.string_dec k execute_keys) as [Hin|Hin]; [exact Hin|].
  rewrite forwarded_lookup in Hk by exact Hin.
  apply H in Hk. simpl in *. tauto.
Qed.

Lemma forwarded_stdin kwargs :
  forwarded kwargs !! "stdin" = kwargs !! "stdin".
Proof.
  unfold forwarded. rewrite !lookup_insert_ne, !lookup_delete_ne by done.
  reflexivity.
Qed.

Lemma forwarded_close_fds kwargs :
  forwarded kwargs !! "close_fds" = kwargs !! "close_fds".
Proof.
  unfold forwarded. rewrite !lookup_insert_ne, !lookup_delete_ne by done.
  reflexivity.
Qed.

Lemma forwarded_check kwargs :
  forwarded kwargs !! "check" = Some (VBool false).
Proof.
  unfold forwarded. rewrite !lookup_insert_ne by done.
  apply lookup_insert_eq.
Qed.

End Keywords.

Section Attempt.

Implicit Types (self : Command) (kwargs : gmap string Value).

Lemma execute_body_conf self self' (args' : list text)
  (stdin check' allowed' close_fds' oh eh : Value) (child : ChildRun) :
  conf self = conf self' ->
  execute_body self args' stdin check' allowed' close_fds' oh eh child
  = execute_body self' args' stdin check' allowed' close_fds' oh eh child.
Proof.
  intros Hc. unfold execute_body, with_results, _build_pipe. simpl.
  rewrite Hc. reflexivity.
Qed.

Lemma lines_spawn_events (s : Stream) self (args' : list text) kwargs :
  lines s (spawn_events self args' kwargs) = [].
Proof.
  unfold spawn_events. simpl.
  destruct (truthy (default VNone (kwargs !! "stdin"))); reflexivity.
Qed.

Lemma lines_attempt (s : Stream) self (args' : list text) kwargs
  (tr : list Event) :
  lines s ((spawn_events self args' kwargs ++ tr) ++ [EvWait]) = lines s tr.
Proof.
  rewrite !lines_app, lines_spawn_events. simpl. apply app_nil_r.
Qed.

(** Handlers whose calls return receive every line of the trace. *)
Lemma run_handlers_returns (oh eh : Value) (tr : list Event) :
  returns_normally oh = true ->
  returns_normally eh = true ->
  run_handlers oh eh tr = (Returns tt, tr).
Proof.
  intros Ho He. induction tr as [|e tr IH]; [reflexivity|].
  destruct e; cbn [run_handlers]; rewrite IH; try reflexivity.
  destruct s.
  - destruct oh as [| | | | |[| |id []]]; try discriminate; reflexivity.
  - destruct eh as [| | | | |[| |id []]]; try discriminate; reflexivity.
Qed.

(** What the handlers let through is made of events of the draining, and a
    handler raises [TypeError] or an exception of its own. *)
Lemma run_handlers_io (oh eh : Value) (tr : list Event) :
  forallb is_io tr = true ->
  forallb is_io (snd (run_handlers oh eh tr)) = true
  /\ forall e, fst (run_handlers oh eh tr) = Raises e ->
       e = TypeError \/ exists id, e = OtherException id.
Proof.
  induction tr as [|x tr IH]; intros H; [split; [reflexivity|discriminate]|].
  simpl in H. apply andb_true_iff in H as [Hx Ht].
  specialize (IH Ht). destruct IH as [IH1 IH2].
  assert (Hgen : forallb is_io
                   (snd (let '(r', rest) := run_handlers oh eh tr in
                         (r', x :: rest))) = true
                 /\ forall e,
                      fst (let '(r', rest) := run_handlers oh eh tr in
                           (r', x :: rest)) = Raises e ->
                      e = TypeError \/ exists id, e = OtherException id).
  { destruct (run_handlers oh eh tr) as [r' rest]. cbn [fst snd] in *.
    split; [simpl; rewrite Hx; exact IH1|exact IH2]. }
  destruct x; try exact Hgen. cbn [run_handlers].
  set (h := match s with Stdout => oh | Stderr => eh end).
  destruct (run_handlers oh eh tr) as [r' rest]. cbn [fst snd] in *.
  destruct h as [| | | | |[| |id []]]; cbn [call_handler after_call fst snd];
    try (split; [reflexivity|intros e E; inversion E; eauto]; fail);
    try (split; [exact (proj1 Hgen)|exact IH2]; fail).
Qed.

(** How the feeding of the input ends. *)
Lemma feed_taken (stdin : Value) (child : ChildRun) :
  takes_input stdin child = true ->
  feed stdin child
  = (Returns tt,
     (if truthy stdin then [EvStdinWrite stdin] else []) ++ [EvStdinClose]).
Proof.
  unfold takes_input, feed. destruct (truthy stdin); cbn [negb orb];
    [|reflexivity].
  destruct stdin; try discriminate.
  destruct (stdin_write child), (stdin_close child); try discriminate.
  reflexivity.
Qed.

Lemma feed_refused (stdin : Value) (child : ChildRun) :
  takes_input stdin child = false ->
  fst (feed stdin child) <> Returns tt
  /\ (forall e, fst (feed stdin child) = Raises e ->
        e = TypeError \/ e = BrokenPipeError)
  /\ Forall (fun e => e = EvStdinWrite stdin \/ e = EvStdinClose)
       (snd (feed stdin child)).
Proof.
  unfold takes_input, feed. destruct (truthy stdin); cbn [negb orb];
    [|discriminate].
  destruct stdin; cbn [fst snd];
    try (intros _; split; [discriminate|];
         split; [intros e E; inversion E; auto|constructor]; fail).
  destruct (stdin_write child), (stdin_close child); try discriminate;
    intros _; cbn [fst snd after_write];
    (split; [discriminate|];
     split; [intros e E; inversion E; auto|];
     repeat first [apply List.Forall_nil | apply List.Forall_cons; [auto|]]).
Qed.

(** [execute] when the child does not take the input: the attempt ends
    there, with the handle in place. *)
Lemma execute_body_unfed self (args' : list text) kwargs
  (check' allowed' oh eh : Value) (child : ChildRun) :
  takes_input (default VNone (kwargs !! "stdin")) child = false ->
  execute_body self args' (default VNone (kwargs !! "stdin")) check' allowed'
    (default (close_fds (conf self)) (kwargs !! "close_fds")) oh eh child
  = (match fst (feed (default VNone (kwargs !! "stdin")) child) with
     | Raises e => Raises e
     | _ => Hangs
     end,
     during_attempt self args' kwargs,
     [EvPopen (_build_pipe self args'
                 (default (close_fds (conf self)) (kwargs !! "close_fds")))]
       ++ snd (feed (default VNone (kwargs !! "stdin")) child)).
Proof.
  intros H. destruct (feed_refused _ _ H) as (Hr & _ & _).
  unfold execute_body.
  destruct (feed (default VNone (kwargs !! "stdin")) child) as [[[]| e |] fed];
    cbn [fst snd] in *; [contradiction|reflexivity|reflexivity].
Qed.

(** [execute] when the input is taken, the handlers return and the
    draining runs to the end. *)
Lemma execute_body_drained self (args' : list text) kwargs
  (check' allowed' oh eh : Value) (child : ChildRun) (st : Readers) :
  takes_input (default VNone (kwargs !! "stdin")) child = true ->
  returns_normally oh = true ->
  returns_normally eh = true ->
  pipe_processor_loop (waits child) (start_readers child) = (Returns tt, st) ->
  execute_body self args' (default VNone (kwargs !! "stdin")) check' allowed'
    (default (close_fds (conf self)) (kwargs !! "close_fds")) oh eh child
  = let s := after_attempt self child None None in
    let ev := (spawn_events self args' kwargs ++ trace st) ++ [EvWait] in
    if truthy check' then
      match check_return_value s allowed' with
      | Returns _ => (Returns (returncode child), s, ev)
      | Raises e => (Raises e, s, ev)
      | Hangs => (Hangs, s, ev)
      end
    else (Returns (returncode child), s, ev).
Proof.
  intros Hin Ho He H. unfold execute_body.
  rewrite (feed_taken _ _ Hin), H, (run_handlers_returns _ _ _ Ho He).
  reflexivity.
Qed.

(** [execute] when the draining does not: the handle stays in place. *)
Lemma execute_body_cut self (args' : list text) kwargs
  (check' allowed' oh eh : Value) (child : ChildRun) (r : Outcome unit)
  (st : Readers) :
  takes_input (default VNone (kwargs !! "stdin")) child = true ->
  returns_normally oh = true ->
  returns_normally eh = true ->
  pipe_processor_loop (waits child) (start_readers child) = (r, st) ->
  r <> Returns tt ->
  execute_body self args' (default VNone (kwargs !! "stdin")) check' allowed'
    (default (close_fds (conf self)) (kwargs !! "close_fds")) oh eh child
  = (match r with
     | Raises e => Raises e
     | _ => Hangs
     end,
     during_attempt self args' kwargs,
     spawn_events self args' kwargs ++ trace st).
Proof.
  intros Hin Ho He H Hr. unfold execute_body.
  rewrite (feed_taken _ _ Hin), H, (run_handlers_returns _ _ _ Ho He).
  destruct r as [[]| |]; [contradiction|reflexivity|reflexivity].
Qed.

Lemma has_key_after_pops (k : string) kwargs :
  k <> "check"%string -> k <> "allowed_retval"%string ->
  has_key k (delete "allowed_retval" (delete "check" kwargs))
  = has_key k kwargs.
Proof.
  intros H1 H2. unfold has_key.
  rewrite !lookup_delete_ne by congruence. reflexivity.
Qed.

(** [_get_output_once]: either the call is refused before anything
    happens, or it is [execute] with the exit-code check switched off,
    followed by the check on the joined lines. *)
Lemma once_eq self (args' : list text) kwargs (child : ChildRun) :
  _get_output_once self args' kwargs child
  = if spawns kwargs then
      let '(r, s, ev) :=
        execute_body self args' (default VNone (kwargs !! "stdin"))
          (VBool false) (allowed_retval (conf self))
          (default (close_fds (conf self)) (kwargs !! "close_fds"))
          (VCallable (list_append Stdout)) (VCallable (list_append Stderr))
          child in
      match r with
      | Returns _ =>
          let out' := Py.join [Py.NL] (lines Stdout ev) in
          let err' := Py.join [Py.NL] (lines Stderr ev) in
          let s := with_results s (pipe s) (ret s) (Some out') (Some err') in
          if truthy (effective_check self kwargs) then
            match check_return_value s (effective_allowed_retval self kwargs)
            with
            | Returns _ => (Returns (out', err'), s, ev)
            | Raises e => (Raises e, s, ev)
            | Hangs => (Hangs, s, ev)
            end
          else (Returns (out', err'), s, ev)
      | Raises e => (Raises e, s, ev)
      | Hangs => (Hangs, s, ev)
      end
    else (Raises TypeError, self, []).
Proof.
  unfold _get_output_once, pop, spawns.
  rewrite !has_key_after_pops by done.
  assert (Hck : has_key "check"
                  (delete "allowed_retval" (delete "check" kwargs)) = false).
  { unfold has_key. rewrite lookup_delete_ne by done.
    rewrite lookup_delete_eq. reflexivity. }
  rewrite Hck, orb_false_r.
  destruct (has_key "out_handler" kwargs || has_key "err_handler" kwargs);
    [reflexivity|].
  cbn [negb andb]. fold (forwarded kwargs). rewrite execute_eq.
  destruct (Nat.eqb (size (leftover (forwarded kwargs))) 0); cbn [negb];
    [|reflexivity].
  rewrite forwarded_stdin, forwarded_close_fds, forwarded_check.
  assert (Hal : forwarded kwargs !! "allowed_retval" = None).
  { unfold forwarded. rewrite !lookup_insert_ne by done.
    apply lookup_delete_eq. }
  assert (Hoh : forwarded kwargs !! "out_handler"
                = Some (VCallable (list_append Stdout))).
  { unfold forwarded. apply lookup_insert_eq. }
  assert (Heh : forwarded kwargs !! "err_handler"
                = Some (VCallable (list_append Stderr))).
  { unfold forwarded. rewrite lookup_insert_ne by done.
    apply lookup_insert_eq. }
  rewrite Hal, Hoh, Heh. cbn [default]. unfold effective_check, effective_allowed_retval.
  rewrite lookup_delete_ne by done. reflexivity.
Qed.

End Attempt.

Section Capture.

(** When the draining returns, every reader has delivered the lines of
    everything its pipe carried. *)
Lemma drained_lines (child : ChildRun) (st : Readers) :
  real_chunks (stdout_chunks child) ->
  real_chunks (stderr_chunks child) ->
  pipe_processor_loop (waits child) (start_readers child) = (Returns tt, st) ->
  lines Stdout (trace st) = Py.split Py.NL (stdout_text child)
  /\ lines Stderr (trace st) = Py.split Py.NL (stderr_text child)
  /\ closed (_file (out_reader st)) = true
  /\ closed (_file (err_reader st)) = true.
Proof.
  intros Ho He Hrun.
  destruct (start_readers_inv child Ho He) as [Hnd Hinv].
  destruct (loop_invariant _ _ _ Hnd Hinv _ _ Hrun) as (_ & Hinv' & Hret & _).
  assert (Hp : processors st = []) by (apply Hret; reflexivity).
  pose proof (Hinv' Stdout) as (_ & _ & Hc1 & Hl1).
  pose proof (Hinv' Stderr) as (_ & _ & Hc2 & Hl2).
  unfold listed in *. rewrite Hp in *. simpl in *.
  rewrite app_nil_r in Hl1, Hl2. auto.
Qed.

Lemma drained_text (child : ChildRun) (st : Readers) :
  real_chunks (stdout_chunks child) ->
  real_chunks (stderr_chunks child) ->
  pipe_processor_loop (waits child) (start_readers child) = (Returns tt, st) ->
  Py.join [Py.NL] (lines Stdout (trace st)) = stdout_text child
  /\ Py.join [Py.NL] (lines Stderr (trace st)) = stderr_text child.
Proof.
  intros Ho He Hrun.
  destruct (drained_lines child st Ho He Hrun) as (-> & -> & _).
  split; apply join_split.
Qed.

End Capture.

Section Once.

Implicit Types (self : Command) (kwargs : gmap string Value).

Lemma only_keys_spawns kwargs :
  only_keys get_output_keys kwargs -> spawns kwargs = true.
Proof.
  intros H. unfold spawns.
  rewrite (leftover_recognized _ (forwarded_only_keys _ H)), andb_true_r.
  unfold has_key.
  destruct (kwargs !! "out_handler") eqn:E1.
  { assert (Hin : In "out_handler"%string get_output_keys)
      by (apply H; rewrite E1; eauto).
    simpl in Hin. repeat (destruct Hin as [Hin|Hin]; [discriminate|]).
    contradiction. }
  destruct (kwargs !! "err_handler") eqn:E2.
  { assert (Hin : In "err_handler"%string get_output_keys)
      by (apply H; rewrite E2; eauto).
    simpl in Hin. repeat (destruct Hin as [Hin|Hin]; [discriminate|]).
    contradiction. }
  reflexivity.
Qed.

Lemma unknown_key_no_spawn kwargs (k : string) :
  is_Some (kwargs !! k) -> ~ In k execute_keys -> spawns kwargs = false.
Proof.
  intros Hk Hn. unfold spawns.
  rewrite (leftover_unknown (forwarded kwargs) k).
  - apply andb_false_r.
  - rewrite forwarded_lookup by exact Hn. exact Hk.
  - exact Hn.
Qed.

Lemma once_refused self (args' : list text) kwargs (child : ChildRun) :
  spawns kwargs = false ->
  _get_output_once self args' kwargs child = (Raises TypeError, self, []).
Proof. intros H. rewrite once_eq, H. reflexivity. Qed.

(** An attempt only looks at the configuration of the object. *)
Lemma once_conf self self' (args' : list text) kwargs (child : ChildRun) :
  conf self = conf self' ->
  spawns kwargs = true ->
  _get_output_once self args' kwargs child
  = _get_output_once self' args' kwargs child.
Proof.
  intros Hc Hs. rewrite !once_eq, Hs.
  unfold effective_check, effective_allowed_retval.
  rewrite (execute_body_conf self self') by exact Hc.
  rewrite Hc. reflexivity.
Qed.

(** An attempt whose child does not take the input. *)
Lemma once_unfed self (args' : list text) kwargs (child : ChildRun) :
  spawns kwargs = true ->
  takes_input (default VNone (kwargs !! "stdin")) child = false ->
  _get_output_once self args' kwargs child
  = (match fst (feed (default VNone (kwargs !! "stdin")) child) with
     | Raises e => Raises e
     | _ => Hangs
     end,
     during_attempt self args' kwargs,
     [EvPopen (_build_pipe self args'
                 (default (close_fds (conf self)) (kwargs !! "close_fds")))]
       ++ snd (feed (default VNone (kwargs !! "stdin")) child)).
Proof.
  intros Hs Hin. rewrite once_eq, Hs.
  rewrite (execute_body_unfed _ _ _ _ _ _ _ _ Hin).
  destruct (fst (feed (default VNone (kwargs !! "stdin")) child))
    as [[]| e |]; reflexivity.
Qed.

(** An attempt whose child takes the input and drains. *)
Lemma once_drained self (args' : list text) kwargs (child : ChildRun)
  (st : Readers) :
  spawns kwargs = true ->
  takes_input (default VNone (kwargs !! "stdin")) child = true ->
  pipe_processor_loop (waits child) (start_readers child) = (Returns tt, st) ->
  _get_output_once self args' kwargs child
  = let out' := Py.join [Py.NL] (lines Stdout (trace st)) in
    let err' := Py.join [Py.NL] (lines Stderr (trace st)) in
    let s := after_attempt self child (Some out') (Some err') in
    let ev := (spawn_events self args' kwargs ++ trace st) ++ [EvWait] in
    if truthy (effective_check self kwargs) then
      match check_return_value s (effective_allowed_retval self kwargs) with
      | Returns _ => (Returns (out', err'), s, ev)
      | Raises e => (Raises e, s, ev)
      | Hangs => (Hangs, s, ev)
      end
    else (Returns (out', err'), s, ev).
Proof.
  intros Hs Hin Hrun. rewrite once_eq, Hs.
  rewrite (execute_body_drained self args' kwargs _ _
             (VCallable (list_append Stdout)) (VCallable (list_append Stderr))
             child st Hin eq_refl eq_refl Hrun).
  cbn [truthy]. cbv zeta. rewrite !lines_attempt. reflexivity.
Qed.

(** An attempt whose child takes the input and does not drain. *)
Lemma once_undrained self (args' : list text) kwargs (child : ChildRun)
  (r : Outcome unit) (st : Readers) :
  spawns kwargs = true ->
  takes_input (default VNone (kwargs !! "stdin")) child = true ->
  pipe_processor_loop (waits child) (start_readers child) = (r, st) ->
  r <> Returns tt ->
  _get_output_once self args' kwargs child
  = (match r with
     | Raises e => Raises e
     | _ => Hangs
     end,
     during_attempt self args' kwargs,
     spawn_events self args' kwargs ++ trace st).
Proof.
  intros Hs Hin Hrun Hr. rewrite once_eq, Hs.
  rewrite (execute_body_cut self args' kwargs _ _
             (VCallable (list_append Stdout)) (VCallable (list_append Stderr))
             child r st Hin eq_refl eq_refl Hrun Hr).
  destruct r as [[]| e |]; [contradiction|reflexivity|reflexivity].
Qed.

(** The loop raises nothing but the error of a failed wait. *)
Lemma loop_raises_select (ws : list WaitResult) :
  forall (st : Readers) (e : Exc) (st' : Readers),
    pipe_processor_loop ws st = (Raises e, st') ->
    exists errno, e = select_error errno.
Proof.
  induction ws as [|w ws IH]; intros st e st' H;
    destruct (nil_or_not (processors st)) as [Hp|Hp];
    try (rewrite (loop_done _ _ Hp) in H; discriminate).
  - rewrite (loop_hangs _ Hp) in H. discriminate.
  - destruct w as [a|n].
    + rewrite (loop_ready _ _ _ Hp) in H. eapply IH, H.
    + rewrite (loop_fails _ _ _ Hp) in H.
      destruct (n =? EINTR); [eapply IH, H|].
      inversion H. eauto.
Qed.

(** An attempt whose child does not drain raises no policy failure. *)
Lemma once_cut self (args' : list text) kwargs (child : ChildRun)
  (r : Outcome unit) (st : Readers) :
  spawns kwargs = true ->
  pipe_processor_loop (waits child) (start_readers child) = (r, st) ->
  r <> Returns tt ->
  forall d, fst (fst (_get_output_once self args' kwargs child))
            <> Raises (CommandFailedException d).
Proof.
  intros Hs Hrun Hr d.
  destruct (takes_input (default VNone (kwargs !! "stdin")) child) eqn:Hin.
  - rewrite (once_undrained _ _ _ _ r st Hs Hin Hrun Hr).
    destruct r as [[]| e |]; [contradiction| |]; simpl; try discriminate.
    destruct (loop_raises_select _ _ _ _ Hrun) as [n ->]. discriminate.
  - rewrite (once_unfed _ _ _ _ Hs Hin). cbn [fst].
    destruct (feed_refused _ _ Hin) as (_ & He & _).
    destruct (fst (feed (default VNone (kwargs !! "stdin")) child))
      as [[]| e |]; try discriminate.
    destruct (He e eq_refl) as [-> | ->]; discriminate.
Qed.

Lemma py_in_raises (x : option Z) (v : Value) (e : Exc) :
  py_in x v = Raises e -> e = TypeError \/ e = ValueError.
Proof.
  destruct v, x; simpl; try discriminate;
    try (intros H; inversion H; auto; fail).
  destruct ((0 <=? z) && (z <? 256)); intros H; inversion H; auto.
Qed.

(** A policy failure comes out of an attempt that spawned the child, fed
    it, drained it, reaped it, and then found its exit code refused. *)
Lemma once_failed self (args' : list text) kwargs (child : ChildRun)
  (d : Detail) (s : Command) (ev : list Event) :
  _get_output_once self args' kwargs child
  = (Raises (CommandFailedException d), s, ev) ->
  exists st,
    pipe_processor_loop (waits child) (start_readers child) = (Returns tt, st)
    /\ spawns kwargs = true
    /\ truthy (effective_check self kwargs) = true
    /\ py_in (Some (returncode child)) (effective_allowed_retval self kwargs)
       = Returns false
    /\ s = after_attempt self child
             (Some (Py.join [Py.NL] (lines Stdout (trace st))))
             (Some (Py.join [Py.NL] (lines Stderr (trace st))))
    /\ d = {| detail_ret := ret s; detail_out := out s;
              detail_err := err s |}
    /\ ev = (spawn_events self args' kwargs ++ trace st) ++ [EvWait]
    /\ takes_input (default VNone (kwargs !! "stdin")) child = true.
Proof.
  intros H.
  destruct (spawns kwargs) eqn:Hs;
    [|rewrite (once_refused _ _ _ _ Hs) in H; discriminate].
  destruct (pipe_processor_loop (waits child) (start_readers child))
    as [r st] eqn:Hrun.
  assert (Hr : r = Returns tt).
  { destruct r as [[]| e |]; [reflexivity| |];
      exfalso; eapply (once_cut self args' kwargs child _ st Hs Hrun);
      try discriminate; rewrite H; reflexivity. }
  subst r. exists st.
  destruct (takes_input (default VNone (kwargs !! "stdin")) child) eqn:Hin.
  - rewrite (once_drained _ _ _ _ st Hs Hin Hrun) in H.
    cbv zeta in H.
    destruct (truthy (effective_check self kwargs)); [|discriminate].
    unfold check_return_value in H. cbn [ret after_attempt] in H.
    destruct (py_in (Some (returncode child))
                (effective_allowed_retval self kwargs)) as [[]| e |] eqn:Hpy;
      try discriminate.
    + inversion H; subst. repeat split; reflexivity.
    + apply py_in_raises in Hpy as [-> | ->]; discriminate.
  - exfalso. rewrite (once_unfed _ _ _ _ Hs Hin) in H.
    destruct (feed_refused _ _ Hin) as (_ & He & _).
    destruct (fst (feed (default VNone (kwargs !! "stdin")) child))
      as [[]| e |]; try discriminate.
    destruct (He e eq_refl) as [-> | ->]; discriminate.
Qed.

(** The exceptions of an attempt. *)
Lemma once_raises self (args' : list text) kwargs (child : ChildRun) (e : Exc) :
  fst (fst (_get_output_once self args' kwargs child)) = Raises e ->
  (exists d, e = CommandFailedException d)
  \/ e = TypeError \/ e = ValueError \/ e = BrokenPipeError
  \/ exists errno, e = select_error errno.
Proof.
  intros H.
  destruct (spawns kwargs) eqn:Hs;
    [|rewrite (once_refused _ _ _ _ Hs) in H; inversion H; auto].
  destruct (takes_input (default VNone (kwargs !! "stdin")) child) eqn:Hin.
  - destruct (pipe_processor_loop (waits child) (start_readers child))
      as [r st] eqn:Hrun.
    destruct r as [[]| e' |].
    + rewrite (once_drained _ _ _ _ st Hs Hin Hrun) in H. cbv zeta in H.
      destruct (truthy (effective_check self kwargs)); [|discriminate].
      unfold check_return_value in H.
      destruct (py_in _ _) as [[]| e1 |] eqn:Hpy; try discriminate.
      * inversion H. eauto.
      * inversion H; subst. apply py_in_raises in Hpy as [-> | ->]; auto.
    + rewrite (once_undrained _ _ _ _ _ st Hs Hin Hrun) in H by discriminate.
      inversion H; subst.
      destruct (loop_raises_select _ _ _ _ Hrun) as [n ->]. eauto 6.
    + rewrite (once_undrained _ _ _ _ _ st Hs Hin Hrun) in H by discriminate.
      discriminate.
  - rewrite (once_unfed _ _ _ _ Hs Hin) in H. cbn [fst] in H.
    destruct (feed_refused _ _ Hin) as (_ & He & _).
    destruct (fst (feed (default VNone (kwargs !! "stdin")) child))
      as [[]| e' |]; try discriminate.
    inversion H; subst. destruct (He e eq_refl) as [-> | ->]; auto.
Qed.

Lemma once_keeps_conf self (args' : list text) kwargs (child : ChildRun) :
  conf (snd (fst (_get_output_once self args' kwargs child))) = conf self.
Proof.
  destruct (spawns kwargs) eqn:Hs;
    [|rewrite (once_refused _ _ _ _ Hs); reflexivity].
  destruct (takes_input (default VNone (kwargs !! "stdin")) child) eqn:Hin;
    [|rewrite (once_unfed _ _ _ _ Hs Hin); reflexivity].
  destruct (pipe_processor_loop (waits child) (start_readers child))
    as [r st] eqn:Hrun.
  destruct r as [[]| e' |];
    [|rewrite (once_undrained _ _ _ _ _ st Hs Hin Hrun) by discriminate;
      reflexivity..].
  rewrite (once_drained _ _ _ _ st Hs Hin Hrun). cbv zeta.
  destruct (truthy (effective_check self kwargs)); [|reflexivity].
  destruct (check_return_value _ _); reflexivity.
Qed.

End Once.

(** ** The retry loop *)

Section Counting.

Lemma count_app (p : Event -> bool) (a b : list Event) :
  count p (a ++ b) = (count p a + count p b)%nat.
Proof. unfold count. rewrite List.filter_app, length_app. reflexivity. Qed.

Lemma count_none (p : Event -> bool) (l : list Event) :
  (forall e, In e l -> p e = false) -> count p l = 0%nat.
Proof.
  unfold count. induction l as [|e l IH]; intros H; simpl; [reflexivity|].
  rewrite (H e) by (left; reflexivity). apply IH.
  intros x Hx. apply H. right. exact Hx.
Qed.

Lemma count_flat_map {A} (p : Event -> bool) (f : A -> list Event)
  (k : nat) (l : list A) :
  (forall x, In x l -> count p (f x) = k) ->
  count p (flat_map f l) = (k * length l)%nat.
Proof.
  induction l as [|a l IH]; intros H; simpl;
    [rewrite Nat.mul_0_r; reflexivity|].
  rewrite count_app, (H a) by (left; reflexivity).
  rewrite IH by (intros x Hx; apply H; right; exact Hx). lia.
Qed.

(** The draining loop only adds events of its own to the trace. *)
Lemma process_stream_io (st : Readers) (s : Stream) :
  exists added,
    trace (process_stream st s) = trace st ++ added
    /\ forallb is_io added = true.
Proof.
  rewrite process_stream_trace. eexists. split; [reflexivity|].
  simpl. induction (snd (fst (process (reader s st)))); simpl; auto.
Qed.

Lemma fold_process_stream_io (rs : list Stream) :
  forall st : Readers,
  exists added,
    trace (fold_left process_stream rs st) = trace st ++ added
    /\ forallb is_io added = true.
Proof.
  induction rs as [|a rs IH]; intros st; simpl.
  - exists []. rewrite app_nil_r. auto.
  - destruct (IH (process_stream st a)) as (add2 & E2 & H2).
    destruct (process_stream_io st a) as (add1 & E1 & H1).
    exists (add1 ++ add2). rewrite E2, E1, <- app_assoc.
    split; [reflexivity|]. rewrite forallb_app, H1, H2. reflexivity.
Qed.

Lemma loop_io (ws : list WaitResult) :
  forall (st : Readers) (r : Outcome unit) (st' : Readers),
    pipe_processor_loop ws st = (r, st') ->
    exists added,
      trace st' = trace st ++ added /\ forallb is_io added = true.
Proof.
  induction ws as [|w ws IH]; intros st r st' H;
    destruct (nil_or_not (processors st)) as [Hp|Hp];
    try (rewrite (loop_done _ _ Hp) in H; inversion H; subst;
         exists []; rewrite app_nil_r; auto; fail).
  - rewrite (loop_hangs _ Hp) in H. inversion H; subst.
    eexists. split; [reflexivity|reflexivity].
  - destruct w as [a|n].
    + rewrite (loop_ready _ _ _ Hp) in H.
      destruct (IH _ _ _ H) as (add2 & E2 & H2).
      destruct (fold_process_stream_io (select (processors st) a)
                  (log [EvSelect (processors st)] st)) as (add1 & E1 & H1).
      exists ([EvSelect (processors st)] ++ add1 ++ add2).
      rewrite E2, E1. simpl. rewrite <- !app_assoc. split; [reflexivity|].
      rewrite forallb_app, H1, H2. reflexivity.
    + rewrite (loop_fails _ _ _ Hp) in H.
      destruct (n =? EINTR).
      * destruct (IH _ _ _ H) as (add2 & E2 & H2).
        exists ([EvSelect (processors st)] ++ add2).
        rewrite E2. simpl. rewrite <- !app_assoc. split; [reflexivity|].
        exact H2.
      * inversion H; subst. eexists. split; reflexivity.
Qed.

Lemma count_io (p : Event -> bool) (l : list Event) :
  (forall e, is_io e = true -> p e = false) ->
  forallb is_io l = true -> count p l = 0%nat.
Proof.
  intros Hp Hl. apply count_none. intros e He.
  apply Hp. rewrite forallb_forall in Hl. apply Hl, He.
Qed.

Lemma loop_trace_io (child : ChildRun) (r : Outcome unit) (st : Readers) :
  pipe_processor_loop (waits child) (start_readers child) = (r, st) ->
  forallb is_io (trace st) = true.
Proof.
  intros H. destruct (loop_io _ _ _ _ H) as (added & E & Hio).
  simpl in E. rewrite E. exact Hio.
Qed.

(** One attempt that runs to the reaping of its child: one spawn, no retry
    handler, no sleep. *)
Lemma count_attempt (self : Command) (args' : list text)
  (kwargs : gmap string Value) (child : ChildRun) (r : Outcome unit)
  (st : Readers) :
  pipe_processor_loop (waits child) (start_readers child) = (r, st) ->
  let ev := (spawn_events self args' kwargs ++ trace st) ++ [EvWait] in
  count is_popen ev = 1%nat /\ count is_retry ev = 0%nat
  /\ count is_sleep ev = 0%nat.
Proof.
  intros Hrun ev. subst ev.
  destruct (loop_io _ _ _ _ Hrun) as (added & E & Hio).
  simpl in E. rewrite E, !count_app.
  rewrite !(count_io _ added) by (exact Hio || (intros []; simpl; congruence)).
  unfold spawn_events.
  destruct (truthy (default VNone (kwargs !! "stdin"))); auto.
Qed.

(** The trace of an attempt: nothing when the call is refused, else the
    spawn followed by the feeding of the input, the draining and the wait
    for the exit. *)
Lemma once_trace (self : Command) (args' : list text)
  (kwargs : gmap string Value) (child : ChildRun) :
  exists rest,
    forallb after_spawn rest = true
    /\ snd (_get_output_once self args' kwargs child)
       = if spawns kwargs
         then EvPopen (_build_pipe self args'
                         (default (close_fds (conf self))
                            (kwargs !! "close_fds"))) :: rest
         else [].
Proof.
  destruct (spawns kwargs) eqn:Hs;
    [|exists []; rewrite (once_refused _ _ _ _ Hs); auto].
  assert (Hio : forall l, forallb is_io l = true ->
                          forallb after_spawn l = true).
  { intros l. rewrite !forallb_forall. intros H e He.
    specialize (H e He). destruct e; try discriminate; reflexivity. }
  set (fed := (if truthy (default VNone (kwargs !! "stdin"))
               then [EvStdinWrite (default VNone (kwargs !! "stdin"))]
               else []) ++ [EvStdinClose]).
  assert (Hfed : forallb after_spawn fed = true)
    by (subst fed; destruct (truthy _); reflexivity).
  destruct (takes_input (default VNone (kwargs !! "stdin")) child) eqn:Hin.
  - destruct (pipe_processor_loop (waits child) (start_readers child))
      as [r st] eqn:Hrun.
    pose proof (Hio _ (loop_trace_io _ _ _ Hrun)) as Ht.
    destruct r as [[]| e |].
    + rewrite (once_drained _ _ _ _ st Hs Hin Hrun). cbv zeta.
      exists (fed ++ trace st ++ [EvWait]). split.
      * rewrite !forallb_app, Hfed, Ht. reflexivity.
      * unfold spawn_events. fold fed.
        destruct (truthy (effective_check self kwargs));
          [destruct (check_return_value _ _)|]; cbn [snd];
          rewrite <- !app_assoc; reflexivity.
    + rewrite (once_undrained _ _ _ _ _ st Hs Hin Hrun) by discriminate.
      exists (fed ++ trace st). split.
      * rewrite !forallb_app, Hfed, Ht. reflexivity.
      * unfold spawn_events. fold fed. cbn [snd]. rewrite <- !app_assoc.
        reflexivity.
    + rewrite (once_undrained _ _ _ _ _ st Hs Hin Hrun) by discriminate.
      exists (fed ++ trace st). split.
      * rewrite !forallb_app, Hfed, Ht. reflexivity.
      * unfold spawn_events. fold fed. cbn [snd]. rewrite <- !app_assoc.
        reflexivity.
  - rewrite (once_unfed _ _ _ _ Hs Hin). cbn [snd].
    eexists. split; [|reflexivity].
    destruct (feed_refused _ _ Hin) as (_ & _ & Hev).
    apply forallb_forall. intros e He.
    rewrite List.Forall_forall in Hev.
    destruct (Hev e He) as [-> | ->]; reflexivity.
Qed.

End Counting.

Section Retry.

Variables (self : Command) (args' : list text) (kwargs : gmap string Value)
  (children : Z -> ChildRun).

Hypothesis Hspawns : spawns kwargs = true.

Lemma before_retry_ok (s : Command) (attempt : Z) (exc : Exc) :
  retry_step_ok (conf s) = true ->
  before_retry s args' kwargs attempt exc
  = (Returns tt, retry_events s args' kwargs attempt exc).
Proof.
  unfold retry_step_ok, before_retry, retry_events, call_retry_handler,
    time_sleep.
  intros H. apply andb_true_iff in H as [H H3].
  apply andb_true_iff in H as [H1 H2].
  apply Z.leb_le in H2, H3.
  assert (E1 : (retry_sleep (conf s) <? - SLEEP_MAX) = false)
    by (apply Z.ltb_ge; unfold SLEEP_MAX; lia).
  assert (E2 : (SLEEP_MAX <? retry_sleep (conf s)) = false)
    by (apply Z.ltb_ge; lia).
  assert (E3 : (retry_sleep (conf s) <? 0) = false) by (apply Z.ltb_ge; lia).
  destruct (truthy (retry_handler (conf s))) eqn:Ht; cbn [negb orb] in H1.
  - destruct (retry_handler (conf s)) as [| | | | |[| |id []]];
      try discriminate.
    cbn [after_call]. rewrite E1, E2, E3. reflexivity.
  - rewrite E1, E2, E3. reflexivity.
Qed.

(** What can be raised between two attempts is no failure of this
    module. *)
Lemma before_retry_raises (s : Command) (attempt : Z) (exc e : Exc) :
  fst (before_retry s args' kwargs attempt exc) = Raises e ->
  e = TypeError \/ e = ValueError \/ e = OverflowError
  \/ exists id, e = OtherException id.
Proof.
  unfold before_retry, call_retry_handler, time_sleep.
  assert (Hsleep :
            forall called,
              fst (let '(r', slept) :=
                     if (retry_sleep (conf s) <? - SLEEP_MAX)
                        || (SLEEP_MAX <? retry_sleep (conf s))
                     then (Raises OverflowError, [])
                     else if retry_sleep (conf s) <? 0
                          then (Raises ValueError, [])
                          else (Returns tt, [EvSleep (retry_sleep (conf s))])
                   in (r', called ++ slept)) = Raises e ->
              e = TypeError \/ e = ValueError \/ e = OverflowError
              \/ exists id, e = OtherException id).
  { intros called.
    destruct ((retry_sleep (conf s) <? - SLEEP_MAX)
              || (SLEEP_MAX <? retry_sleep (conf s)));
      [|destruct (retry_sleep (conf s) <? 0)];
      cbn [fst]; intros E; inversion E; auto. }
  destruct (truthy (retry_handler (conf s))); [|apply Hsleep].
  destruct (retry_handler (conf s)) as [| | | | |[| |id []]];
    cbn [after_call fst];
    try (intros E; inversion E; eauto; fail); apply Hsleep.
Qed.

Lemma get_output_from_step (fuel : nat) (attempt : Z) (self0 : Command)
  (tr : list Event) :
  conf self0 = conf self ->
  get_output_from (S fuel) attempt self0 args' kwargs children tr
  = let '(r, s, ev) :=
      _get_output_once self args' kwargs (children attempt) in
    match r with
    | Raises (CommandFailedException d) =>
        if attempt <? retry_times (conf self) then
          let '(r', ev') :=
            before_retry s args' kwargs attempt (CommandFailedException d) in
          match r' with
          | Returns _ =>
              get_output_from fuel (attempt + 1) s args' kwargs children
                ((tr ++ ev) ++ ev')
          | Raises e => (Raises e, s, (tr ++ ev) ++ ev')
          | Hangs => (Hangs, s, (tr ++ ev) ++ ev')
          end
        else if attempt =? 0 then
          (Raises (CommandFailedException d), s, tr ++ ev)
        else (Raises (CommandMaxRetryExceeded d), s, tr ++ ev)
    | _ => (r, s, tr ++ ev)
    end.
Proof.
  intros Hc. cbn [get_output_from].
  rewrite (once_conf self0 self _ _ _ Hc Hspawns).
  pose proof (once_keeps_conf self args' kwargs (children attempt)) as Hk.
  destruct (_get_output_once self args' kwargs (children attempt))
    as [[r s] ev].
  cbn [fst snd] in Hk. rewrite Hk. reflexivity.
Qed.

(** The step when nothing fails between the attempts. *)
Lemma get_output_from_step_ok (fuel : nat) (attempt : Z) (self0 : Command)
  (tr : list Event) :
  conf self0 = conf self ->
  retry_step_ok (conf self) = true ->
  get_output_from (S fuel) attempt self0 args' kwargs children tr
  = let '(r, s, ev) :=
      _get_output_once self args' kwargs (children attempt) in
    match r with
    | Raises (CommandFailedException d) =>
        if attempt <? retry_times (conf self) then
          get_output_from fuel (attempt + 1) s args' kwargs children
            ((tr ++ ev)
               ++ retry_events s args' kwargs attempt
                    (CommandFailedException d))
        else if attempt =? 0 then
          (Raises (CommandFailedException d), s, tr ++ ev)
        else (Raises (CommandMaxRetryExceeded d), s, tr ++ ev)
    | _ => (r, s, tr ++ ev)
    end.
Proof.
  intros Hc Hok. rewrite (get_output_from_step _ _ _ _ Hc).
  pose proof (once_keeps_conf self args' kwargs (children attempt)) as Hk.
  destruct (_get_output_once self args' kwargs (children attempt))
    as [[r s] ev].
  cbn [fst snd] in Hk.
  destruct r as [x|[]|]; try reflexivity.
  destruct (attempt <? retry_times (conf self)); [|reflexivity].
  rewrite before_retry_ok by (rewrite Hk; exact Hok). reflexivity.
Qed.

(** Whatever [get_output] raises as a policy failure or as exhausted
    retries is the failure of one attempt, the last one, and the object is
    as that attempt left it. *)
Lemma get_output_from_raises (fuel : nat) :
  forall (attempt : Z) (self0 : Command) (tr : list Event) (e : Exc)
         (s : Command) (tr' : list Event),
    conf self0 = conf self ->
    get_output_from fuel attempt self0 args' kwargs children tr
    = (Raises e, s, tr') ->
    forall d,
      e = CommandFailedException d \/ e = CommandMaxRetryExceeded d ->
      exists k ev,
        k = Z.max attempt (retry_times (conf self))
        /\ _get_output_once self args' kwargs (children k)
           = (Raises (CommandFailedException d), s, ev)
        /\ (exists pre, tr' = pre ++ ev)
        /\ (e = CommandFailedException d -> k = 0)
        /\ (e = CommandMaxRetryExceeded d -> k <> 0).
Proof.
  induction fuel as [|fuel IH]; intros attempt self0 tr e s tr' Hc Hrun d He.
  - simpl in Hrun. discriminate.
  - rewrite (get_output_from_step _ _ _ _ Hc) in Hrun.
    destruct (_get_output_once self args' kwargs (children attempt))
      as [[r s1] ev] eqn:Honce.
    pose proof (once_keeps_conf self args' kwargs (children attempt)) as Hk.
    rewrite Honce in Hk. cbn [fst snd] in Hk.
    pose proof (once_raises self args' kwargs (children attempt)) as Hex.
    rewrite Honce in Hex. cbn [fst] in Hex.
    destruct r as [x|e1|]; [discriminate| |discriminate].
    destruct (Hex e1 eq_refl)
      as [[d1 ->]|[->|[->|[->|[n ->]]]]];
      try (inversion Hrun; subst; destruct He; discriminate).
    destruct (attempt <? retry_times (conf self)) eqn:Hlt.
    + pose proof (before_retry_raises s1 attempt
                    (CommandFailedException d1)) as Hb.
      destruct (before_retry s1 args' kwargs attempt
                  (CommandFailedException d1)) as [[[]| e2 |] ev2];
        cbn [fst] in Hb.
      * destruct (IH _ _ _ _ _ _ Hk Hrun d He)
          as (k & ev' & Hle & Ho & Hpre & H1 & H2).
        apply Z.ltb_lt in Hlt.
        exists k, ev'. repeat split; auto; lia.
      * exfalso. inversion Hrun; subst.
        destruct (Hb e eq_refl) as [->|[->|[->|[id ->]]]];
          destruct He; discriminate.
      * discriminate.
    + apply Z.ltb_ge in Hlt.
      destruct (attempt =? 0) eqn:H0; inversion Hrun; subst.
      * apply Z.eqb_eq in H0. subst attempt.
        destruct He as [He|He]; inversion He; subst.
        exists 0, ev. repeat split; auto; try lia; try discriminate.
        eexists; reflexivity.
      * apply Z.eqb_neq in H0.
        destruct He as [He|He]; inversion He; subst.
        exists attempt, ev. repeat split; auto; try lia;
          try discriminate.
        eexists; reflexivity.
Qed.

(** Every attempt from [attempt] to the last allowed one fails: the loop
    goes through all of them. *)
Lemma get_output_from_all_fail (d : Z -> Detail) (s : Z -> Command)
  (ev : Z -> list Event) (n : nat) :
  forall (attempt : Z) (self0 : Command) (tr : list Event) (fuel : nat),
    conf self0 = conf self ->
    retry_step_ok (conf self) = true ->
    0 <= attempt ->
    attempt + Z.of_nat n = retry_times (conf self) ->
    (n < fuel)%nat ->
    (forall i, attempt <= i <= retry_times (conf self) ->
       _get_output_once self args' kwargs (children i)
       = (Raises (CommandFailedException (d i)), s i, ev i)) ->
    get_output_from fuel attempt self0 args' kwargs children tr
    = (Raises (if retry_times (conf self) =? 0
               then CommandFailedException (d (retry_times (conf self)))
               else CommandMaxRetryExceeded (d (retry_times (conf self)))),
       s (retry_times (conf self)),
       tr ++ flat_map
               (fun i => ev i ++ retry_events (s i) args' kwargs i
                                   (CommandFailedException (d i)))
               (seqZ attempt (Z.of_nat n))
          ++ ev (retry_times (conf self))).
Proof.
  induction n as [|n IH]; intros attempt self0 tr fuel Hc Hok H0 HR Hf Hall;
    (destruct fuel as [|fuel]; [lia|]);
    rewrite (get_output_from_step_ok _ _ _ _ Hc Hok);
    rewrite (Hall attempt) by lia.
  - assert (attempt = retry_times (conf self)) by lia. subst attempt.
    rewrite Z.ltb_irrefl. simpl.
    destruct (retry_times (conf self) =? 0); reflexivity.
  - assert (Hlt : (attempt <? retry_times (conf self)) = true)
      by (apply Z.ltb_lt; lia).
    rewrite Hlt.
    pose proof (once_keeps_conf self args' kwargs (children attempt)) as Hk.
    rewrite (Hall attempt) in Hk by lia. cbn [fst snd] in Hk.
    rewrite (IH (attempt + 1) (s attempt))
      by (auto; try lia; intros; apply Hall; lia).
    rewrite (seqZ_cons attempt (Z.of_nat (S n))) by lia.
    replace (Z.pred (Z.of_nat (S n))) with (Z.of_nat n) by lia.
    replace (Z.succ attempt) with (attempt + 1) by lia.
    simpl flat_map. rewrite <- !app_assoc. reflexivity.
Qed.

End Retry.

(** ** The claims about the command engine *)

Section Claims.

Implicit Types (self : Command) (kwargs : gmap string Value).

Lemma raises_spawns self (args' : list text) kwargs (child : ChildRun)
  (d : Detail) :
  fst (fst (_get_output_once self args' kwargs child))
  = Raises (CommandFailedException d) ->
  spawns kwargs = true.
Proof.
  intros H. destruct (spawns kwargs) eqn:Hs; [reflexivity|].
  rewrite (once_refused _ _ _ _ Hs) in H. discriminate.
Qed.

(** An attempt that fails the exit-code check, seen from the call. *)
Lemma once_fails self (args' : list text) kwargs (child : ChildRun) :
  spawns kwargs = true ->
  takes_input (default VNone (kwargs !! "stdin")) child = true ->
  truthy (effective_check self kwargs) = true ->
  drains child ->
  py_in (Some (returncode child)) (effective_allowed_retval self kwargs)
  = Returns false ->
  exists d s ev,
    _get_output_once self args' kwargs child
    = (Raises (CommandFailedException d), s, ev).
Proof.
  intros Hs Hin Hc Hd Hpy. unfold drains in Hd.
  destruct (pipe_processor_loop (waits child) (start_readers child))
    as [r st] eqn:Hrun.
  cbn [fst] in Hd. subst r.
  rewrite (once_drained _ _ _ _ st Hs Hin Hrun). cbv zeta.
  rewrite Hc. unfold check_return_value. cbn [ret after_attempt].
  rewrite Hpy. eauto.
Qed.

(** The failure that [get_output] raises is the failure of its last
    attempt. *)
Lemma get_output_raises self (args' : list text) kwargs
  (children : Z -> ChildRun) (e : Exc) (s : Command) (tr : list Event)
  (d : Detail) :
  get_output self args' kwargs children = (Raises e, s, tr) ->
  e = CommandFailedException d \/ e = CommandMaxRetryExceeded d ->
  exists ev,
    _get_output_once self args' kwargs
      (children (Z.max 0 (retry_times (conf self))))
    = (Raises (CommandFailedException d), s, ev)
    /\ (exists pre, tr = pre ++ ev)
    /\ (e = CommandFailedException d -> retry_times (conf self) <= 0)
    /\ (e = CommandMaxRetryExceeded d -> 1 <= retry_times (conf self)).
Proof.
  intros Hrun He. unfold get_output in Hrun.
  destruct (spawns kwargs) eqn:Hs.
  - destruct (get_output_from_raises self args' kwargs children Hs _ _ _ _ _
                _ _ eq_refl Hrun d He) as (k & ev & Hk & Ho & Hpre & H1 & H2).
    subst k. exists ev.
    repeat split; auto; intros H; [apply H1 in H|apply H2 in H]; lia.
  - simpl in Hrun. rewrite (once_refused _ _ _ _ Hs) in Hrun.
    inversion Hrun; subst. destruct He; discriminate.
Qed.

(** The failure that [get_output] raises, and the object afterwards, are
    those of the last attempt. *)
Lemma last_attempt_results (self : Command)
  (args' : list text) (kwargs : gmap string Value)
  (children : Z -> ChildRun) (e : Exc) (s : Command) (tr : list Event)
  (d : Detail) :
  get_output self args' kwargs children = (Raises e, s, tr) ->
  e = CommandFailedException d \/ e = CommandMaxRetryExceeded d ->
  let last := children (Z.max 0 (retry_times (conf self))) in
  exists ev,
    _get_output_once self args' kwargs last
    = (Raises (CommandFailedException d), s, ev)
    /\ (exists pre, tr = pre ++ ev)
    /\ ret s = Some (returncode last)
    /\ out s = Some (Py.join [Py.NL] (lines Stdout ev))
    /\ err s = Some (Py.join [Py.NL] (lines Stderr ev))
    /\ pipe s = None
    /\ (real_chunks (stdout_chunks last) ->
        real_chunks (stderr_chunks last) ->
        out s = Some (stdout_text last) /\ err s = Some (stderr_text last)).
Proof.
  intros Hrun He last.
  destruct (get_output_raises _ _ _ _ _ _ _ _ Hrun He)
    as (ev & Ho & Hpre & _ & _).
  fold last in Ho. exists ev. split; [exact Ho|]. split; [exact Hpre|].
  destruct (once_failed _ _ _ _ _ _ _ Ho)
    as (st & Hloop & _ & _ & _ & Es & _ & Eev & _).
  subst s ev. rewrite !lines_attempt. cbn [ret out err pipe after_attempt].
  do 4 (split; [reflexivity|]).
  intros Hro Hre. destruct (drained_text _ _ Hro Hre Hloop) as [-> ->].
  split; reflexivity.
Qed.

Lemma feed_raises (stdin : Value) (child : ChildRun) (e : Exc) :
  fst (feed stdin child) = Raises e -> e = TypeError \/ e = BrokenPipeError.
Proof.
  intros H. destruct (takes_input stdin child) eqn:Hin.
  - rewrite (feed_taken _ _ Hin) in H. discriminate.
  - destruct (feed_refused _ _ Hin) as (_ & He & _). apply He, H.
Qed.

(** The policy failure that [execute] raises carries the exit code and no
    text: no other step of it raises an exception of that class. *)
Lemma execute_body_failed self (args' : list text)
  (stdin check' allowed' close_fds' oh eh : Value) (child : ChildRun)
  (d : Detail) (s : Command) (tr : list Event) :
  execute_body self args' stdin check' allowed' close_fds' oh eh child
  = (Raises (CommandFailedException d), s, tr) ->
  d = {| detail_ret := Some (returncode child); detail_out := None;
         detail_err := None |}.
Proof.
  unfold execute_body.
  pose proof (feed_raises stdin child) as Hf.
  destruct (feed stdin child) as [[[]| e |] fed]; cbn [fst] in Hf.
  - destruct (pipe_processor_loop (waits child) (start_readers child))
      as [r st] eqn:Hloop.
    pose proof (run_handlers_io oh eh (trace st) (loop_trace_io _ _ _ Hloop))
      as [_ Hh].
    destruct (run_handlers oh eh (trace st)) as [[[]| e |] io];
      cbn [fst] in Hh.
    + destruct r as [[]| e |].
      * destruct (truthy check'); [|discriminate].
        unfold check_return_value. cbn [ret out err with_results].
        destruct (py_in _ _) as [[]| e |] eqn:Hpy; try discriminate.
        -- intros H. inversion H. reflexivity.
        -- apply py_in_raises in Hpy as [-> | ->]; discriminate.
      * destruct (loop_raises_select _ _ _ _ Hloop) as [n ->]. discriminate.
      * discriminate.
    + intros H. inversion H; subst.
      destruct (Hh _ eq_refl) as [E|[id E]]; discriminate.
    + discriminate.
  - intros H. inversion H; subst. destruct (Hf _ eq_refl); discriminate.
  - discriminate.
Qed.

End Claims.

(** C2.  With a retry count [R >= 1], a retry handler that is a callable
    whose calls return, a delay that [time.sleep] accepts, and every
    attempt raising a policy failure, [get_output] makes [R + 1] attempts
    (each one spawns one child), calls the retry handler [R] times, after
    the attempts [0] to [R - 1], with the object, the arguments of the call,
    the number of the attempt and the exception of that attempt, sleeps
    [retry_sleep] after each of these calls and before the next attempt, and
    raises [CommandMaxRetryExceeded] with the detail of the last failure. *)
Theorem get_output_retries_exhausted (self : Command) (args' : list text)
  (kwargs : gmap string Value) (children : Z -> ChildRun) (R : Z) :
  retry_times (conf self) = R ->
  1 <= R ->
  retry_returns (retry_handler (conf self)) = true ->
  0 <= retry_sleep (conf self) <= SLEEP_MAX ->
  (forall i, 0 <= i <= R ->
     exists d,
       fst (fst (_get_output_once self args' kwargs (children i)))
       = Raises (CommandFailedException d)) ->
  exists (d : Z -> Detail) (s : Z -> Command) (ev : Z -> list Event)
         (tr : list Event),
    (forall i, 0 <= i <= R ->
       _get_output_once self args' kwargs (children i)
       = (Raises (CommandFailedException (d i)), s i, ev i)
       /\ count is_popen (ev i) = 1%nat
       /\ count is_retry (ev i) = 0%nat
       /\ count is_sleep (ev i) = 0%nat)
    /\ get_output self args' kwargs children
       = (Raises (CommandMaxRetryExceeded (d R)), s R, tr)
    /\ tr = flat_map
              (fun i =>
                 ev i ++ [EvRetry (s i) args' kwargs i
                            (CommandFailedException (d i));
                          EvSleep (retry_sleep (conf self))])
              (seqZ 0 R)
            ++ ev R
    /\ count is_popen tr = Z.to_nat (R + 1)
    /\ count is_retry tr = Z.to_nat R
    /\ count is_sleep tr = Z.to_nat R.
Proof.
  intros HR HR1 Hgood Hsleep Hfail.
  assert (Hh : truthy (retry_handler (conf self)) = true).
  { destruct (retry_handler (conf self)); try discriminate; reflexivity. }
  assert (Hok : retry_step_ok (conf self) = true).
  { unfold retry_step_ok. rewrite Hgood, orb_true_r. cbn [andb].
    apply andb_true_iff. split; apply Z.leb_le; lia. }
  assert (Hs : spawns kwargs = true).
  { destruct (Hfail 0) as [d0 H0]; [lia|]. eapply raises_spawns, H0. }
  set (A := fun i => _get_output_once self args' kwargs (children i)).
  set (d := fun i =>
              match fst (fst (A i)) with
              | Raises (CommandFailedException x) => x
              | _ => {| detail_ret := None; detail_out := None;
                        detail_err := None |}
              end).
  set (s := fun i => snd (fst (A i))).
  set (ev := fun i => snd (A i)).
  assert (HA : forall i, 0 <= i <= R ->
             A i = (Raises (CommandFailedException (d i)), s i, ev i)).
  { intros i Hi. destruct (Hfail i Hi) as [x Hx]. unfold d, s, ev.
    fold (A i) in Hx. destruct (A i) as [[r s'] e']. simpl in *.
    subst r. reflexivity. }
  assert (Hcnt : forall i, 0 <= i <= R ->
             count is_popen (ev i) = 1%nat /\ count is_retry (ev i) = 0%nat
             /\ count is_sleep (ev i) = 0%nat).
  { intros i Hi. destruct (once_failed _ _ _ _ _ _ _ (HA i Hi))
      as (st & Hrun & _ & _ & _ & _ & _ & -> & _).
    apply (count_attempt self args' kwargs (children i) _ st Hrun). }
  assert (Hconf : forall i, 0 <= i <= R -> conf (s i) = conf self).
  { intros i Hi.
    pose proof (once_keeps_conf self args' kwargs (children i)) as Hk.
    fold (A i) in Hk. rewrite (HA i Hi) in Hk. exact Hk. }
  exists d, s, ev. eexists. split; [|split; [|split; [reflexivity|]]].
  - intros i Hi. split; [apply HA, Hi|apply Hcnt, Hi].
  - unfold get_output. rewrite HR.
    rewrite (get_output_from_all_fail self args' kwargs children Hs d s ev
               (Z.to_nat R) 0 self [] (S (Z.to_nat R)));
      [|reflexivity|exact Hok|lia|lia|lia|intros i Hi; apply HA; lia].
    rewrite HR. destruct (Z.eqb_spec R 0); [lia|].
    rewrite Z2Nat.id by lia. simpl. do 2 f_equal.
    apply flat_map_agree. intros i Hi.
    apply list_elem_of_In, elem_of_seqZ in Hi.
    unfold retry_events. rewrite (Hconf i) by lia. rewrite Hh. reflexivity.
  - assert (Hblock : forall (p : Event -> bool) (k : nat),
              (forall i, 0 <= i <= R -> count p (ev i) = k) ->
              forall extra,
                (forall i, count p
                             [EvRetry (s i) args' kwargs i
                                (CommandFailedException (d i));
                              EvSleep (retry_sleep (conf self))] = extra) ->
                count p
                  (flat_map
                     (fun i =>
                        ev i ++ [EvRetry (s i) args' kwargs i
                                   (CommandFailedException (d i));
                                 EvSleep (retry_sleep (conf self))])
                     (seqZ 0 R) ++ ev R)
                = ((k + extra) * Z.to_nat R + k)%nat).
    { intros p k Hk extra Hextra. rewrite count_app, (Hk R) by lia.
      rewrite (count_flat_map p _ (k + extra) (seqZ 0 R)).
      - rewrite length_seqZ. reflexivity.
      - intros i Hi. apply list_elem_of_In, elem_of_seqZ in Hi.
        rewrite count_app, Hk, Hextra by lia. reflexivity. }
    split; [|split].
    + rewrite (Hblock is_popen 1%nat (fun i Hi => proj1 (Hcnt i Hi)) 0%nat)
        by reflexivity. lia.
    + rewrite (Hblock is_retry 0%nat
                 (fun i Hi => proj1 (proj2 (Hcnt i Hi))) 1%nat)
        by reflexivity. lia.
    + rewrite (Hblock is_sleep 0%nat
                 (fun i Hi => proj2 (proj2 (Hcnt i Hi))) 1%nat)
        by reflexivity. lia.
Qed.

Lemma get_output_retries_exhausted_witness :
  retry_times (conf Sample.command) = 2
  /\ retry_returns (retry_handler (conf Sample.command)) = true
  /\ exists d s tr,
       get_output Sample.command [] ∅ Sample.children
       = (Raises (CommandMaxRetryExceeded d), s, tr)
       /\ count is_popen tr = 3%nat
       /\ count is_retry tr = 2%nat
       /\ count is_sleep tr = 2%nat.
Proof.
  split; [reflexivity|]. split; [reflexivity|].
  destruct (get_output_retries_exhausted Sample.command [] ∅ Sample.children
              2 eq_refl)
    as (d & s & ev & tr & _ & Hrun & _ & Hp & Hr & Hs).
  - lia.
  - reflexivity.
  - unfold SLEEP_MAX. simpl. lia.
  - intros i _. eexists. reflexivity.
  - exists (d 2), (s 2), tr. auto.
Defined.

(** C3.  With retry count 0, the exit-code check enabled, a child that
    takes the input of the call, is drained and exits with a code that is
    not accepted, [get_output] makes one attempt, calls no retry handler,
    does not sleep, and raises the [CommandFailedException] of that
    attempt. *)
Theorem get_output_no_retry (self : Command) (args' : list text)
  (kwargs : gmap string Value) (children : Z -> ChildRun) :
  retry_times (conf self) = 0 ->
  only_keys get_output_keys kwargs ->
  takes_input (default VNone (kwargs !! "stdin")) (children 0) = true ->
  truthy (effective_check self kwargs) = true ->
  drains (children 0) ->
  py_in (Some (returncode (children 0)))
    (effective_allowed_retval self kwargs) = Returns false ->
  exists d s tr,
    get_output self args' kwargs children
    = (Raises (CommandFailedException d), s, tr)
    /\ _get_output_once self args' kwargs (children 0)
       = (Raises (CommandFailedException d), s, tr)
    /\ detail_ret d = Some (returncode (children 0))
    /\ count is_popen tr = 1%nat
    /\ count is_retry tr = 0%nat
    /\ count is_sleep tr = 0%nat.
Proof.
  intros HR Hk Hin Hc Hd Hpy.
  pose proof (only_keys_spawns _ Hk) as Hs.
  destruct (once_fails self args' kwargs (children 0) Hs Hin Hc Hd Hpy)
    as (d & s & ev & Ho).
  exists d, s, ev.
  destruct (once_failed _ _ _ _ _ _ _ Ho)
    as (st & Hrun & _ & _ & _ & Es & Ed & Eev & _).
  split; [|split; [exact Ho|split]].
  - unfold get_output.
    rewrite (get_output_from_step self args' kwargs children Hs _ 0 self []
               eq_refl).
    rewrite Ho, HR. reflexivity.
  - rewrite Ed, Es. reflexivity.
  - rewrite Eev.
    apply (count_attempt self args' kwargs (children 0) _ st Hrun).
Qed.

Lemma get_output_no_retry_witness :
  exists d s tr,
    get_output Sample.command_no_retry [] ∅ Sample.children
    = (Raises (CommandFailedException d), s, tr)
    /\ detail_ret d = Some 1
    /\ count is_popen tr = 1%nat
    /\ count is_retry tr = 0%nat.
Proof.
  destruct (get_output_no_retry Sample.command_no_retry [] ∅ Sample.children)
    as (d & s & tr & H1 & _ & H2 & H3 & H4 & _).
  - reflexivity.
  - intros k [v Hv]. rewrite lookup_empty in Hv. discriminate.
  - reflexivity.
  - reflexivity.
  - reflexivity.
  - reflexivity.
  - exists d, s, tr. auto.
Defined.

(** C6.  With the exit-code check disabled for the call and a child that
    takes the input of the call and is drained, whatever the exit code of
    the child, [get_output] returns the pair of the captured output and
    error texts, raises nothing, and leaves the exit code in [ret] (and the
    two texts in [out] and [err]); [__call__] returns that exit code. *)
Theorem get_output_unchecked (self : Command) (args' : list text)
  (kwargs : gmap string Value) (children : Z -> ChildRun) :
  only_keys get_output_keys kwargs ->
  takes_input (default VNone (kwargs !! "stdin")) (children 0) = true ->
  truthy (effective_check self kwargs) = false ->
  drains (children 0) ->
  real_chunks (stdout_chunks (children 0)) ->
  real_chunks (stderr_chunks (children 0)) ->
  exists s tr,
    get_output self args' kwargs children
    = (Returns (stdout_text (children 0), stderr_text (children 0)), s, tr)
    /\ call self args' kwargs children
       = (Returns (Some (returncode (children 0))), s, tr)
    /\ ret s = Some (returncode (children 0))
    /\ out s = Some (stdout_text (children 0))
    /\ err s = Some (stderr_text (children 0))
    /\ pipe s = None
    /\ count is_popen tr = 1%nat.
Proof.
  intros Hk Hin Hc Hd Ho He.
  pose proof (only_keys_spawns _ Hk) as Hs.
  unfold drains in Hd.
  destruct (pipe_processor_loop (waits (children 0))
              (start_readers (children 0))) as [r st] eqn:Hrun.
  cbn [fst] in Hd. subst r.
  destruct (drained_text _ _ Ho He Hrun) as [Eo Ee].
  assert (Hg : get_output self args' kwargs children
               = (Returns (stdout_text (children 0),
                           stderr_text (children 0)),
                  after_attempt self (children 0)
                    (Some (stdout_text (children 0)))
                    (Some (stderr_text (children 0))),
                  (spawn_events self args' kwargs ++ trace st) ++ [EvWait])).
  { unfold get_output.
    rewrite (get_output_from_step self args' kwargs children Hs _ 0 self []
               eq_refl).
    rewrite (once_drained _ _ _ _ st Hs Hin Hrun). cbv zeta.
    rewrite Hc, Eo, Ee. reflexivity. }
  eexists _, _. split; [exact Hg|].
  split; [unfold call; rewrite Hg; reflexivity|].
  repeat split; try reflexivity.
  apply (count_attempt self args' kwargs (children 0) _ st Hrun).
Qed.

Lemma get_output_unchecked_witness :
  truthy (effective_check Sample.command {[ "check" := VBool false ]})
  = false
  /\ returncode (Sample.children 0) = 1
  /\ exists s tr,
       get_output Sample.command [] {[ "check" := VBool false ]}
         Sample.children
       = (Returns ([104; 105; 10; 120; 121; 10], [101]), s, tr)
       /\ ret s = Some 1.
Proof.
  split; [reflexivity|]. split; [reflexivity|].
  destruct (get_output_unchecked Sample.command []
              {[ "check" := VBool false ]} Sample.children)
    as (s & tr & H1 & _ & H2 & _).
  - intros k [v Hv]. apply lookup_singleton_Some in Hv as [<- _].
    simpl. tauto.
  - reflexivity.
  - reflexivity.
  - reflexivity.
  - repeat constructor; discriminate.
  - repeat constructor; discriminate.
  - exists s, tr. split; [exact H1|exact H2].
Defined.

(** C8.  A call that passes a keyword outside [stdin], [check],
    [allowed_retval], [close_fds], [out_handler], [err_handler] raises
    [TypeError], through [execute], [get_output] and [__call__] alike; the
    object is left as it was and nothing has happened: no process was
    spawned. *)
Theorem unknown_keyword_refused (self : Command) (args' : list text)
  (kwargs : gmap string Value) (k : string) :
  is_Some (kwargs !! k) ->
  ~ In k execute_keys ->
  (forall child,
      execute self args' kwargs child = (Raises TypeError, self, []))
  /\ (forall children,
        get_output self args' kwargs children = (Raises TypeError, self, []))
  /\ (forall children,
        call self args' kwargs children = (Raises TypeError, self, [])).
Proof.
  intros Hk Hn.
  assert (Hg : forall children,
             get_output self args' kwargs children
             = (Raises TypeError, self, [])).
  { intros children. unfold get_output. cbn [get_output_from].
    rewrite (once_refused _ _ _ _ (unknown_key_no_spawn _ _ Hk Hn)).
    reflexivity. }
  split; [|split; [exact Hg|]].
  - intros child. rewrite execute_eq, (leftover_unknown _ _ Hk Hn).
    reflexivity.
  - intros children. unfold call. rewrite Hg. reflexivity.
Qed.

Lemma unknown_keyword_refused_witness :
  execute Sample.command [] {[ "timeout" := VInt 5 ]} Sample.child
  = (Raises TypeError, Sample.command, [])
  /\ get_output Sample.command [] {[ "timeout" := VInt 5 ]} Sample.children
     = (Raises TypeError, Sample.command, []).
Proof.
  destruct (unknown_keyword_refused Sample.command []
              {[ "timeout" := VInt 5 ]} "timeout") as (H1 & H2 & _).
  - rewrite lookup_singleton_eq. eauto.
  - simpl. intros [H|[H|[H|[H|[H|[H|[]]]]]]]; discriminate.
  - split; [apply H1|apply H2].
Defined.

(** C10.  When [get_output] raises [CommandFailedException] or
    [CommandMaxRetryExceeded], the object holds the results of the last
    attempt: its exit code in [ret], its captured lines joined by newlines
    in [out] and [err] (the text each stream carried), and no process
    handle. *)
Theorem get_output_failure_keeps_results (self : Command)
  (args' : list text) (kwargs : gmap string Value)
  (children : Z -> ChildRun) (e : Exc) (s : Command) (tr : list Event)
  (d : Detail) :
  get_output self args' kwargs children = (Raises e, s, tr) ->
  e = CommandFailedException d \/ e = CommandMaxRetryExceeded d ->
  let last := children (Z.max 0 (retry_times (conf self))) in
  exists ev,
    _get_output_once self args' kwargs last
    = (Raises (CommandFailedException d), s, ev)
    /\ (exists pre, tr = pre ++ ev)
    /\ ret s = Some (returncode last)
    /\ out s = Some (Py.join [Py.NL] (lines Stdout ev))
    /\ err s = Some (Py.join [Py.NL] (lines Stderr ev))
    /\ pipe s = None
    /\ (real_chunks (stdout_chunks last) ->
        real_chunks (stderr_chunks last) ->
        out s = Some (stdout_text last) /\ err s = Some (stderr_text last)).
Proof.
  intros Hrun He. exact (last_attempt_results _ _ _ _ _ _ _ _ Hrun He).
Qed.

Lemma get_output_failure_keeps_results_witness :
  exists e s tr,
    get_output Sample.command [] ∅ Sample.children = (Raises e, s, tr)
    /\ ret s = Some 1
    /\ out s = Some [104; 105; 10; 120; 121; 10]
    /\ err s = Some [101]
    /\ pipe s = None.
Proof.
  destruct (get_output Sample.command [] ∅ Sample.children)
    as [[r s] tr] eqn:Hrun.
  assert (Hr : exists d, r = Raises (CommandMaxRetryExceeded d)).
  { vm_compute in Hrun. inversion Hrun. eauto. }
  destruct Hr as [d ->].
  destruct (get_output_failure_keeps_results Sample.command [] ∅
              Sample.children _ s tr d Hrun (or_intror eq_refl))
    as (ev & _ & _ & H1 & _ & _ & H2 & H3).
  destruct H3 as [H3 H4]; [repeat constructor; discriminate..|].
  exists (CommandMaxRetryExceeded d), s, tr.
  repeat split; assumption.
Defined.

Section Signals.

Lemma settable_spec (os : Platform) (signal_id : Z) :
  settable os signal_id = true ->
  (signal_id <? 1) || (NSIG os <=? signal_id) = false
  /\ existsb (Z.eqb signal_id) (unchangeable os) = false.
Proof.
  unfold settable. intros H.
  apply andb_true_iff in H as [H H3]. apply andb_true_iff in H as [H1 H2].
  apply Z.leb_le in H1. apply Z.ltb_lt in H2.
  apply negb_true_iff in H3. split; [|exact H3].
  apply orb_false_iff. split; [apply Z.ltb_ge|apply Z.leb_gt]; lia.
Qed.

(** On a signal that can be given a handler, the call installs the
    closure over the handler found. *)
Lemma enable_installs (os : Platform) (owner : nat) (signal_id : Z)
  (table : gmap Z SigHandler) :
  settable os signal_id = true ->
  enable_signal_forwarding os owner signal_id table
  = (Returns tt,
     <[signal_id := Forwarder owner signal_id (getsignal table signal_id)]>
       table).
Proof.
  intros H. destruct (settable_spec _ _ H) as [H1 H2].
  unfold enable_signal_forwarding. rewrite H1, H2. reflexivity.
Qed.

(** A call that returns has installed it. *)
Lemma enable_returned (os : Platform) (owner : nat) (signal_id : Z)
  (table table' : gmap Z SigHandler) :
  enable_signal_forwarding os owner signal_id table = (Returns tt, table') ->
  settable os signal_id = true
  /\ table'
     = <[signal_id := Forwarder owner signal_id (getsignal table signal_id)]>
         table.
Proof.
  unfold enable_signal_forwarding, settable. intros H.
  destruct ((signal_id <? 1) || (NSIG os <=? signal_id)) eqn:E1;
    [discriminate|].
  destruct (existsb (Z.eqb signal_id) (unchangeable os)) eqn:E2;
    [discriminate|].
  apply orb_false_iff in E1 as [E1 E3].
  apply Z.ltb_ge in E1. apply Z.leb_gt in E3.
  inversion H. split; [|reflexivity].
  rewrite (proj2 (Z.leb_le _ _)), (proj2 (Z.ltb_lt _ _)) by lia. reflexivity.
Qed.

Lemma getsignal_insert (table : gmap Z SigHandler) (signal_id : Z)
  (h : SigHandler) :
  getsignal (<[signal_id := h]> table) signal_id = h.
Proof. unfold getsignal. rewrite lookup_insert_eq. reflexivity. Qed.

(** The closure called while its object has no child: it sends nothing
    and goes on to the handler it replaced. *)
Lemma forwarder_without_child (objs : nat -> Command) (owner : nat)
  (signal_id sig : Z) (old : SigHandler) :
  pipe (objs owner) = None ->
  run_handler (Forwarder owner signal_id old) objs sig
  = match old with
    | PyCallable _ _ | Forwarder _ _ _ => run_handler old objs sig
    | SIG_DFL =>
        if signal_id =? SIGTERM
        then (Raises (SystemExit (128 + signal_id)), [])
        else (Returns tt, [])
    | SIG_IGN | NoHandler => (Returns tt, [])
    end.
Proof.
  intros Hp. cbn [run_handler]. rewrite Hp.
  destruct old as [| | |id r|o id old']; try reflexivity.
  destruct (run_handler (Forwarder o id old') objs sig). reflexivity.
Qed.

End Signals.

(** C5 as stated fails: with the default disposition in place before, the
    handler installed for SIGTERM raises [SystemExit(143)] although no child
    is live. *)
Lemma forwarding_sigterm_exits_without_child :
  pipe (demo_objs 0) = None
  /\ fst (enable_signal_forwarding linux 0 SIGTERM ∅) = Returns tt
  /\ deliver (snd (enable_signal_forwarding linux 0 SIGTERM ∅)) demo_objs
       SIGTERM
     = (Raises (SystemExit 143), []).
Proof. repeat split; reflexivity. Qed.

(** C5, amended.  Once [enable_signal_forwarding] has installed its handler
    for a signal, a delivery of that signal while the object has no live
    child makes the handler skip the forwarding step, so that it does
    nothing of its own; what happens is what the earlier disposition
    dictates.  When it is [SIG_IGN], no Python-level handler, or [SIG_DFL]
    for a signal other than SIGTERM, the delivery is a no-op and does not
    raise; when it is [SIG_DFL] and the signal is SIGTERM, the handler
    raises [SystemExit(128 + signal_id)]; when it is a callable, that
    callable is called and the delivery does what that call does and ends
    as it ends. *)
Theorem forwarding_without_child (os : Platform) (owner : nat)
  (objs : nat -> Command) (table table' : gmap Z SigHandler)
  (signal_id : Z) :
  enable_signal_forwarding os owner signal_id table = (Returns tt, table') ->
  pipe (objs owner) = None ->
  let old_handler := getsignal table signal_id in
  deliver table' objs signal_id
  = match old_handler with
    | PyCallable _ _ | Forwarder _ _ _ =>
        run_handler old_handler objs signal_id
    | SIG_DFL =>
        if signal_id =? SIGTERM
        then (Raises (SystemExit (128 + signal_id)), [])
        else (Returns tt, [])
    | SIG_IGN | NoHandler => (Returns tt, [])
    end.
Proof.
  intros Hen Hp old_handler.
  destruct (enable_returned _ _ _ _ _ Hen) as [_ ->].
  unfold deliver. rewrite getsignal_insert.
  apply forwarder_without_child. exact Hp.
Qed.

Lemma forwarding_without_child_witness :
  pipe (demo_objs 0) = None
  /\ deliver (snd (enable_signal_forwarding linux 0 2 {[ 2 := SIG_IGN ]}))
       demo_objs 2
     = (Returns tt, []).
Proof.
  split; [reflexivity|].
  exact (forwarding_without_child linux 0 demo_objs {[ 2 := SIG_IGN ]}
           (snd (enable_signal_forwarding linux 0 2 {[ 2 := SIG_IGN ]})) 2
           eq_refl eq_refl).
Defined.

(** C7 as stated fails for [execute] called directly: the exception of a
    refused exit code carries [None] for the output and the error text,
    although the child wrote on both streams. *)
Lemma execute_failure_carries_no_text :
  fst (fst (execute Sample.command [] ∅ Sample.child))
  = Raises (CommandFailedException
              {| detail_ret := Some 1; detail_out := None;
                 detail_err := None |})
  /\ lines Stdout (snd (execute Sample.command [] ∅ Sample.child))
     = [[104; 105]; [120; 121]; []]
  /\ lines Stderr (snd (execute Sample.command [] ∅ Sample.child))
     = [[101]].
Proof. repeat split; reflexivity. Qed.

(** C7, amended.  Through [get_output] and [__call__], the exception of a
    refused exit code ([CommandFailedException], or
    [CommandMaxRetryExceeded] once retries are exhausted) carries the exit
    code of the last attempt with the captured output and error lines of
    that attempt joined by newlines, which is the text each stream carried;
    through [execute] called directly it carries the exit code, and [None]
    for the two texts. *)
Theorem policy_failure_detail (self : Command) (args' : list text)
  (kwargs : gmap string Value) (children : Z -> ChildRun) :
  (forall e s tr d,
      get_output self args' kwargs children = (Raises e, s, tr) ->
      e = CommandFailedException d \/ e = CommandMaxRetryExceeded d ->
      let last := children (Z.max 0 (retry_times (conf self))) in
      exists ev,
        _get_output_once self args' kwargs last
        = (Raises (CommandFailedException d), s, ev)
        /\ d = {| detail_ret := Some (returncode last);
                  detail_out := Some (Py.join [Py.NL] (lines Stdout ev));
                  detail_err := Some (Py.join [Py.NL] (lines Stderr ev)) |}
        /\ (real_chunks (stdout_chunks last) ->
            real_chunks (stderr_chunks last) ->
            d = {| detail_ret := Some (returncode last);
                   detail_out := Some (stdout_text last);
                   detail_err := Some (stderr_text last) |}))
  /\ (forall e s tr,
        call self args' kwargs children = (Raises e, s, tr) ->
        get_output self args' kwargs children = (Raises e, s, tr))
  /\ (forall child d s tr,
        execute self args' kwargs child
        = (Raises (CommandFailedException d), s, tr) ->
        d = {| detail_ret := Some (returncode child); detail_out := None;
               detail_err := None |}).
Proof.
  split; [|split].
  - intros e s tr d Hrun He last.
    destruct (last_attempt_results _ _ _ _ _ _ _ _ Hrun He)
      as (ev & Ho & _ & H1 & H2 & H3 & _ & H4).
    fold last in Ho, H1, H4. exists ev. split; [exact Ho|].
    destruct (once_failed _ _ _ _ _ _ _ Ho)
      as (_ & _ & _ & _ & _ & _ & Ed & _ & _).
    split.
    + rewrite Ed, H1, H2, H3. reflexivity.
    + intros Hro Hre. destruct (H4 Hro Hre) as [E1 E2].
      rewrite Ed, H1, E1, E2. reflexivity.
  - intros e s tr. unfold call.
    destruct (get_output self args' kwargs children) as [[[x|e'|] s'] tr'];
      intros H; inversion H; reflexivity.
  - intros child d s tr. rewrite execute_eq.
    destruct (Nat.eqb (size (leftover kwargs)) 0); cbn [negb];
      [|discriminate].
    apply execute_body_failed.
Qed.

Lemma policy_failure_detail_witness :
  exists s tr,
    get_output Sample.command [] ∅ Sample.children
    = (Raises (CommandMaxRetryExceeded
                 {| detail_ret := Some 1;
                    detail_out := Some [104; 105; 10; 120; 121; 10];
                    detail_err := Some [101] |}), s, tr).
Proof.
  destruct (get_output Sample.command [] ∅ Sample.children)
    as [[r s] tr] eqn:Hrun.
  assert (Hr : exists d, r = Raises (CommandMaxRetryExceeded d)).
  { vm_compute in Hrun. inversion Hrun. eauto. }
  destruct Hr as [d ->].
  destruct (proj1 (policy_failure_detail Sample.command [] ∅ Sample.children)
              _ s tr d Hrun (or_intror eq_refl))
    as (ev & _ & _ & H).
  exists s, tr. rewrite (H ltac:(repeat constructor; discriminate)
                           ltac:(repeat constructor; discriminate)).
  reflexivity.
Defined.

Section Draining.

Lemma pass_events_log (evs : list Event) (st : Readers) (s : Stream) :
  pass_events (log evs st) s = pass_events st s.
Proof. destruct s; reflexivity. Qed.

(** One answer of the wait with ready readers, from a state in which no
    reader is listed twice. *)
Lemma ready_step (st : Readers) (answer : list Stream) :
  NoDup (processors st) ->
  let st' :=
    fold_left process_stream (select (processors st) answer)
      (log [EvSelect (processors st)] st) in
  trace st'
  = trace st ++ [EvSelect (processors st)]
      ++ flat_map (pass_events st) (select (processors st) answer)
  /\ forall s,
       if listed s st && existsb (stream_eqb s) answer
       then reader s st' = snd (process (reader s st))
            /\ listed s st' = negb (fst (fst (process (reader s st))))
       else reader s st' = reader s st /\ listed s st' = listed s st.
Proof.
  intros Hnd st'.
  destruct (for_each_ready (select (processors st) answer)
              (log [EvSelect (processors st)] st))
    as (_ & Htr & Hrd).
  - apply NoDup_select. exact Hnd.
  - exact Hnd.
  - intros s Hs. apply (select_listed st answer s Hs).
  - split.
    + subst st'. rewrite Htr. cbn [trace log]. rewrite <- app_assoc.
      rewrite (flat_map_agree _ (pass_events st)
                 (select (processors st) answer));
        [reflexivity|]. intros s _. apply pass_events_log.
    + intros s. specialize (Hrd s). rewrite select_ready in Hrd.
      destruct s; exact Hrd.
Qed.

End Draining.

(** C9.  The loop run on the two pipes of a child, for any sequence of
    answers of the readiness wait and any cutting of the two streams into
    reads.  In every state it reaches: the readers it waits on are those
    that have not reported the end of their stream; it has returned exactly
    when both have, and each handler has then received the lines of its
    whole stream in order; it raises only for a failed wait other than
    EINTR.  From such a state with a reader left: an interrupted wait is
    followed by a wait on the same readers; any other failure is raised at
    once; an answer with ready readers makes it read once from each ready
    reader it waited on, from no other, and drop a reader exactly when that
    read reported the end of the stream. *)
Theorem pipe_processor_loop_drains (child : ChildRun)
  (ws : list WaitResult) (r : Outcome unit) (st : Readers) :
  real_chunks (stdout_chunks child) ->
  real_chunks (stderr_chunks child) ->
  pipe_processor_loop ws (start_readers child) = (r, st) ->
  (forall s, listed s st = negb (closed (_file (reader s st))))
  /\ (r = Returns tt <-> forall s, closed (_file (reader s st)) = true)
  /\ (r = Returns tt ->
      lines Stdout (trace st) = Py.split Py.NL (stdout_text child)
      /\ lines Stderr (trace st) = Py.split Py.NL (stderr_text child))
  /\ (forall e, r = Raises e ->
        exists errno,
          errno <> EINTR /\ e = select_error errno /\ In (Fails errno) ws)
  /\ (processors st <> [] ->
      (forall ws',
          pipe_processor_loop (Fails EINTR :: ws') st
          = pipe_processor_loop ws' (log [EvSelect (processors st)] st))
      /\ (forall errno ws',
            errno <> EINTR ->
            pipe_processor_loop (Fails errno :: ws') st
            = (Raises (select_error errno),
               log [EvSelect (processors st)] st))
      /\ (forall answer ws',
            let st' :=
              fold_left process_stream (select (processors st) answer)
                (log [EvSelect (processors st)] st) in
            pipe_processor_loop (Ready answer :: ws') st
            = pipe_processor_loop ws' st'
            /\ trace st'
               = trace st ++ [EvSelect (processors st)]
                   ++ flat_map (pass_events st)
                        (select (processors st) answer)
            /\ forall s,
                 if listed s st && existsb (stream_eqb s) answer
                 then reader s st' = snd (process (reader s st))
                      /\ listed s st'
                         = negb (fst (fst (process (reader s st))))
                 else reader s st' = reader s st
                      /\ listed s st' = listed s st)).
Proof.
  intros Ho He Hrun.
  destruct (start_readers_inv child Ho He) as [Hnd Hinv].
  destruct (loop_invariant _ _ _ Hnd Hinv _ _ Hrun)
    as (Hnd' & Hinv' & Hret & Hraise).
  assert (Hcl : forall s, listed s st = negb (closed (_file (reader s st)))).
  { intros s. destruct (Hinv' s) as (_ & _ & -> & _).
    rewrite negb_involutive. reflexivity. }
  split; [exact Hcl|]. split; [|split; [|split; [exact Hraise|]]].
  - rewrite Hret. split.
    + intros Hp s. specialize (Hcl s). unfold listed in Hcl.
      rewrite Hp in Hcl. simpl in Hcl.
      destruct (closed (_file (reader s st))); [reflexivity|discriminate].
    + intros Hall. destruct (processors st) as [|s l] eqn:Hp; [reflexivity|].
      exfalso. specialize (Hcl s). rewrite (Hall s) in Hcl.
      unfold listed in Hcl. rewrite Hp in Hcl. simpl in Hcl.
      rewrite stream_eqb_refl in Hcl. discriminate.
  - intros Hr. apply Hret in Hr.
    pose proof (Hinv' Stdout) as (_ & _ & _ & Hl1).
    pose proof (Hinv' Stderr) as (_ & _ & _ & Hl2).
    unfold listed in Hl1, Hl2. rewrite Hr in Hl1, Hl2. simpl in Hl1, Hl2.
    rewrite app_nil_r in Hl1, Hl2. auto.
  - intros Hne. split; [|split].
    + intros ws'. rewrite (loop_fails _ _ _ Hne). reflexivity.
    + intros errno ws' Herr. rewrite (loop_fails _ _ _ Hne).
      apply Z.eqb_neq in Herr. rewrite Herr. reflexivity.
    + intros answer ws' st'. split; [apply (loop_ready _ _ _ Hne)|].
      apply (ready_step st answer Hnd').
Qed.

Lemma pipe_processor_loop_drains_witness :
  exists st,
    pipe_processor_loop (waits Sample.child) (start_readers Sample.child)
    = (Returns tt, st)
    /\ lines Stdout (trace st) = [[104; 105]; [120; 121]; []]
    /\ lines Stderr (trace st) = [[101]]
    /\ forall s, closed (_file (reader s st)) = true.
Proof.
  destruct (pipe_processor_loop (waits Sample.child)
              (start_readers Sample.child)) as [r st] eqn:Hrun.
  assert (Hr : r = Returns tt).
  { vm_compute in Hrun. inversion Hrun. reflexivity. }
  subst r.
  destruct (pipe_processor_loop_drains Sample.child (waits Sample.child)
              (Returns tt) st) as (_ & H2 & H3 & _).
  - repeat constructor; discriminate.
  - repeat constructor; discriminate.
  - exact Hrun.
  - exists st. split; [reflexivity|].
    destruct (H3 eq_refl) as [H4 H5]. rewrite H4, H5.
    split; [reflexivity|]. split; [reflexivity|]. apply H2. reflexivity.
Defined.

(** ** Composition of command lines *)

Section Composition.

(** A readable text followed by a blank: the reader is between words
    again, with the words of the text delimited. *)
Lemma scan_then_blank (s rest : text) :
  forall (m : Posix.mode) (cur : option text) (done ws : list text),
    Posix.scan m cur done s = Some ws ->
    Posix.scan m cur done (s ++ Py.SPACE :: rest)
    = Posix.scan Posix.Unquoted None ws rest.
Proof.
  induction s as [|c s IH]; intros m cur done ws H.
  - destruct m; simpl in H; try discriminate. inversion H. reflexivity.
  - simpl in *. destruct m.
    + destruct (c =? Py.SQUOTE); [apply IH, H|].
      destruct (c =? Py.BACKSLASH); [apply IH, H|].
      destruct (Posix.is_blank c); [apply IH, H|].
      destruct (Posix.is_special c); [discriminate|apply IH, H].
    + destruct (c =? Py.NL); apply IH, H.
    + destruct (c =? Py.SQUOTE); apply IH, H.
Qed.

Lemma words_command_line (command : text) (args : list text)
  (ws : list text) :
  Posix.words command = Some ws ->
  Posix.words (full_command_quote command (Some args)) = Some (ws ++ args).
Proof.
  intros H. destruct args as [|a l].
  - simpl. rewrite app_nil_r. exact H.
  - unfold full_command_quote, Posix.words in *.
    change (command ++ [Py.SPACE] ++ ?x) with (command ++ Py.SPACE :: x).
    rewrite (scan_then_blank _ _ _ _ _ _ H). apply scan_quoted_args.
Qed.

End Composition.

(** X1.  A command line composed by [full_command_quote] from a command
    token that a shell reads as the words [ws] and any argument list reads
    as [ws] followed by exactly those arguments, whatever characters they
    hold; without arguments ([None] or the empty list) it is the command
    token itself. *)
Theorem full_command_quote_read_back (command : text) (args : list text)
  (ws : list text) :
  Posix.words command = Some ws ->
  Posix.words (full_command_quote command (Some args)) = Some (ws ++ args)
  /\ full_command_quote command None = command
  /\ full_command_quote command (Some []) = command.
Proof.
  intros H. split; [apply words_command_line, H|]. split; reflexivity.
Qed.

Lemma full_command_quote_read_back_witness :
  Posix.words [115; 115; 104] = Some [[115; 115; 104]]
  /\ Posix.words
       (full_command_quote [115; 115; 104]
          (Some [[45; 111]; [97; 39; 32; 59; 98]; []]))
     = Some [[115; 115; 104]; [45; 111]; [97; 39; 32; 59; 98]; []].
Proof.
  split; [reflexivity|].
  exact (proj1 (full_command_quote_read_back [115; 115; 104]
                  [[45; 111]; [97; 39; 32; 59; 98]; []]
                  [[115; 115; 104]] eq_refl)).
Defined.

(** X2.  Quoting loses nothing: two different arguments have different
    quoted forms, and two different argument lists give different command
    lines for the same readable command token. *)
Theorem quoting_injective (command : text) (ws : list text)
  (a b : text) (l1 l2 : list text) :
  Posix.words command = Some ws ->
  (a <> b -> shell_quote a <> shell_quote b)
  /\ (l1 <> l2 ->
      full_command_quote command (Some l1)
      <> full_command_quote command (Some l2)).
Proof.
  intros H. split.
  - intros Hne E. apply Hne.
    pose proof (words_shell_quote a) as Ha.
    rewrite E, words_shell_quote in Ha. inversion Ha. reflexivity.
  - intros Hne E. apply Hne.
    pose proof (words_command_line command l1 ws H) as H1.
    rewrite E, (words_command_line command l2 ws H) in H1.
    inversion H1 as [E']. apply app_inv_head in E'. symmetry. exact E'.
Qed.

Lemma quoting_injective_witness :
  shell_quote [97] <> shell_quote [97; 39]
  /\ full_command_quote [108; 115] (Some [[97]; [98]])
     <> full_command_quote [108; 115] (Some [[97; 32; 98]]).
Proof.
  destruct (quoting_injective [108; 115] [[108; 115]] [97] [97; 39]
              [[97]; [98]] [[97; 32; 98]] eq_refl) as [H1 H2].
  split; [apply H1|apply H2]; discriminate.
Defined.

(** X3.  [_build_pipe] starts the child with the same argument vector in
    both modes: the command, the arguments of the constructor and the
    arguments of the call, in this order.  In shell mode this needs a
    command that the shell reads as the one word it is. *)
Theorem build_pipe_same_argv (self : Command) (args' : list text)
  (close_fds' : Value) :
  Posix.words (cmd (conf self)) = Some [cmd (conf self)] ->
  child_argv (_build_pipe self args' close_fds')
  = Some (cmd (conf self) :: args (conf self) ++ args').
Proof.
  intros H. unfold child_argv, _build_pipe. cbn [popen_cmd].
  destruct (shell (conf self)); [|reflexivity].
  apply (words_command_line _ _ _ H).
Qed.

Lemma build_pipe_same_argv_witness :
  popen_cmd (_build_pipe demo_shell_command [[97; 32; 98]] (VBool true))
  = ShellString [108; 115; 32; 39; 45; 108; 39; 32; 39; 97; 32; 98; 39]
  /\ child_argv (_build_pipe demo_shell_command [[97; 32; 98]] (VBool true))
     = Some [[108; 115]; [45; 108]; [97; 32; 98]].
Proof.
  split; [reflexivity|].
  exact (build_pipe_same_argv demo_shell_command [[97; 32; 98]] (VBool true)
           eq_refl).
Defined.

(** ** Promptness of the line reader *)

Section Promptness.

Lemma but_last_app (x y : list text) :
  y <> [] -> Py.but_last (x ++ y) = x ++ Py.but_last y.
Proof. intros H. unfold Py.but_last. apply removelast_app, H. Qed.

Lemma last_item_app (x y : list text) :
  y <> [] -> Py.last_item (x ++ y) = Py.last_item y.
Proof.
  intros H. unfold Py.last_item. induction x as [|a x IH]; [reflexivity|].
  simpl. rewrite IH. destruct (x ++ y) eqn:E; [|reflexivity].
  apply app_eq_nil in E as [_ E]. contradiction.
Qed.

Lemma split_but_last_last (sep : Z) (s : text) :
  Py.but_last (Py.split sep s) ++ [Py.last_item (Py.split sep s)]
  = Py.split sep s.
Proof.
  unfold Py.but_last, Py.last_item. symmetry.
  apply app_removelast_last, split_not_nil.
Qed.

Lemma process_times_chunks (cs : list bytes) :
  real_chunks cs ->
  forall (rest : list bytes) (cl : bool) (buf : text),
    Py.contains Py.NL buf = false ->
    process_times (length cs)
      {| _file := {| unread := cs ++ rest; closed := cl |}; _buf := buf |}
    = (repeat false (length cs),
       Py.but_last (Py.split Py.NL (buf ++ decoded cs)),
       {| _file := {| unread := rest; closed := cl |};
          _buf := Py.last_item (Py.split Py.NL (buf ++ decoded cs)) |}).
Proof.
  induction 1 as [|c cs Hc _ IH]; intros rest cl buf Hbuf.
  - simpl. unfold decoded. simpl.
    rewrite app_nil_r, (split_no_sep _ _ Hbuf). reflexivity.
  - destruct c as [|b c]; [contradiction|].
    change (decoded ((b :: c) :: cs))
      with (Py.decode (b :: c) ++ decoded cs).
    rewrite app_assoc.
    cbn [length process_times app]. unfold process, os_read.
    cbn [_file unread _buf closed].
    remember (buf ++ Py.decode (b :: c)) as buf' eqn:Ebuf.
    destruct (Py.contains Py.NL buf') eqn:Hnl; cbn [negb].
    + rewrite (IH rest cl _ (last_split_no_sep _ _)).
      rewrite (split_app Py.NL buf' (decoded cs)).
      rewrite but_last_app, last_item_app by apply split_not_nil.
      reflexivity.
    + rewrite (IH rest cl _ Hnl). reflexivity.
Qed.

End Promptness.

(** X4.  After any number of reads that returned data, a fresh reader has
    handed to its handler every line that is complete in the text read so
    far, in order, and its buffer is the unfinished rest, which holds no
    newline: the calls followed by the buffer are the split of that text.
    None of these calls of [process] reports the end of the stream, and
    the reads still to come are untouched. *)
Theorem process_delivers_complete_lines (cs rest : list bytes) :
  real_chunks cs ->
  let '(flags, calls, p) :=
    process_times (length cs)
      (new_processor {| unread := cs ++ rest; closed := false |}) in
  calls ++ [_buf p] = Py.split Py.NL (decoded cs)
  /\ Py.contains Py.NL (_buf p) = false
  /\ flags = repeat false (length cs)
  /\ _file p = {| unread := rest; closed := false |}.
Proof.
  intros H. unfold new_processor.
  rewrite (process_times_chunks cs H rest false [] eq_refl).
  cbn [_buf _file app]. split; [apply split_but_last_last|].
  split; [apply last_split_no_sep|]. split; reflexivity.
Qed.

Lemma process_delivers_complete_lines_witness :
  process_times 2
    (new_processor
       {| unread := [[97; 10; 98]; [99; 10; 100]; [101]]; closed := false |})
  = ([false; false], [[97]; [98; 99]],
     {| _file := {| unread := [[101]]; closed := false |}; _buf := [100] |})
  /\ [[97]; [98; 99]] ++ [[100]]
     = Py.split Py.NL (decoded [[97; 10; 98]; [99; 10; 100]]).
Proof.
  split; [reflexivity|].
  exact (proj1 (process_delivers_complete_lines [[97; 10; 98]; [99; 10; 100]]
                  [[101]]
                  ltac:(repeat constructor; discriminate))).
Defined.

(** ** More about the draining loop *)

Section LoopInduction.

(** Induction over the iterations of the loop. *)
Lemma loop_preserves (P : Readers -> Prop) :
  (forall st, NoDup (processors st) -> P st ->
     P (log [EvSelect (processors st)] st)) ->
  (forall st answer, NoDup (processors st) -> P st ->
     P (fold_left process_stream (select (processors st) answer)
          (log [EvSelect (processors st)] st))) ->
  forall (ws : list WaitResult) (st : Readers),
    NoDup (processors st) -> P st ->
    forall r st', pipe_processor_loop ws st = (r, st') -> P st'.
Proof.
  intros Hsel Hrdy. induction ws as [|w ws IH]; intros st Hnd HP r st' Hrun;
    destruct (nil_or_not (processors st)) as [Hp|Hp];
    try (rewrite (loop_done _ _ Hp) in Hrun; inversion Hrun; subst;
         exact HP).
  - rewrite (loop_hangs _ Hp) in Hrun. inversion Hrun; subst.
    apply Hsel; assumption.
  - destruct w as [answer|errno].
    + rewrite (loop_ready _ _ _ Hp) in Hrun.
      eapply IH; [| |exact Hrun].
      * apply for_each_ready; [apply NoDup_select; exact Hnd|exact Hnd|].
        intros s Hs. apply (select_listed st answer s Hs).
      * apply Hrdy; assumption.
    + rewrite (loop_fails _ _ _ Hp) in Hrun.
      destruct (errno =? EINTR).
      * eapply IH; [| |exact Hrun]; [exact Hnd|apply Hsel; assumption].
      * inversion Hrun; subst. apply Hsel; assumption.
Qed.

(** What one call of [process] does to the file. *)
Lemma process_file (p : StreamLineProcessor) :
  real_chunks (unread (_file p)) ->
  fst (fst (process p))
  = match unread (_file p) with [] => true | _ :: _ => false end
  /\ unread (_file (snd (process p))) = tl (unread (_file p)).
Proof.
  intros H. unfold process, os_read.
  destruct (unread (_file p)) as [|c r] eqn:E.
  - simpl. rewrite E. auto.
  - inversion H as [|? ? Hc _]; subst. destruct c; [contradiction|].
    destruct (negb _); simpl; auto.
Qed.

Lemma real_chunks_tl (l : list bytes) : real_chunks l -> real_chunks (tl l).
Proof. intros H. destruct l; [exact H|]. inversion H; assumption. Qed.

Lemma count_read_lines (s a : Stream) (calls : list text) :
  count (is_read s) (map (EvLine a) calls) = 0%nat.
Proof.
  apply count_none. intros e He. apply in_map_iff in He as (x & <- & _).
  reflexivity.
Qed.

(** The reads of one answer: one for each ready reader. *)
Lemma count_read_pass (st : Readers) (s : Stream) (rs : list Stream) :
  NoDup rs ->
  count (is_read s) (flat_map (pass_events st) rs)
  = if existsb (stream_eqb s) rs then 1%nat else 0%nat.
Proof.
  induction 1 as [|a rs Ha Hrs IH]; [reflexivity|].
  change (flat_map (pass_events st) (a :: rs))
    with (([EvRead a]
             ++ map (EvLine a) (snd (fst (process (reader a st)))))
            ++ flat_map (pass_events st) rs).
  rewrite !count_app, IH, count_read_lines. simpl existsb.
  unfold count. simpl.
  destruct (stream_eqb s a) eqn:E; simpl.
  - apply stream_eqb_eq in E. subst a.
    destruct (existsb (stream_eqb s) rs) eqn:Hin; [|reflexivity].
    exfalso. apply existsb_exists in Hin as (y & Hy & Ey).
    apply stream_eqb_eq in Ey. subst y. apply Ha, list_elem_of_In, Hy.
  - reflexivity.
Qed.

End LoopInduction.

Section Reads.

Variable child : ChildRun.

Lemma reads_balance_start :
  real_chunks (stdout_chunks child) ->
  real_chunks (stderr_chunks child) ->
  reads_balance child (start_readers child).
Proof.
  intros Ho He []; simpl; (split; [auto|split; [discriminate|]]);
    unfold count; simpl; lia.
Qed.

Lemma reads_balance_select (st : Readers) :
  reads_balance child st ->
  reads_balance child (log [EvSelect (processors st)] st).
Proof.
  intros H s. destruct (H s) as (Hr & Hu & Hb).
  split; [destruct s; exact Hr|]. split; [destruct s; exact Hu|].
  - assert (E : count (is_read s) (trace (log [EvSelect (processors st)] st))
                = count (is_read s) (trace st)).
    { simpl. rewrite count_app. unfold count at 2. simpl. lia. }
    rewrite E. destruct s; exact Hb.
Qed.

Lemma reads_balance_ready (st : Readers) (answer : list Stream) :
  NoDup (processors st) ->
  reads_balance child st ->
  reads_balance child
    (fold_left process_stream (select (processors st) answer)
       (log [EvSelect (processors st)] st)).
Proof.
  intros Hnd H s. destruct (H s) as (Hr & Hu & Hb).
  destruct (ready_step st answer Hnd) as [Htr Hrd].
  cbv zeta in Htr, Hrd. rewrite Htr. specialize (Hrd s).
  rewrite !count_app, count_read_pass by (apply NoDup_select; exact Hnd).
  rewrite select_ready. fold (listed s st).
  assert (E0 : count (is_read s) [EvSelect (processors st)] = 0%nat)
    by reflexivity.
  rewrite E0.
  destruct (listed s st && existsb (stream_eqb s) answer) eqn:Hready.
  - destruct Hrd as [-> ->].
    destruct (process_file (reader s st) Hr) as [-> ->].
    apply andb_true_iff in Hready as [Hl _]. rewrite Hl in Hb.
    split; [apply real_chunks_tl, Hr|].
    destruct (unread (_file (reader s st))); simpl in *;
      (split; [intros; try discriminate; reflexivity|lia]).
  - destruct Hrd as [-> ->]. split; [exact Hr|]. split; [exact Hu|lia].
Qed.

Lemma reads_balance_loop (ws : list WaitResult) (r : Outcome unit)
  (st : Readers) :
  real_chunks (stdout_chunks child) ->
  real_chunks (stderr_chunks child) ->
  pipe_processor_loop ws (start_readers child) = (r, st) ->
  reads_balance child st.
Proof.
  intros Ho He Hrun.
  refine (loop_preserves (reads_balance child) _ _ ws (start_readers child) _
            (reads_balance_start Ho He) r st Hrun).
  - intros st0 _. apply reads_balance_select.
  - intros st0 answer Hnd. apply reads_balance_ready, Hnd.
  - apply (start_readers_inv child Ho He).
Qed.

End Reads.

Section ReadsOnce.

Lemma reads_once_select (tr tr2 : list Event) (l : list Stream) :
  forall seen,
    reads_once seen (tr ++ EvSelect l :: tr2)
    = reads_once seen tr && reads_once [] tr2.
Proof.
  induction tr as [|e tr IH]; intros seen; [reflexivity|].
  destruct e; simpl; rewrite ?IH; try reflexivity.
  rewrite andb_assoc. reflexivity.
Qed.

Lemma reads_once_lines (s : Stream) (calls : list text) (tr : list Event) :
  forall seen,
    reads_once seen (map (EvLine s) calls ++ tr) = reads_once seen tr.
Proof. induction calls as [|c calls IH]; intros seen; simpl; auto. Qed.

Lemma reads_once_pass (st : Readers) (rs : list Stream) :
  NoDup rs ->
  forall seen,
    (forall s, In s rs -> existsb (stream_eqb s) seen = false) ->
    reads_once seen (flat_map (pass_events st) rs) = true.
Proof.
  induction 1 as [|a rs Ha Hrs IH]; intros seen Hseen; [reflexivity|].
  simpl flat_map. unfold pass_events at 1. simpl.
  rewrite (Hseen a) by (left; reflexivity). simpl.
  rewrite reads_once_lines. apply IH. intros s Hs. simpl.
  rewrite (Hseen s) by (right; exact Hs).
  rewrite orb_false_r. apply stream_eqb_neq.
  intros ->. apply Ha, list_elem_of_In, Hs.
Qed.

End ReadsOnce.

(** X5.  On the two pipes of a child, for any answers of the readiness
    wait: each stream is read at most once per chunk it delivers plus once
    for its end; a reader that has reported the end of its stream has been
    read exactly that often, so it is never read again; and when the loop
    returns this holds of both. *)
Theorem pipe_processor_loop_reads (child : ChildRun) (ws : list WaitResult)
  (r : Outcome unit) (st : Readers) (s : Stream) :
  real_chunks (stdout_chunks child) ->
  real_chunks (stderr_chunks child) ->
  pipe_processor_loop ws (start_readers child) = (r, st) ->
  (count (is_read s) (trace st) <= length (chunks_of child s) + 1)%nat
  /\ (closed (_file (reader s st)) = true ->
      count (is_read s) (trace st)
      = (length (chunks_of child s) + 1)%nat)
  /\ (r = Returns tt ->
      count (is_read s) (trace st)
      = (length (chunks_of child s) + 1)%nat).
Proof.
  intros Ho He Hrun.
  destruct (reads_balance_loop child ws r st Ho He Hrun s)
    as (Hr & Hu & Hb).
  destruct (start_readers_inv child Ho He) as [Hnd Hinv].
  destruct (loop_invariant _ _ _ Hnd Hinv _ _ Hrun)
    as (_ & Hinv' & Hret & _).
  destruct (Hinv' s) as (_ & _ & Hcl & _).
  assert (Hclosed : closed (_file (reader s st)) = true ->
            count (is_read s) (trace st)
            = (length (chunks_of child s) + 1)%nat).
  { intros Hc. rewrite Hc in Hcl.
    destruct (listed s st) eqn:Hl; [discriminate|].
    rewrite (Hu eq_refl) in Hb. simpl in Hb. lia. }
  split; [destruct (listed s st); lia|]. split; [exact Hclosed|].
  intros Hr'. apply Hclosed. rewrite Hcl.
  apply Hret in Hr'. unfold listed. rewrite Hr'. reflexivity.
Qed.

Lemma pipe_processor_loop_reads_witness :
  exists st,
    pipe_processor_loop (waits Sample.child) (start_readers Sample.child)
    = (Returns tt, st)
    /\ count (is_read Stdout) (trace st) = 3%nat
    /\ count (is_read Stderr) (trace st) = 2%nat.
Proof.
  destruct (pipe_processor_loop (waits Sample.child)
              (start_readers Sample.child)) as [r st] eqn:Hrun.
  assert (Hr : r = Returns tt).
  { vm_compute in Hrun. inversion Hrun. reflexivity. }
  subst r. exists st. split; [reflexivity|].
  split;
    [apply (pipe_processor_loop_reads Sample.child (waits Sample.child)
              (Returns tt) st Stdout)
    |apply (pipe_processor_loop_reads Sample.child (waits Sample.child)
              (Returns tt) st Stderr)];
    try (repeat constructor; discriminate); try exact Hrun; reflexivity.
Defined.

(** X6.  The loop never reads a reader twice in a row: between two reads
    of the same reader it has waited for readiness again. *)
Theorem pipe_processor_loop_reads_once (child : ChildRun)
  (ws : list WaitResult) :
  reads_once []
    (trace (snd (pipe_processor_loop ws (start_readers child))))
  = true.
Proof.
  destruct (pipe_processor_loop ws (start_readers child)) as [r st] eqn:Hrun.
  cbn [snd].
  refine (loop_preserves (fun st => reads_once [] (trace st) = true) _ _ ws
            (start_readers child) _ eq_refl r st Hrun).
  - intros st0 _ H. simpl. rewrite reads_once_select, H. reflexivity.
  - intros st0 answer Hnd H.
    destruct (ready_step st0 answer Hnd) as [Htr _]. cbv zeta in Htr.
    rewrite Htr. simpl app. rewrite reads_once_select, H.
    apply reads_once_pass; [apply NoDup_select; exact Hnd|reflexivity].
  - simpl. apply NoDup_cons. split; [|apply NoDup_singleton].
    intros H. apply list_elem_of_singleton in H. discriminate.
Qed.

(** X7.  However the loop ends (it returns, it raises, or the wait never
    returns), what each handler has received so far is a prefix of the
    lines of its stream: no line is invented, skipped or reordered, also
    when the draining is cut short. *)
Theorem pipe_processor_loop_partial (child : ChildRun)
  (ws : list WaitResult) (r : Outcome unit) (st : Readers) :
  real_chunks (stdout_chunks child) ->
  real_chunks (stderr_chunks child) ->
  pipe_processor_loop ws (start_readers child) = (r, st) ->
  (exists rest,
      Py.split Py.NL (stdout_text child) = lines Stdout (trace st) ++ rest)
  /\ (exists rest,
        Py.split Py.NL (stderr_text child)
        = lines Stderr (trace st) ++ rest).
Proof.
  intros Ho He Hrun.
  destruct (start_readers_inv child Ho He) as [Hnd Hinv].
  destruct (loop_invariant _ _ _ Hnd Hinv _ _ Hrun) as (_ & Hinv' & _).
  split.
  - destruct (Hinv' Stdout) as (_ & _ & _ & <-). eauto.
  - destruct (Hinv' Stderr) as (_ & _ & _ & <-). eauto.
Qed.

Lemma pipe_processor_loop_partial_witness :
  exists st,
    pipe_processor_loop (waits demo_cut_child) (start_readers demo_cut_child)
    = (Raises (select_error 9), st)
    /\ lines Stdout (trace st) = [[97]]
    /\ exists rest,
         Py.split Py.NL (stdout_text demo_cut_child)
         = lines Stdout (trace st) ++ rest.
Proof.
  destruct (pipe_processor_loop (waits demo_cut_child)
              (start_readers demo_cut_child)) as [r st] eqn:Hrun.
  assert (Hr : r = Raises (select_error 9)
               /\ lines Stdout (trace st) = [[97]]).
  { vm_compute in Hrun. inversion Hrun. split; reflexivity. }
  destruct Hr as [-> Hl]. exists st. split; [reflexivity|].
  split; [exact Hl|].
  apply (pipe_processor_loop_partial demo_cut_child (waits demo_cut_child)
           (Raises (select_error 9)) st);
    try (repeat constructor; discriminate). exact Hrun.
Defined.

Section Progress.

Lemma unlisted_nil (st : Readers) :
  (forall s, listed s st = false) -> processors st = [].
Proof.
  intros H. destruct (processors st) as [|s l] eqn:E; [reflexivity|].
  specialize (H s). unfold listed in H. rewrite E in H. simpl in H.
  rewrite stream_eqb_refl in H. discriminate.
Qed.

Lemma full_answer_ready (a : list Stream) (s : Stream) :
  full_answer (Ready a) = true -> existsb (stream_eqb s) a = true.
Proof.
  simpl. intros H. apply andb_true_iff in H as [H1 H2]. destruct s; auto.
Qed.

Lemma loop_progress (ws : list WaitResult) :
  forallb full_answer ws = true ->
  forall st : Readers,
    NoDup (processors st) ->
    (forall s,
        real_chunks (unread (_file (reader s st)))
        /\ (listed s st = true ->
            (length (unread (_file (reader s st)))
             < count_ready ws)%nat)) ->
    fst (pipe_processor_loop ws st) = Returns tt.
Proof.
  induction ws as [|w ws IH]; intros Hfull st Hnd Hinv.
  - rewrite loop_done; [reflexivity|]. apply unlisted_nil. intros s.
    destruct (listed s st) eqn:E; [|reflexivity].
    destruct (Hinv s) as [_ H]. specialize (H E).
    unfold count_ready in H. simpl in H. lia.
  - destruct (nil_or_not (processors st)) as [Hp|Hp];
      [rewrite (loop_done _ _ Hp); reflexivity|].
    simpl in Hfull. apply andb_true_iff in Hfull as [Hw Hfull].
    destruct w as [a|errno].
    + rewrite (loop_ready _ _ _ Hp).
      destruct (ready_step st a Hnd) as [_ Hrd]. cbv zeta in Hrd.
      apply IH; [exact Hfull| |].
      * apply for_each_ready; [apply NoDup_select; exact Hnd|exact Hnd|].
        intros s Hs. apply (select_listed st a s Hs).
      * intros s. specialize (Hrd s). destruct (Hinv s) as [Hr Hlen].
        rewrite (full_answer_ready a s Hw), andb_true_r in Hrd.
        destruct (listed s st) eqn:Hl.
        -- destruct Hrd as [-> ->].
           destruct (process_file (reader s st) Hr) as [-> ->].
           split; [apply real_chunks_tl, Hr|].
           specialize (Hlen eq_refl). unfold count_ready in *. simpl in Hlen.
           destruct (unread (_file (reader s st))); simpl in *;
             [discriminate|intros _; lia].
        -- destruct Hrd as [-> ->]. split; [exact Hr|discriminate].
    + rewrite (loop_fails _ _ _ Hp). simpl in Hw. rewrite Hw.
      apply IH; [exact Hfull|exact Hnd|].
      intros s. destruct (Hinv s) as [Hr Hlen].
      split; [destruct s; exact Hr|].
      intros Hl. unfold count_ready in *. simpl in Hlen.
      destruct s; apply Hlen, Hl.
Qed.

End Progress.

(** X8.  The loop finishes when the wait keeps answering: if every answer
    is an interruption or reports both streams ready, and the answers that
    report readiness outnumber the chunks of each stream, the loop returns
    (with both streams read to their end), however many interruptions come
    in between. *)
Theorem pipe_processor_loop_finishes (child : ChildRun) :
  forallb full_answer (waits child) = true ->
  real_chunks (stdout_chunks child) ->
  real_chunks (stderr_chunks child) ->
  (length (stdout_chunks child) < count_ready (waits child))%nat ->
  (length (stderr_chunks child) < count_ready (waits child))%nat ->
  drains child.
Proof.
  intros Hfull Ho He Hlo Hle. unfold drains.
  apply loop_progress; [exact Hfull|apply (start_readers_inv child Ho He)|].
  intros []; simpl; auto.
Qed.

Lemma pipe_processor_loop_finishes_witness : drains demo_full_child.
Proof.
  apply pipe_processor_loop_finishes;
    try reflexivity; try (repeat constructor; discriminate);
    unfold count_ready; simpl; lia.
Defined.

(** ** Failures that are not retried; the first attempt that ends
       otherwise *)

Section RetryUntil.

Variables (self : Command) (args' : list text) (kwargs : gmap string Value)
  (children : Z -> ChildRun).

(** The attempts before [last] fail, the attempt [last] ends otherwise:
    the loop ends as that attempt does. *)
Lemma get_output_from_until (d : Z -> Detail) (s : Z -> Command)
  (ev : Z -> list Event) (last : Z) (r : Outcome (text * text))
  (sl : Command) (evl : list Event) (n : nat) :
  spawns kwargs = true ->
  last <= retry_times (conf self) ->
  _get_output_once self args' kwargs (children last) = (r, sl, evl) ->
  is_policy_failure r = false ->
  forall (attempt : Z) (self0 : Command) (tr : list Event) (fuel : nat),
    conf self0 = conf self ->
    (attempt < last -> retry_step_ok (conf self) = true) ->
    attempt + Z.of_nat n = last ->
    (n < fuel)%nat ->
    (forall i, attempt <= i < last ->
       _get_output_once self args' kwargs (children i)
       = (Raises (CommandFailedException (d i)), s i, ev i)) ->
    get_output_from fuel attempt self0 args' kwargs children tr
    = (r, sl,
       tr ++ flat_map
               (fun i => ev i ++ retry_events (s i) args' kwargs i
                                   (CommandFailedException (d i)))
               (seqZ attempt (Z.of_nat n))
          ++ evl).
Proof.
  intros Hs Hlast Hl Hr.
  induction n as [|n IH]; intros attempt self0 tr fuel Hc Hok Hn Hf Hall;
    (destruct fuel as [|fuel]; [lia|]).
  - rewrite (get_output_from_step self args' kwargs children Hs _ _ _ _ Hc).
    assert (attempt = last) by lia. subst attempt. rewrite Hl.
    destruct r as [x|[]|]; try discriminate; reflexivity.
  - rewrite (get_output_from_step_ok self args' kwargs children Hs _ _ _ _ Hc)
      by (apply Hok; lia).
    rewrite (Hall attempt) by lia.
    assert (Hlt : (attempt <? retry_times (conf self)) = true)
      by (apply Z.ltb_lt; lia).
    rewrite Hlt.
    pose proof (once_keeps_conf self args' kwargs (children attempt)) as Hk.
    rewrite (Hall attempt) in Hk by lia. cbn [fst snd] in Hk.
    rewrite (IH (attempt + 1) (s attempt))
      by (auto; try lia; intros; first [apply Hok|apply Hall]; lia).
    rewrite (seqZ_cons attempt (Z.of_nat (S n))) by lia.
    replace (Z.pred (Z.of_nat (S n))) with (Z.of_nat n) by lia.
    replace (Z.succ attempt) with (attempt + 1) by lia.
    simpl flat_map. rewrite <- !app_assoc. reflexivity.
Qed.

(** No attempt calls the retry handler or sleeps. *)
Lemma once_no_retry_events (self0 : Command) (child : ChildRun) :
  count is_retry (snd (_get_output_once self0 args' kwargs child)) = 0%nat
  /\ count is_sleep (snd (_get_output_once self0 args' kwargs child))
     = 0%nat.
Proof.
  destruct (once_trace self0 args' kwargs child) as (rest & Hrest & ->).
  destruct (spawns kwargs); [|split; reflexivity].
  split; apply count_none; intros e [<-|He]; try reflexivity;
    rewrite forallb_forall in Hrest; specialize (Hrest e He);
    destruct e; try discriminate; reflexivity.
Qed.

End RetryUntil.

(** X10.  [get_output] ends as the first attempt ends that does not raise
    a policy failure, when nothing fails between the attempts (the retry
    handler is left out or is a callable whose calls return, and the delay
    is one that [time.sleep] accepts): if the attempts before attempt [k]
    (with [k] within the retry count) raise [CommandFailedException] and
    attempt [k] returns, raises something else or hangs, then [get_output]
    does the same, with the object as attempt [k] left it; the retry
    handler, when there is one, has been called [k] times and [k] sleeps
    have been made. *)
Theorem get_output_first_other_outcome (self : Command) (args' : list text)
  (kwargs : gmap string Value) (children : Z -> ChildRun) (k : Z)
  (r : Outcome (text * text)) (sk : Command) (evk : list Event) :
  0 <= k <= retry_times (conf self) ->
  (0 < k -> retry_step_ok (conf self) = true) ->
  (forall i, 0 <= i < k ->
     is_policy_failure
       (fst (fst (_get_output_once self args' kwargs (children i))))
     = true) ->
  _get_output_once self args' kwargs (children k) = (r, sk, evk) ->
  is_policy_failure r = false ->
  exists pre,
    get_output self args' kwargs children = (r, sk, pre ++ evk)
    /\ count is_retry (pre ++ evk)
       = (if truthy (retry_handler (conf self)) then Z.to_nat k else 0%nat)
    /\ count is_sleep (pre ++ evk) = Z.to_nat k.
Proof.
  intros Hk Hok Hfail Hlast Hr.
  set (A := fun i => _get_output_once self args' kwargs (children i)).
  set (d := fun i =>
              match fst (fst (A i)) with
              | Raises (CommandFailedException x) => x
              | _ => {| detail_ret := None; detail_out := None;
                        detail_err := None |}
              end).
  set (s := fun i => snd (fst (A i))).
  set (ev := fun i => snd (A i)).
  assert (HA : forall i, 0 <= i < k ->
             A i = (Raises (CommandFailedException (d i)), s i, ev i)).
  { intros i Hi. specialize (Hfail i Hi). unfold d, s, ev.
    fold (A i) in Hfail. destruct (A i) as [[[x|[]|] s'] e'];
      simpl in *; try discriminate. reflexivity. }
  destruct (once_no_retry_events args' kwargs self (children k))
    as [Hrk Hsk].
  rewrite Hlast in Hrk, Hsk. cbn [snd] in Hrk, Hsk.
  destruct (spawns kwargs) eqn:Hs.
  - exists (flat_map
              (fun i => ev i ++ retry_events (s i) args' kwargs i
                                  (CommandFailedException (d i)))
              (seqZ 0 k)).
    assert (Hblock : forall (p : Event -> bool) (extra : nat),
               (forall i, 0 <= i < k -> count p (ev i) = 0%nat) ->
               (forall i, 0 <= i < k ->
                  count p (retry_events (s i) args' kwargs i
                             (CommandFailedException (d i))) = extra) ->
               count p
                 (flat_map
                    (fun i => ev i ++ retry_events (s i) args' kwargs i
                                        (CommandFailedException (d i)))
                    (seqZ 0 k))
               = (extra * Z.to_nat k)%nat).
    { intros p extra H0 H1.
      rewrite (count_flat_map p _ extra (seqZ 0 k)).
      - rewrite length_seqZ. reflexivity.
      - intros i Hi. apply list_elem_of_In, elem_of_seqZ in Hi.
        rewrite count_app, H0, H1 by lia. reflexivity. }
    assert (Hconf : forall i, 0 <= i < k -> conf (s i) = conf self).
    { intros i Hi.
      pose proof (once_keeps_conf self args' kwargs (children i)) as Hc.
      fold (A i) in Hc. rewrite (HA i Hi) in Hc. exact Hc. }
    split; [|split].
    + unfold get_output.
      rewrite (get_output_from_until self args' kwargs children d s ev k r
                 sk evk (Z.to_nat k) Hs (proj2 Hk) Hlast Hr 0 self []
                 (S (Z.to_nat (retry_times (conf self)))));
        [|reflexivity|exact Hok|lia|lia|intros i Hi; apply HA; lia].
      rewrite Z2Nat.id by lia. reflexivity.
    + rewrite count_app, Hrk.
      rewrite (Hblock is_retry
                 (if truthy (retry_handler (conf self)) then 1 else 0)%nat).
      * destruct (truthy _); lia.
      * intros i Hi.
        pose proof (once_no_retry_events args' kwargs self (children i))
          as [H _].
        fold (A i) in H. rewrite (HA i Hi) in H. exact H.
      * intros i Hi. unfold retry_events. rewrite (Hconf i Hi).
        destruct (truthy _); reflexivity.
    + rewrite count_app, Hsk. rewrite (Hblock is_sleep 1%nat).
      * lia.
      * intros i Hi.
        pose proof (once_no_retry_events args' kwargs self (children i))
          as [_ H].
        fold (A i) in H. rewrite (HA i Hi) in H. exact H.
      * intros i Hi. unfold retry_events.
        destruct (truthy _); reflexivity.
  - assert (k = 0).
    { destruct (Z.eq_dec k 0) as [|Hne]; [assumption|].
      specialize (Hfail 0 ltac:(lia)).
      rewrite (once_refused _ _ _ _ Hs) in Hfail. discriminate. }
    subst k. rewrite (once_refused _ _ _ _ Hs) in Hlast.
    inversion Hlast; subst. exists [].
    split; [|split; [destruct (truthy _)|]; reflexivity].
    unfold get_output. cbn [get_output_from].
    rewrite (once_refused _ _ _ _ Hs). reflexivity.
Qed.

Lemma get_output_first_other_outcome_witness :
  exists s tr,
    get_output Sample.command [] ∅ demo_flaky
    = (Returns ([111; 107; 10], []), s, tr)
    /\ ret s = Some 0
    /\ count is_retry tr = 1%nat
    /\ count is_sleep tr = 1%nat.
Proof.
  destruct (_get_output_once Sample.command [] ∅ (demo_flaky 1))
    as [[r sk] evk] eqn:Hk.
  assert (Hr : r = Returns ([111; 107; 10], []) /\ ret sk = Some 0).
  { vm_compute in Hk. inversion Hk. split; reflexivity. }
  destruct Hr as [-> Hret].
  destruct (get_output_first_other_outcome Sample.command [] ∅ demo_flaky 1
              (Returns ([111; 107; 10], [])) sk evk)
    as (pre & H1 & H2 & H3).
  - simpl. lia.
  - intros _. reflexivity.
  - intros i Hi. assert (i = 0) by lia. subst i. reflexivity.
  - exact Hk.
  - reflexivity.
  - exists sk, (pre ++ evk). auto.
Defined.

Section FatalWait.

Implicit Types (self : Command) (kwargs : gmap string Value).

Lemma only_execute_keys_get_output kwargs :
  only_keys get_output_keys kwargs -> only_keys execute_keys kwargs.
Proof. intros H k Hk. apply H in Hk. simpl in *. tauto. Qed.

Lemma count_cut_events (p : Event -> bool) self (args' : list text) kwargs
  (ws : list WaitResult) (st0 : Readers) (r : Outcome unit) (st : Readers) :
  trace st0 = [] ->
  pipe_processor_loop ws st0 = (r, st) ->
  (forall e, is_io e = true -> p e = false) ->
  count p (spawn_events self args' kwargs ++ trace st)
  = count p (spawn_events self args' kwargs).
Proof.
  intros H0 Hrun Hp. destruct (loop_io _ _ _ _ Hrun) as (added & E & Hio).
  rewrite H0 in E. simpl in E.
  rewrite count_app, E, (count_io p added Hp Hio). lia.
Qed.

End FatalWait.

(** X9.  When the child has taken the input of the call and the readiness
    wait fails with an error other than EINTR, the attempt raises that
    error at once: the child is not waited for, the exit code stays unset,
    and the process handle stays on the object (a forwarded signal still
    reaches the child).  This is how [execute] ends when the line handlers
    of the object are callables whose calls return, and how [get_output]
    ends after this one attempt, whatever the retry count: it calls no
    retry handler and does not sleep. *)
Theorem fatal_wait_is_not_retried (self : Command) (args' : list text)
  (kwargs : gmap string Value) (children : Z -> ChildRun) (e : Exc)
  (st : Readers) :
  only_keys get_output_keys kwargs ->
  takes_input (default VNone (kwargs !! "stdin")) (children 0) = true ->
  pipe_processor_loop (waits (children 0)) (start_readers (children 0))
  = (Raises e, st) ->
  let s := during_attempt self args' kwargs in
  let tr := spawn_events self args' kwargs ++ trace st in
  (exists errno, e = select_error errno /\ errno <> EINTR)
  /\ (returns_normally (out_handler (conf self)) = true ->
      returns_normally (err_handler (conf self)) = true ->
      execute self args' kwargs (children 0) = (Raises e, s, tr))
  /\ get_output self args' kwargs children = (Raises e, s, tr)
  /\ count is_popen tr = 1%nat
  /\ count is_wait tr = 0%nat
  /\ count is_retry tr = 0%nat
  /\ count is_sleep tr = 0%nat.
Proof.
  intros Hk Hin Hrun s tr.
  pose proof (only_keys_spawns _ Hk) as Hs.
  assert (Herr : exists errno, e = select_error errno /\ errno <> EINTR).
  { clear -Hrun.
    assert (H : forall ws st0 e st1,
               pipe_processor_loop ws st0 = (Raises e, st1) ->
               exists errno, e = select_error errno /\ errno <> EINTR).
    { induction ws as [|w ws IH]; intros st0 e0 st1 H;
        destruct (nil_or_not (processors st0)) as [Hp|Hp];
        try (rewrite (loop_done _ _ Hp) in H; discriminate).
      - rewrite (loop_hangs _ Hp) in H. discriminate.
      - destruct w as [a|n].
        + rewrite (loop_ready _ _ _ Hp) in H. eapply IH, H.
        + rewrite (loop_fails _ _ _ Hp) in H.
          destruct (Z.eqb_spec n EINTR); [eapply IH, H|].
          inversion H. eauto. }
    eapply H, Hrun. }
  assert (Hne : Raises e <> Returns tt) by discriminate.
  assert (Honce : _get_output_once self args' kwargs (children 0)
                  = (Raises e, s, tr)).
  { apply (once_undrained self args' kwargs (children 0) _ st Hs Hin Hrun
             Hne). }
  split; [exact Herr|]. split; [|split].
  - intros Ho He.
    assert (Hnone : forall key : string,
               ~ In key get_output_keys -> kwargs !! key = None).
    { intros key Hn. destruct (kwargs !! key) eqn:E; [|reflexivity].
      exfalso. apply Hn, Hk. rewrite E. eauto. }
    rewrite execute_eq,
      (leftover_recognized _ (only_execute_keys_get_output _ Hk)).
    cbn [negb].
    rewrite (Hnone "out_handler"%string), (Hnone "err_handler"%string)
      by (simpl; intros [H|[H|[H|[H|[]]]]]; discriminate).
    apply (execute_body_cut self args' kwargs _ _ _ _ (children 0) _ st Hin
             Ho He Hrun Hne).
  - unfold get_output.
    rewrite (get_output_from_step self args' kwargs children Hs _ 0 self []
               eq_refl).
    rewrite Honce. destruct Herr as (n & -> & _). reflexivity.
  - subst tr.
    rewrite !(fun p =>
                count_cut_events p self args' kwargs (waits (children 0))
                  (start_readers (children 0)) (Raises e) st eq_refl Hrun)
      by (intros []; simpl; congruence).
    unfold spawn_events.
    destruct (truthy (default VNone (kwargs !! "stdin")));
      repeat split; reflexivity.
Qed.

(** A child on which the second wait fails with EBADF, driven by a command
    that would retry twice. *)
Lemma fatal_wait_is_not_retried_witness :
  exists s tr,
    get_output Sample.command [] ∅ (fun _ => demo_cut_child)
    = (Raises (select_error 9), s, tr)
    /\ pipe s <> None
    /\ ret s = None
    /\ count is_popen tr = 1%nat
    /\ count is_retry tr = 0%nat.
Proof.
  destruct (pipe_processor_loop (waits demo_cut_child)
              (start_readers demo_cut_child)) as [r st] eqn:Hrun.
  assert (Hr : r = Raises (select_error 9)).
  { vm_compute in Hrun. inversion Hrun. reflexivity. }
  subst r.
  destruct (fatal_wait_is_not_retried Sample.command [] ∅
              (fun _ => demo_cut_child) (select_error 9) st)
    as (_ & _ & Hg & Hp & _ & Hrt & _).
  - intros k [v Hv]. rewrite lookup_empty in Hv. discriminate.
  - reflexivity.
  - exact Hrun.
  - eexists _, _. split; [exact Hg|].
    split; [discriminate|]. split; [reflexivity|]. split; assumption.
Defined.

(** ** Precedence of the keywords of a call, and a successful execute *)

Section Precedence.

Implicit Types (self : Command) (kwargs : gmap string Value).

Lemma default_overridden kwargs (key : string) (v v' : Value) :
  (kwargs !! key = None -> v = v') ->
  default v (kwargs !! key) = default v' (kwargs !! key).
Proof. destruct (kwargs !! key); simpl; auto. Qed.

(** What [execute] lets the outside see depends on the command line and
    the environment only. *)
Lemma execute_body_observed self self' (args' : list text)
  (stdin check' allowed' close_fds' oh eh : Value) (child : ChildRun) :
  cmd (conf self) = cmd (conf self') ->
  args (conf self) = args (conf self') ->
  shell (conf self) = shell (conf self') ->
  env (conf self) = env (conf self') ->
  let a :=
    execute_body self args' stdin check' allowed' close_fds' oh eh child in
  let b :=
    execute_body self' args' stdin check' allowed' close_fds' oh eh child in
  fst (fst a) = fst (fst b) /\ snd a = snd b
  /\ pipe (snd (fst a)) = pipe (snd (fst b))
  /\ ret (snd (fst a)) = ret (snd (fst b))
  /\ out (snd (fst a)) = out (snd (fst b))
  /\ err (snd (fst a)) = err (snd (fst b)).
Proof.
  intros H1 H2 H3 H4. unfold execute_body, with_results, _build_pipe.
  cbn [conf pipe ret out err]. rewrite H1, H2, H3, H4.
  destruct (feed stdin child) as [[[]| e |] fed]; cbn [fst snd]; auto 10.
  destruct (pipe_processor_loop (waits child) (start_readers child))
    as [r st].
  destruct (run_handlers oh eh (trace st)) as [[[]| e |] io];
    cbn [fst snd]; auto 10.
  destruct r as [[]| e |]; cbn [fst snd]; auto 10.
  destruct (truthy check'); cbn [fst snd]; auto 10.
  unfold check_return_value. cbn [ret out err].
  destruct (py_in _ _) as [[]| e |]; cbn [fst snd pipe ret out err];
    auto 10.
Qed.

Lemma once_observed self self' (args' : list text) kwargs
  (child : ChildRun) :
  same_where_not_overridden kwargs (conf self) (conf self') ->
  fst (fst (_get_output_once self args' kwargs child))
  = fst (fst (_get_output_once self' args' kwargs child))
  /\ snd (_get_output_once self args' kwargs child)
     = snd (_get_output_once self' args' kwargs child).
Proof.
  intros (H1 & H2 & H3 & H4 & Hc & Ha & Hf).
  rewrite !once_eq. destruct (spawns kwargs); [|split; reflexivity].
  unfold effective_check, effective_allowed_retval.
  rewrite (default_overridden kwargs "check" _ _ Hc),
    (default_overridden kwargs "allowed_retval" _ _ Ha),
    (default_overridden kwargs "close_fds" _ _ Hf).
  unfold execute_body, with_results, _build_pipe.
  cbn [conf pipe ret out err]. rewrite H1, H2, H3, H4.
  destruct (feed (default VNone (kwargs !! "stdin")) child)
    as [[[]| e |] fed]; cbn [fst snd]; auto.
  destruct (pipe_processor_loop (waits child) (start_readers child))
    as [r st].
  destruct (run_handlers _ _ (trace st)) as [[[]| e |] io];
    cbn [fst snd]; auto.
  destruct r as [[]| e |]; cbn [truthy fst snd]; auto.
  cbv zeta. cbn [pipe ret out err].
  destruct (truthy (default (check (conf self')) (kwargs !! "check")));
    cbn [fst snd]; auto.
  unfold check_return_value. cbn [ret out err].
  destruct (py_in _ _) as [[]| e |]; cbn [fst snd]; auto.
Qed.

End Precedence.

(** X11.  A value given in the call takes precedence over the one given to
    the constructor.  Where the call names [check], [allowed_retval] or
    [close_fds], the constructor's value has no influence on how
    [_get_output_once] ends nor on what it does, and neither have the line
    handlers and the retry settings of the constructor.  The same holds of
    [execute], except for the line handlers: the constructor's one is used
    where the call names none, so there it has to be the same. *)
Theorem call_overrides_constructor (self self' : Command)
  (args' : list text) (kwargs : gmap string Value) (child : ChildRun) :
  same_where_not_overridden kwargs (conf self) (conf self') ->
  (same_handlers_where_not_overridden kwargs (conf self) (conf self') ->
   fst (fst (execute self args' kwargs child))
   = fst (fst (execute self' args' kwargs child))
   /\ snd (execute self args' kwargs child)
      = snd (execute self' args' kwargs child))
  /\ fst (fst (_get_output_once self args' kwargs child))
     = fst (fst (_get_output_once self' args' kwargs child))
  /\ snd (_get_output_once self args' kwargs child)
     = snd (_get_output_once self' args' kwargs child).
Proof.
  intros (H1 & H2 & H3 & H4 & Hc & Ha & Hf).
  split; [|split].
  - intros [Ho He].
    rewrite !execute_eq. destruct (negb _); [split; reflexivity|].
    rewrite (default_overridden kwargs "check" _ _ Hc),
      (default_overridden kwargs "allowed_retval" _ _ Ha),
      (default_overridden kwargs "close_fds" _ _ Hf),
      (default_overridden kwargs "out_handler" _ _ Ho),
      (default_overridden kwargs "err_handler" _ _ He).
    split; apply (execute_body_observed self self'); assumption.
  - apply (once_observed self self' args' kwargs child);
      repeat split; assumption.
  - apply (once_observed self self' args' kwargs child);
      repeat split; assumption.
Qed.

(** Two commands built with other defaults and other line handlers, and a
    call that names the three settings and its own handlers. *)
Lemma call_overrides_constructor_witness :
  fst (fst (execute Sample.command [] demo_full_overrides Sample.child))
  = fst (fst (execute demo_lenient_command [] demo_full_overrides
                Sample.child))
  /\ fst (fst (execute demo_lenient_command [] demo_full_overrides
                 Sample.child))
     = Raises (CommandFailedException
                 {| detail_ret := Some 1; detail_out := None;
                    detail_err := None |}).
Proof.
  split; [|reflexivity].
  apply (call_overrides_constructor Sample.command demo_lenient_command []
           demo_full_overrides Sample.child).
  - repeat split; try reflexivity; intros H; vm_compute in H; discriminate.
  - split; intros H; vm_compute in H; discriminate.
Defined.

(** X12.  [execute] on a call with recognized keywords, line handlers that
    are callables whose calls return, a child that takes the input of the
    call and is drained, and an exit code that is accepted or not checked:
    it returns the exit code; the object holds it in [ret], has no process
    handle, and its [out] and [err] are [None], whatever they held before;
    and the order of what it did is: the spawn, the write of the input if
    there is any, the closing of the input, then only waits and reads with
    their line handler calls, then the wait for the exit. *)
Theorem execute_returns_exit_code (self : Command) (args' : list text)
  (kwargs : gmap string Value) (child : ChildRun) :
  only_keys execute_keys kwargs ->
  takes_input (default VNone (kwargs !! "stdin")) child = true ->
  returns_normally (effective_out_handler self kwargs) = true ->
  returns_normally (effective_err_handler self kwargs) = true ->
  drains child ->
  truthy (effective_check self kwargs) = false
  \/ py_in (Some (returncode child)) (effective_allowed_retval self kwargs)
     = Returns true ->
  exists io,
    execute self args' kwargs child
    = (Returns (returncode child), after_attempt self child None None,
       [EvPopen (_build_pipe self args'
                   (default (close_fds (conf self))
                      (kwargs !! "close_fds")))]
         ++ (if truthy (default VNone (kwargs !! "stdin"))
             then [EvStdinWrite (default VNone (kwargs !! "stdin"))]
             else [])
         ++ [EvStdinClose] ++ io ++ [EvWait])
    /\ forallb is_io io = true.
Proof.
  intros Hk Hin Hoh Heh Hd Hok. unfold drains in Hd.
  destruct (pipe_processor_loop (waits child) (start_readers child))
    as [r st] eqn:Hrun.
  cbn [fst] in Hd. subst r.
  destruct (loop_io _ _ _ _ Hrun) as (io & E & Hio). simpl in E.
  exists io. split; [|exact Hio].
  rewrite execute_eq, (leftover_recognized _ Hk). cbn [negb].
  rewrite (execute_body_drained self args' kwargs _ _ _ _ child st Hin Hoh
             Heh Hrun).
  cbv zeta. unfold spawn_events. rewrite E.
  fold (effective_check self kwargs).
  fold (effective_allowed_retval self kwargs).
  assert (Etr : forall pre : list Event,
             (pre ++ io) ++ [EvWait] = pre ++ io ++ [EvWait])
    by (intros; rewrite <- app_assoc; reflexivity).
  destruct Hok as [Hc|Hpy].
  - rewrite Hc. rewrite <- !app_assoc. reflexivity.
  - destruct (truthy (effective_check self kwargs)).
    + unfold check_return_value. cbn [ret after_attempt]. rewrite Hpy.
      rewrite <- !app_assoc. reflexivity.
    + rewrite <- !app_assoc. reflexivity.
Qed.

Lemma execute_returns_exit_code_witness :
  exists s tr,
    execute demo_used_command [] {[ "stdin" := VBytes [120] ]} Sample.child
    = (Returns 1, s, tr)
    /\ ret s = Some 1 /\ out s = None /\ err s = None /\ pipe s = None
    /\ count is_popen tr = 1%nat.
Proof.
  destruct (execute_returns_exit_code demo_used_command []
              {[ "stdin" := VBytes [120] ]} Sample.child)
    as (io & H & Hio).
  - intros k [v Hv]. apply lookup_singleton_Some in Hv as [<- _].
    simpl. tauto.
  - reflexivity.
  - reflexivity.
  - reflexivity.
  - reflexivity.
  - left. reflexivity.
  - eexists _, _. split; [exact H|].
    repeat split.
    rewrite !count_app, (count_io is_popen io) by
      (exact Hio || (intros []; simpl; congruence)).
    reflexivity.
Defined.

(** ** Ssh, repeated forwarding, and the command line of the attempts *)

Section Suse.

Lemma suse_arg_no_colon (a : text) :
  Py.starts_with [COLON]
    (if Py.starts_with [COLON] a then Py.SPACE :: a else a) = false.
Proof.
  destruct (Py.starts_with [COLON] a) eqn:E; [reflexivity|exact E].
Qed.

End Suse.

(** X14.  The mangling of arguments for SUSE keeps the number and the
    order of the arguments, changes only those that start with a colon (by
    putting one blank in front), leaves no argument that starts with a
    colon, and applying it twice is the same as applying it once. *)
Theorem args_for_suse_properties (args : list text) :
  length (_args_for_suse args) = length args
  /\ Forall (fun a => Py.starts_with [COLON] a = false) (_args_for_suse args)
  /\ _args_for_suse (_args_for_suse args) = _args_for_suse args
  /\ (forall i a,
        args !! i = Some a ->
        _args_for_suse args !! i
        = Some (if Py.starts_with [COLON] a then Py.SPACE :: a else a)).
Proof.
  unfold _args_for_suse. split; [apply length_map|]. split; [|split].
  - apply List.Forall_forall. intros x Hx.
    apply in_map_iff in Hx as (a & <- & _). apply suse_arg_no_colon.
  - rewrite map_map. apply map_ext. intros a.
    rewrite suse_arg_no_colon. reflexivity.
  - intros i a H. rewrite list_lookup_fmap, H. reflexivity.
Qed.

Section Forwarding.

Lemma enable_times_installs (os : Platform) (owner : nat) (signal_id : Z) :
  settable os signal_id = true ->
  forall (n : nat) (table : gmap Z SigHandler),
  exists table',
    enable_times n os owner signal_id table = (Returns tt, table')
    /\ getsignal table' signal_id
       = Nat.iter n (Forwarder owner signal_id) (getsignal table signal_id).
Proof.
  intros Hs. induction n as [|n IH]; intros table.
  - exists table. split; reflexivity.
  - cbn [enable_times]. rewrite (enable_installs _ _ _ _ Hs).
    destruct (IH (<[signal_id := Forwarder owner signal_id
                                   (getsignal table signal_id)]> table))
      as (table' & E & G).
    exists table'. split; [exact E|].
    rewrite G, getsignal_insert, Nat.iter_succ_r. reflexivity.
Qed.

(** The closure called while its object has a child: the signal goes to
    the child first. *)
Lemma forwarder_sends_first (objs : nat -> Command) (owner : nat)
  (p : Popen) (signal_id sig : Z) (old : SigHandler) :
  pipe (objs owner) = Some p ->
  snd (run_handler (Forwarder owner signal_id old) objs sig)
  = EvSendSignal owner signal_id :: snd (run_handler old objs sig).
Proof.
  intros Hp. cbn [run_handler]. rewrite Hp.
  destruct old as [| | |id r|o id old']; try reflexivity.
  - destruct (signal_id =? SIGTERM); reflexivity.
  - destruct (run_handler (Forwarder o id old') objs sig) as [r ev].
    reflexivity.
Qed.

End Forwarding.

(** X13.  Forwarding adds up: on a signal that can be given a handler,
    [n] calls of [enable_signal_forwarding] on an object all install their
    closure, and one delivery of that signal while the object has a live
    child then sends the signal to that child [n] times before anything
    that the handler installed before does. *)
Theorem forwarding_adds_up (os : Platform) (n : nat) (owner : nat)
  (objs : nat -> Command) (table : gmap Z SigHandler) (p : Popen)
  (signal_id : Z) :
  settable os signal_id = true ->
  pipe (objs owner) = Some p ->
  exists table',
    enable_times n os owner signal_id table = (Returns tt, table')
    /\ snd (deliver table' objs signal_id)
       = repeat (EvSendSignal owner signal_id) n
           ++ snd (deliver table objs signal_id).
Proof.
  intros Hs Hp.
  destruct (enable_times_installs os owner signal_id Hs n table)
    as (table' & E & G).
  exists table'. split; [exact E|].
  unfold deliver. rewrite G. clear E G.
  induction n as [|n IH]; [reflexivity|].
  rewrite Nat.iter_succ.
  rewrite (forwarder_sends_first objs owner p _ _ _ Hp), IH. reflexivity.
Qed.

Lemma forwarding_adds_up_witness :
  exists table',
    enable_times 2 linux 1 SIGTERM {[ SIGTERM := SIG_IGN ]}
    = (Returns tt, table')
    /\ snd (deliver table' demo_objs SIGTERM)
       = [EvSendSignal 1 SIGTERM; EvSendSignal 1 SIGTERM].
Proof.
  destruct (forwarding_adds_up linux 2 1 demo_objs {[ SIGTERM := SIG_IGN ]}
              (_build_pipe Sample.command [] (VBool true)) SIGTERM
              eq_refl eq_refl) as (table' & E & H).
  exists table'. split; [exact E|]. rewrite H. reflexivity.
Defined.

Lemma args_for_suse_properties_witness :
  _args_for_suse [[58; 97]; [98]; [32; 58; 99]]
  = [[32; 58; 97]; [98]; [32; 58; 99]]
  /\ _args_for_suse [[58; 97]; [98]; [32; 58; 99]] !! 0%nat
     = Some [32; 58; 97].
Proof.
  split; [reflexivity|].
  exact (proj2 (proj2 (proj2 (args_for_suse_properties
                                [[58; 97]; [98]; [32; 58; 99]])))
           0%nat [58; 97] eq_refl).
Defined.

Section Spawns.

Variables (self : Command) (args' : list text) (kwargs : gmap string Value)
  (children : Z -> ChildRun).

Lemma spawned_app (a b : list Event) :
  spawned (a ++ b) = spawned a ++ spawned b.
Proof.
  induction a as [|e a IH]; [reflexivity|].
  destruct e; simpl; rewrite ?IH; reflexivity.
Qed.

Lemma spawned_io (l : list Event) : forallb is_io l = true -> spawned l = [].
Proof.
  induction l as [|e l IH]; [reflexivity|]. simpl.
  intros H. apply andb_true_iff in H as [He Hl].
  destruct e; simpl in *; try discriminate; apply IH, Hl.
Qed.

Lemma spawned_after_spawn (l : list Event) :
  forallb after_spawn l = true -> spawned l = [].
Proof.
  induction l as [|e l IH]; [reflexivity|]. simpl.
  intros H. apply andb_true_iff in H as [He Hl].
  destruct e; simpl in *; try discriminate; apply IH, Hl.
Qed.

(** One attempt spawns at most once, and then this command line. *)
Lemma once_spawned (child : ChildRun) :
  exists n, spawned (snd (_get_output_once self args' kwargs child))
            = repeat (call_line self args' kwargs) n.
Proof.
  destruct (once_trace self args' kwargs child) as (rest & Hrest & ->).
  destruct (spawns kwargs); [|exists 0%nat; reflexivity].
  exists 1%nat. cbn [spawned].
  rewrite (spawned_after_spawn _ Hrest). reflexivity.
Qed.

(** Nothing is spawned between two attempts. *)
Lemma before_retry_spawns_nothing (s : Command) (attempt : Z) (exc : Exc) :
  spawned (snd (before_retry s args' kwargs attempt exc)) = [].
Proof.
  unfold before_retry, call_retry_handler, time_sleep.
  assert (Hsleep :
            forall called,
              spawned called = [] ->
              spawned
                (snd (let '(r', slept) :=
                        if (retry_sleep (conf s) <? - SLEEP_MAX)
                           || (SLEEP_MAX <? retry_sleep (conf s))
                        then (Raises OverflowError, [])
                        else if retry_sleep (conf s) <? 0
                             then (Raises ValueError, [])
                             else (Returns tt,
                                   [EvSleep (retry_sleep (conf s))])
                      in (r', called ++ slept))) = []).
  { intros called Hc.
    destruct ((retry_sleep (conf s) <? - SLEEP_MAX)
              || (SLEEP_MAX <? retry_sleep (conf s)));
      [|destruct (retry_sleep (conf s) <? 0)];
      cbn [snd]; rewrite spawned_app, Hc; reflexivity. }
  destruct (truthy (retry_handler (conf s))); [|apply Hsleep; reflexivity].
  destruct (retry_handler (conf s)) as [| | | | |[| |id []]];
    cbn [after_call snd]; try reflexivity; apply Hsleep; reflexivity.
Qed.

Lemma get_output_from_spawned (fuel : nat) :
  spawns kwargs = true ->
  forall (attempt : Z) (self0 : Command) (tr : list Event),
    conf self0 = conf self ->
    exists n,
      spawned (snd (get_output_from fuel attempt self0 args' kwargs children
                      tr))
      = spawned tr ++ repeat (call_line self args' kwargs) n.
Proof.
  intros Hs. induction fuel as [|fuel IH]; intros attempt self0 tr Hc.
  - exists 0%nat. simpl. rewrite app_nil_r. reflexivity.
  - rewrite (get_output_from_step self args' kwargs children Hs _ _ _ _ Hc).
    destruct (once_spawned (children attempt)) as [n Hn].
    pose proof (once_keeps_conf self args' kwargs (children attempt)) as Hk.
    destruct (_get_output_once self args' kwargs (children attempt))
      as [[r s] ev]. cbn [fst snd] in *.
    assert (Hdone : spawned (tr ++ ev)
                    = spawned tr ++ repeat (call_line self args' kwargs) n)
      by (rewrite spawned_app, Hn; reflexivity).
    destruct r as [x|[d| | | | | | | | |]|]; cbn [snd];
      try (exists n; exact Hdone).
    destruct (attempt <? retry_times (conf self)).
    + pose proof (before_retry_spawns_nothing s attempt
                    (CommandFailedException d)) as Hb.
      destruct (before_retry s args' kwargs attempt
                  (CommandFailedException d)) as [r' ev'].
      cbn [snd] in Hb.
      assert (Hdone' : spawned ((tr ++ ev) ++ ev')
                       = spawned tr ++ repeat (call_line self args' kwargs) n)
        by (rewrite spawned_app, Hb, app_nil_r; exact Hdone).
      destruct r' as [[]| e |]; cbn [snd]; try (exists n; exact Hdone').
      destruct (IH (attempt + 1) s ((tr ++ ev) ++ ev') Hk) as [m Hm].
      exists (n + m)%nat. rewrite Hm, Hdone', repeat_app, <- app_assoc.
      reflexivity.
    + destruct (attempt =? 0); cbn [snd]; exists n; exact Hdone.
Qed.

End Spawns.

(** X15.  All the spawns of one call of [get_output] run one and the same
    command line, the command with the arguments of the constructor and
    those of the call, retries included; through [Ssh.get_output] the
    arguments of the call are the mangled ones, so none of them starts with
    a colon. *)
Theorem every_attempt_runs_the_same_command (self : Command)
  (args' : list text) (kwargs : gmap string Value)
  (children : Z -> ChildRun) :
  (exists n,
      spawned (snd (get_output self args' kwargs children))
      = repeat (call_line self args' kwargs) n)
  /\ (exists n,
        spawned (snd (ssh_get_output self args' kwargs children))
        = repeat (call_line self (_args_for_suse args') kwargs) n)
  /\ call_line self args' kwargs
     = if shell (conf self)
       then ShellString
              (full_command_quote (cmd (conf self))
                 (Some (args (conf self) ++ args')))
       else ArgV (cmd (conf self) :: args (conf self) ++ args').
Proof.
  assert (H : forall a,
             exists n,
               spawned (snd (get_output self a kwargs children))
               = repeat (call_line self a kwargs) n).
  { intros a. unfold get_output. destruct (spawns kwargs) eqn:Hs.
    - apply (get_output_from_spawned self a kwargs children _ Hs 0 self []
               eq_refl).
    - exists 0%nat. cbn [get_output_from].
      rewrite (once_refused _ _ _ _ Hs). reflexivity. }
  split; [apply H|]. split; [apply (H (_args_for_suse args'))|].
  reflexivity.
Qed.

(** ** Logging handlers, and what a call returns *)

Section Logging.

Lemma handler_messages_eq (prefix : option text) (line : text) :
  handler_messages prefix line
  = if nonempty line then [default [] prefix ++ line] else [].
Proof. destruct line, prefix as [[|c p]|]; reflexivity. Qed.

Lemma flat_map_logging (level : Z) (prefix : option text)
  (ls : list text) :
  flat_map (make_logging_handler level prefix) ls
  = map (fun l => (level, default [] prefix ++ l)) (List.filter nonempty ls).
Proof.
  induction ls as [|l ls IH]; [reflexivity|].
  simpl. unfold make_logging_handler at 1.
  rewrite handler_messages_eq, IH. destruct (nonempty l); reflexivity.
Qed.

End Logging.

(** X18.  A stream read through a reader whose handler was built by
    [make_logging_handler]: the logger receives one record for every
    non-empty line of the stream, in order, at the level of the handler
    and with its prefix in front; blank lines, and the empty rest after a
    final newline, are never logged. *)
Theorem logging_handler_skips_empty_lines (level : Z)
  (prefix : option text) (chunks : list bytes) :
  real_chunks chunks ->
  flat_map (make_logging_handler level prefix) <$> lines_of_chunks chunks
  = Some (map (fun l => (level, default [] prefix ++ l))
            (List.filter nonempty (Py.split Py.NL (decoded chunks)))).
Proof.
  intros H. rewrite (lines_of_chunks_decoded chunks H). simpl.
  rewrite flat_map_logging. reflexivity.
Qed.

Lemma logging_handler_skips_empty_lines_witness :
  flat_map (make_logging_handler 20 (Some [62; 32]))
  <$> lines_of_chunks [[97; 10; 10]; [98; 10]]
  = Some [(20, [62; 32; 97]); (20, [62; 32; 98])].
Proof.
  exact (logging_handler_skips_empty_lines 20 (Some [62; 32])
           [[97; 10; 10]; [98; 10]]
           ltac:(repeat constructor; discriminate)).
Defined.

Section Returned.

Variables (self : Command) (args' : list text) (kwargs : gmap string Value)
  (children : Z -> ChildRun).

(** An attempt that returns has spawned its child, drained and reaped it,
    and found its exit code accepted, unless the check is off. *)
Lemma once_returned (child : ChildRun) (x : text * text) (s : Command)
  (ev : list Event) :
  _get_output_once self args' kwargs child = (Returns x, s, ev) ->
  exists st,
    pipe_processor_loop (waits child) (start_readers child) = (Returns tt, st)
    /\ s = after_attempt self child (Some (fst x)) (Some (snd x))
    /\ x = (Py.join [Py.NL] (lines Stdout (trace st)),
            Py.join [Py.NL] (lines Stderr (trace st)))
    /\ (truthy (effective_check self kwargs) = true ->
        py_in (Some (returncode child))
          (effective_allowed_retval self kwargs) = Returns true).
Proof.
  intros H.
  destruct (spawns kwargs) eqn:Hs;
    [|rewrite (once_refused _ _ _ _ Hs) in H; discriminate].
  destruct (takes_input (default VNone (kwargs !! "stdin")) child) eqn:Hin.
  2:{ rewrite (once_unfed _ _ _ _ Hs Hin) in H.
      destruct (fst (feed (default VNone (kwargs !! "stdin")) child))
        as [[]| e |]; discriminate. }
  destruct (pipe_processor_loop (waits child) (start_readers child))
    as [r st] eqn:Hrun.
  destruct r as [[]| e |].
  - exists st. rewrite (once_drained _ _ _ _ st Hs Hin Hrun) in H.
    cbv zeta in H.
    destruct (truthy (effective_check self kwargs)).
    + unfold check_return_value in H. cbn [ret after_attempt] in H.
      destruct (py_in _ _) as [[]| e |] eqn:Hpy; try discriminate.
      inversion H; subst. auto.
    + inversion H; subst. repeat split; auto. discriminate.
  - rewrite (once_undrained _ _ _ _ _ st Hs Hin Hrun) in H by discriminate.
    discriminate.
  - rewrite (once_undrained _ _ _ _ _ st Hs Hin Hrun) in H by discriminate.
    discriminate.
Qed.

(** What [get_output] returns is what one of its attempts returned, and
    the object is as that attempt left it. *)
Lemma get_output_from_returned (fuel : nat) :
  spawns kwargs = true ->
  forall (attempt : Z) (self0 : Command) (tr : list Event)
         (x : text * text) (s : Command) (tr' : list Event),
    conf self0 = conf self ->
    get_output_from fuel attempt self0 args' kwargs children tr
    = (Returns x, s, tr') ->
    exists k ev,
      attempt <= k <= Z.max attempt (retry_times (conf self))
      /\ _get_output_once self args' kwargs (children k)
         = (Returns x, s, ev).
Proof.
  intros Hs. induction fuel as [|fuel IH];
    intros attempt self0 tr x s tr' Hc Hrun; [discriminate|].
  rewrite (get_output_from_step self args' kwargs children Hs _ _ _ _ Hc)
    in Hrun.
  destruct (_get_output_once self args' kwargs (children attempt))
    as [[r s1] ev] eqn:Honce.
  pose proof (once_keeps_conf self args' kwargs (children attempt)) as Hk.
  rewrite Honce in Hk. cbn [fst snd] in Hk.
  destruct r as [y|[d| | | | | | | | |]|]; try discriminate.
  - inversion Hrun; subst. exists attempt, ev. split; [lia|exact Honce].
  - destruct (attempt <? retry_times (conf self)) eqn:Hlt.
    + apply Z.ltb_lt in Hlt.
      destruct (before_retry s1 args' kwargs attempt
                  (CommandFailedException d)) as [[[]| e |] ev'];
        try discriminate.
      destruct (IH _ _ _ _ _ _ Hk Hrun) as (k & ev'' & Hle & Ho).
      exists k, ev''. split; [lia|exact Ho].
    + destruct (attempt =? 0); discriminate.
Qed.

End Returned.

(** X19.  What [__call__] returns is the exit code of the child of one of
    the attempts, the one the object holds in [ret] afterwards, with no
    process handle left; and when the exit-code check is enabled for the
    call, a returned code is one of the accepted ones. *)
Theorem call_returns_accepted_code (self : Command) (args' : list text)
  (kwargs : gmap string Value) (children : Z -> ChildRun) (v : option Z)
  (s : Command) (tr : list Event) :
  call self args' kwargs children = (Returns v, s, tr) ->
  exists k,
    0 <= k <= Z.max 0 (retry_times (conf self))
    /\ v = Some (returncode (children k))
    /\ ret s = v
    /\ pipe s = None
    /\ (truthy (effective_check self kwargs) = true ->
        py_in v (effective_allowed_retval self kwargs) = Returns true).
Proof.
  unfold call.
  destruct (get_output self args' kwargs children) as [[r s'] tr'] eqn:Hg.
  destruct r as [x| |]; try discriminate.
  intros H. inversion H; subst. clear H.
  unfold get_output in Hg.
  destruct (spawns kwargs) eqn:Hs.
  - destruct (get_output_from_returned self args' kwargs children _ Hs _ _ _
                _ _ _ eq_refl Hg) as (k & ev & Hk & Ho).
    destruct (once_returned self args' kwargs _ _ _ _ Ho)
      as (st & _ & -> & _ & Hacc).
    exists k. repeat split; try lia; try reflexivity. exact Hacc.
  - cbn [get_output_from] in Hg. rewrite (once_refused _ _ _ _ Hs) in Hg.
    discriminate.
Qed.

Lemma call_returns_accepted_code_witness :
  exists s tr,
    call Sample.command [] ∅ demo_flaky = (Returns (Some 0), s, tr)
    /\ ret s = Some 0
    /\ py_in (Some 0) (effective_allowed_retval Sample.command ∅)
       = Returns true.
Proof.
  destruct (call Sample.command [] ∅ demo_flaky) as [[r s] tr] eqn:Hc.
  assert (Hr : r = Returns (Some 0)).
  { vm_compute in Hc. inversion Hc. reflexivity. }
  subst r.
  destruct (call_returns_accepted_code Sample.command [] ∅ demo_flaky
              (Some 0) s tr Hc) as (k & _ & _ & Hret & _ & Hacc).
  exists s, tr. split; [reflexivity|]. split; [exact Hret|].
  apply Hacc. reflexivity.
Defined.

(** ** The constructor *)

Section Init.

Lemma env_overlay_lookup (a : InitArgs) (k : text) :
  env_overlay a !! k
  = if text_truthy (init_path a) && bool_decide (k = PATH)
    then init_path a
    else default ∅ (init_env_append a) !! k.
Proof.
  unfold env_overlay. destruct (init_path a) as [[|c p]|]; simpl; auto.
  case_bool_decide as Hk.
  - subst k. apply lookup_insert_eq.
  - apply lookup_insert_ne. congruence.
Qed.

End Init.

(** X16.  The environment that the constructor prepares for the child.
    It is [None] (the child inherits the environment) exactly when no
    variable is to be added and no path is given.  Otherwise it holds,
    under [PATH], the path given to the constructor, which wins over a
    [PATH] among the added variables and over the inherited one; under any
    other name, the added variable of that name, or else the inherited
    one. *)
Theorem init_env_lookup (environ : gmap text text) (a : InitArgs) :
  (init_env environ a = None <->
   default ∅ (init_env_append a) = ∅ /\ text_truthy (init_path a) = false)
  /\ forall m,
       init_env environ a = Some m ->
       (text_truthy (init_path a) = true -> m !! PATH = init_path a)
       /\ forall k,
            text_truthy (init_path a) = false \/ k <> PATH ->
            m !! k
            = match default ∅ (init_env_append a) !! k with
              | Some v => Some v
              | None => environ !! k
              end.
Proof.
  unfold init_env. split.
  - destruct (Nat.eqb (size (env_overlay a)) 0) eqn:E; simpl.
    + apply Nat.eqb_eq, map_size_empty_iff in E. split; [intros _|auto].
      unfold env_overlay in E. destruct (text_truthy (init_path a)).
      * exfalso. apply (insert_non_empty _ _ _ E).
      * auto.
    + split; [discriminate|]. intros [H1 H2]. exfalso.
      apply Nat.eqb_neq in E. apply E, map_size_empty_iff.
      unfold env_overlay. rewrite H2. exact H1.
  - intros m. destruct (negb _); [|discriminate].
    intros H. inversion H; subst. clear H. split.
    + intros Hp. rewrite lookup_union, env_overlay_lookup, Hp.
      rewrite bool_decide_eq_true_2 by reflexivity. simpl.
      destruct (init_path a) as [[|c p]|]; try discriminate.
      destruct (environ !! PATH); reflexivity.
    + intros k Hk. rewrite lookup_union, env_overlay_lookup.
      assert (E : text_truthy (init_path a) && bool_decide (k = PATH)
                  = false).
      { destruct Hk as [->|Hk]; [reflexivity|].
        rewrite bool_decide_eq_false_2 by exact Hk. apply andb_false_r. }
      rewrite E.
      destruct (default ∅ (init_env_append a) !! k),
        (environ !! k); reflexivity.
Qed.

Lemma init_env_lookup_witness :
  exists m,
    init_env demo_environ demo_init_args = Some m
    /\ m !! PATH = Some [47; 98; 105; 110]
    /\ m !! [76; 65; 78; 71] = Some [67]
    /\ m !! [72; 79; 77; 69] = Some [47; 114; 111; 111; 116].
Proof.
  destruct (init_env demo_environ demo_init_args) as [m|] eqn:E;
    [|vm_compute in E; discriminate].
  destruct (proj2 (init_env_lookup demo_environ demo_init_args) m E)
    as [H1 H2].
  exists m. split; [reflexivity|]. split; [apply H1; reflexivity|].
  split; (rewrite H2; [reflexivity|right; discriminate]).
Defined.

(** X17.  The constructor fails with "<cmd> not in PATH" exactly when the
    command is not run through a shell and [which] finds nothing for it;
    otherwise the object runs the command as given (shell mode) or by the
    path that [which] found, which is what a later spawn starts, followed
    by the arguments of the constructor and those of the call; it holds no
    results and no process handle, and it always has line handlers: one
    that is missing is replaced by the logging handler. *)
Theorem init_command_resolution
  (which : text -> option text -> option text) (environ : gmap text text)
  (a : InitArgs) :
  (init_command which environ a = NotInPath (init_cmd a ++ NOT_IN_PATH)
   <-> init_shell a = false
       /\ text_truthy (which (init_cmd a) (init_path a)) = false)
  /\ forall c,
       init_command which environ a = Built c ->
       (init_shell a = true -> cmd (conf c) = init_cmd a)
       /\ (init_shell a = false ->
           which (init_cmd a) (init_path a) = Some (cmd (conf c))
           /\ cmd (conf c) <> []
           /\ forall args' close_fds',
                popen_cmd (_build_pipe c args' close_fds')
                = ArgV (cmd (conf c) :: default [] (init_args a) ++ args'))
       /\ pipe c = None /\ ret c = None /\ out c = None /\ err c = None
       /\ truthy (out_handler (conf c)) = true
       /\ truthy (err_handler (conf c)) = true.
Proof.
  unfold init_command. split.
  - destruct (init_shell a).
    + split; [discriminate|intros [H _]; discriminate].
    + destruct (which (init_cmd a) (init_path a)) as [[|c p]|]; simpl;
        split; auto; try discriminate; intros [_ H]; discriminate.
  - intros c H.
    assert (Hh : forall (v : Value) (h : Handler),
               truthy (if truthy v then v else VCallable h) = true)
      by (intros v h; destruct (truthy v) eqn:E; [exact E|reflexivity]).
    destruct (init_shell a) eqn:Hsh.
    + inversion H; subst. cbn. rewrite !Hh.
      repeat split; auto; discriminate.
    + destruct (which (init_cmd a) (init_path a)) as [[|x p]|] eqn:Hw;
        try discriminate.
      inversion H; subst. cbn. rewrite !Hh.
      repeat split; auto; discriminate.
Qed.

Lemma init_command_resolution_witness :
  (exists c,
      init_command demo_which demo_environ demo_init_args = Built c
      /\ cmd (conf c) = [47; 98; 105; 110; 47; 108; 115])
  /\ init_command (fun _ _ => None) demo_environ demo_init_args
     = NotInPath [108; 115; 32; 110; 111; 116; 32; 105; 110; 32; 80; 65;
                  84; 72].
Proof.
  split.
  - destruct (init_command demo_which demo_environ demo_init_args)
      as [c|msg] eqn:E; [|vm_compute in E; discriminate].
    exists c. split; [reflexivity|].
    destruct (proj2 (init_command_resolution demo_which demo_environ
                       demo_init_args) c E) as (_ & H & _).
    destruct (H eq_refl) as (Hw & _).
    change (demo_which (init_cmd demo_init_args) (init_path demo_init_args))
      with (Some [47; 98; 105; 110; 47; 108; 115]) in Hw.
    inversion Hw. reflexivity.
  - apply (proj1 (init_command_resolution (fun _ _ => None) demo_environ
                    demo_init_args)).
    split; reflexivity.
Defined.

(** ** Line handlers in the keywords of get_output *)

(** X20.  [get_output] and [__call__] accept no line handler of their own:
    a call that names [out_handler] or [err_handler] raises [TypeError]
    (the call of [execute] inside already names both) before anything is
    spawned, and the object is left as it was; [execute] takes the same
    keywords. *)
Theorem get_output_refuses_handlers (self : Command) (args' : list text)
  (kwargs : gmap string Value) (children : Z -> ChildRun) (key : string) :
  key = "out_handler"%string \/ key = "err_handler"%string ->
  is_Some (kwargs !! key) ->
  get_output self args' kwargs children = (Raises TypeError, self, [])
  /\ call self args' kwargs children = (Raises TypeError, self, [])
  /\ In key execute_keys.
Proof.
  intros Hkey [v Hv].
  assert (Hs : spawns kwargs = false).
  { unfold spawns, has_key.
    destruct Hkey as [-> | ->]; rewrite Hv; [reflexivity|].
    rewrite orb_true_r. reflexivity. }
  assert (Hg : get_output self args' kwargs children
               = (Raises TypeError, self, [])).
  { unfold get_output. cbn [get_output_from].
    rewrite (once_refused _ _ _ _ Hs). reflexivity. }
  split; [exact Hg|]. split; [unfold call; rewrite Hg; reflexivity|].
  destruct Hkey as [-> | ->]; simpl; tauto.
Qed.

Lemma get_output_refuses_handlers_witness :
  get_output Sample.command []
    {[ "out_handler" := VCallable (user_callable 3 Done) ]} Sample.children
  = (Raises TypeError, Sample.command, [])
  /\ fst (fst (execute Sample.command []
                 {[ "out_handler" := VCallable (user_callable 3 Done) ]}
                 Sample.child))
     <> Raises TypeError.
Proof.
  split; [|vm_compute; discriminate].
  apply (get_output_refuses_handlers Sample.command []
           {[ "out_handler" := VCallable (user_callable 3 Done) ]}
           Sample.children "out_handler").
  - left. reflexivity.
  - rewrite lookup_singleton_eq. eauto.
Defined.

(** ** What ends a call early *)

Section Input.

Implicit Types (self : Command) (kwargs : gmap string Value).

Lemma get_output_once_only self (args' : list text) kwargs
  (children : Z -> ChildRun) (r : Outcome (text * text)) (s : Command)
  (ev : list Event) :
  _get_output_once self args' kwargs (children 0) = (r, s, ev) ->
  is_policy_failure r = false ->
  get_output self args' kwargs children = (r, s, ev).
Proof.
  intros Ho Hr. unfold get_output. cbn [get_output_from].
  rewrite Ho. destruct r as [x|[]|]; try discriminate; reflexivity.
Qed.

Lemma call_raises self (args' : list text) kwargs
  (children : Z -> ChildRun) (e : Exc) (s : Command) (tr : list Event) :
  get_output self args' kwargs children = (Raises e, s, tr) ->
  call self args' kwargs children = (Raises e, s, tr).
Proof. intros H. unfold call. rewrite H. reflexivity. Qed.

Lemma only_keys_lookup kwargs (key : string) :
  only_keys get_output_keys kwargs ->
  ~ In key get_output_keys -> kwargs !! key = None.
Proof.
  intros Hk Hn. destruct (kwargs !! key) eqn:E; [|reflexivity].
  exfalso. apply Hn, Hk. rewrite E. eauto.
Qed.

End Input.

(** X21.  Input that is not bytes is refused after the spawn: a call whose
    [stdin] is a true value other than bytes starts the child, then raises
    [TypeError] without having written anything or closed the input; the
    process handle stays on the object, the child is not waited for, and
    [get_output] makes no further attempt whatever the retry count. *)
Theorem stdin_must_be_bytes (self : Command) (args' : list text)
  (kwargs : gmap string Value) (children : Z -> ChildRun) (stdin : Value) :
  only_keys get_output_keys kwargs ->
  kwargs !! "stdin" = Some stdin ->
  truthy stdin = true ->
  (forall b, stdin <> VBytes b) ->
  let s := during_attempt self args' kwargs in
  let tr :=
    [EvPopen (_build_pipe self args'
                (default (close_fds (conf self)) (kwargs !! "close_fds")))] in
  execute self args' kwargs (children 0) = (Raises TypeError, s, tr)
  /\ get_output self args' kwargs children = (Raises TypeError, s, tr)
  /\ call self args' kwargs children = (Raises TypeError, s, tr).
Proof.
  intros Hk Hst Ht Hnb s tr.
  pose proof (only_keys_spawns _ Hk) as Hs.
  assert (Hfeed : feed stdin (children 0) = (Raises TypeError, [])).
  { unfold feed. rewrite Ht. destruct stdin; try reflexivity.
    exfalso. eapply Hnb. reflexivity. }
  assert (Hin : takes_input (default VNone (kwargs !! "stdin")) (children 0)
                = false).
  { rewrite Hst. cbn [from_option id]. unfold takes_input. rewrite Ht.
    destruct stdin; try reflexivity. exfalso. eapply Hnb. reflexivity. }
  assert (Hg : get_output self args' kwargs children
               = (Raises TypeError, s, tr)).
  { apply get_output_once_only; [|reflexivity].
    rewrite (once_unfed _ _ _ _ Hs Hin), Hst. cbn [from_option id].
    rewrite Hfeed. reflexivity. }
  split; [|split; [exact Hg|apply call_raises, Hg]].
  rewrite execute_eq,
    (leftover_recognized _ (only_execute_keys_get_output _ Hk)).
  cbn [negb].
  rewrite (execute_body_unfed _ _ _ _ _ _ _ _ Hin), Hst. cbn [from_option id].
  rewrite Hfeed. reflexivity.
Qed.

Lemma stdin_must_be_bytes_witness :
  exists s,
    get_output Sample.command [] {[ "stdin" := VInt 5 ]} Sample.children
    = (Raises TypeError, s,
       [EvPopen (_build_pipe Sample.command [] (VBool true))])
    /\ pipe s = Some (_build_pipe Sample.command [] (VBool true))
    /\ ret s = None.
Proof.
  destruct (stdin_must_be_bytes Sample.command [] {[ "stdin" := VInt 5 ]}
              Sample.children (VInt 5)) as (_ & H & _).
  - intros k [v Hv]. apply lookup_singleton_Some in Hv as [<- _].
    simpl. tauto.
  - reflexivity.
  - reflexivity.
  - discriminate.
  - exists (during_attempt Sample.command [] {[ "stdin" := VInt 5 ]}).
    split; [exact H|split; reflexivity].
Defined.

(** X22.  The input is fed before anything is read.  When the child does
    not take the bytes given as [stdin] (its end of the pipe is closed, or
    the pipe is full and it does not read), the call ends in the feeding:
    with [BrokenPipeError], or never; the write has been made, at most the
    close follows, no stream has been waited for or read, the process
    handle stays on the object, and [get_output] makes no further
    attempt. *)
Theorem input_not_taken (self : Command) (args' : list text)
  (kwargs : gmap string Value) (children : Z -> ChildRun) (b : bytes) :
  only_keys get_output_keys kwargs ->
  kwargs !! "stdin" = Some (VBytes b) ->
  b <> [] ->
  takes_input (VBytes b) (children 0) = false ->
  exists (r : Outcome (text * text)) (tr : list Event),
    get_output self args' kwargs children
    = (r, during_attempt self args' kwargs,
       EvPopen (_build_pipe self args'
                  (default (close_fds (conf self)) (kwargs !! "close_fds")))
         :: EvStdinWrite (VBytes b) :: tr)
    /\ fst (fst (execute self args' kwargs (children 0)))
       = match r with
         | Raises e => Raises e
         | _ => Hangs
         end
    /\ snd (execute self args' kwargs (children 0))
       = snd (get_output self args' kwargs children)
    /\ (r = Raises BrokenPipeError \/ r = Hangs)
    /\ (r = Hangs <->
        stdin_write (children 0) = Blocked
        \/ (stdin_write (children 0) = Written
            /\ stdin_close (children 0) = Blocked))
    /\ (tr = [] \/ tr = [EvStdinClose]).
Proof.
  intros Hk Hst Hb Hin.
  pose proof (only_keys_spawns _ Hk) as Hs.
  assert (Ht : truthy (VBytes b) = true) by (destruct b; [contradiction|reflexivity]).
  assert (Hin' : takes_input (default VNone (kwargs !! "stdin")) (children 0)
                 = false) by (rewrite Hst; exact Hin).
  pose proof (once_unfed self args' kwargs (children 0) Hs Hin') as Ho.
  pose proof (execute_body_unfed self args' kwargs
                (default (check (conf self)) (kwargs !! "check"))
                (default (allowed_retval (conf self))
                   (kwargs !! "allowed_retval"))
                (default (out_handler (conf self)) (kwargs !! "out_handler"))
                (default (err_handler (conf self)) (kwargs !! "err_handler"))
                (children 0) Hin') as He.
  rewrite Hst in Ho, He. cbn [from_option id] in Ho, He.
  assert (Hex : execute self args' kwargs (children 0)
                = (match fst (feed (VBytes b) (children 0)) with
                   | Raises e => Raises e
                   | _ => Hangs
                   end, during_attempt self args' kwargs,
                   [EvPopen (_build_pipe self args'
                               (default (close_fds (conf self))
                                  (kwargs !! "close_fds")))]
                     ++ snd (feed (VBytes b) (children 0)))).
  { rewrite execute_eq,
      (leftover_recognized _ (only_execute_keys_get_output _ Hk)).
    cbn [negb]. rewrite Hst. cbn [from_option id]. exact He. }
  unfold takes_input in Hin. rewrite Ht in Hin. cbn [negb orb] in Hin.
  unfold feed in Ho, Hex. rewrite Ht in Ho, Hex.
  destruct (stdin_write (children 0)) eqn:Ew;
    [destruct (stdin_close (children 0)) eqn:Ec; [discriminate| |]| |];
    cbn [after_write fst snd app] in Ho, Hex;
    (eexists _, _; split;
     [apply get_output_once_only; [exact Ho|reflexivity]|]);
    rewrite Hex,
      (get_output_once_only self args' kwargs children _ _ _ Ho eq_refl);
    cbn [fst snd];
    (split; [reflexivity|]); (split; [reflexivity|]).
  - split; [left; reflexivity|]. split; [|right; reflexivity].
    split; [discriminate|]. intros [H|[_ H]]; discriminate.
  - split; [right; reflexivity|]. split; [|right; reflexivity].
    split; [auto|reflexivity].
  - split; [left; reflexivity|]. split; [|left; reflexivity].
    split; [discriminate|]. intros [H|[H _]]; discriminate.
  - split; [right; reflexivity|]. split; [|left; reflexivity].
    split; [auto|reflexivity].
Qed.

Lemma input_not_taken_witness :
  exists s,
    get_output Sample.command [] {[ "stdin" := VBytes [120] ]}
      (fun _ => demo_deaf_child)
    = (Raises BrokenPipeError, s,
       [EvPopen (_build_pipe Sample.command [] (VBool true));
        EvStdinWrite (VBytes [120]); EvStdinClose])
    /\ pipe s <> None.
Proof.
  destruct (input_not_taken Sample.command [] {[ "stdin" := VBytes [120] ]}
              (fun _ => demo_deaf_child) [120])
    as (r & tr & Hg & _ & _ & _ & _ & _).
  - intros k [v Hv]. apply lookup_singleton_Some in Hv as [<- _].
    simpl. tauto.
  - reflexivity.
  - discriminate.
  - reflexivity.
  - exists (during_attempt Sample.command [] {[ "stdin" := VBytes [120] ]}).
    split; [|discriminate].
    rewrite Hg. vm_compute in Hg. inversion Hg. reflexivity.
Defined.

Section RetryStep.

Variables (self : Command) (args' : list text) (kwargs : gmap string Value)
  (children : Z -> ChildRun).

(** The first attempt fails and another one is allowed: the call ends as
    the step between the two attempts ends, when that step does not
    return. *)
Lemma get_output_failed_step (d : Detail) (s : Command) (ev ev' : list Event)
  (r : Outcome unit) :
  1 <= retry_times (conf self) ->
  _get_output_once self args' kwargs (children 0)
  = (Raises (CommandFailedException d), s, ev) ->
  before_retry s args' kwargs 0 (CommandFailedException d) = (r, ev') ->
  r <> Returns tt ->
  get_output self args' kwargs children
  = (match r with
     | Raises e => Raises e
     | _ => Hangs
     end, s, ev ++ ev').
Proof.
  intros HR Ho Hb Hr. unfold get_output. cbn [get_output_from].
  rewrite Ho. cbn [app].
  pose proof (once_keeps_conf self args' kwargs (children 0)) as Hk.
  rewrite Ho in Hk. cbn [fst snd] in Hk. rewrite Hk.
  rewrite (proj2 (Z.ltb_lt 0 (retry_times (conf self)))) by lia.
  rewrite Hb. destruct r as [[]| e |]; [contradiction|reflexivity..].
Qed.

End RetryStep.

(** X23.  A failure between two attempts ends the call.  When the first
    attempt raises a policy failure and a retry is allowed, [get_output]
    raises [TypeError] without calling anything if the retry handler is a
    true value that cannot be called with the five arguments; it raises the
    exception of the handler if the call of the handler raises one; and
    with a negative delay it raises [ValueError] after the handler, if
    there is one, has been called.  In each case no second attempt is made
    and no sleep, and the object holds the results of the first
    attempt. *)
Theorem failed_retry_step_ends_the_call (self : Command)
  (args' : list text) (kwargs : gmap string Value)
  (children : Z -> ChildRun) (d : Detail) (s : Command) (ev : list Event) :
  1 <= retry_times (conf self) ->
  _get_output_once self args' kwargs (children 0)
  = (Raises (CommandFailedException d), s, ev) ->
  let called := [EvRetry s args' kwargs 0 (CommandFailedException d)] in
  (truthy (retry_handler (conf self)) = true ->
   (forall id ends,
       retry_handler (conf self) <> VCallable (user_callable id ends)) ->
   get_output self args' kwargs children = (Raises TypeError, s, ev))
  /\ (forall id n,
        retry_handler (conf self) = VCallable (user_callable id (Throws n)) ->
        get_output self args' kwargs children
        = (Raises (OtherException n), s, ev ++ called))
  /\ (- SLEEP_MAX <= retry_sleep (conf self) < 0 ->
      (retry_returns (retry_handler (conf self)) = true ->
       get_output self args' kwargs children
       = (Raises ValueError, s, ev ++ called))
      /\ (truthy (retry_handler (conf self)) = false ->
          get_output self args' kwargs children = (Raises ValueError, s, ev)))
  /\ count is_popen ev = 1%nat
  /\ count is_sleep ev = 0%nat
  /\ ret s = Some (returncode (children 0))
  /\ pipe s = None.
Proof.
  intros HR Ho called.
  pose proof (once_keeps_conf self args' kwargs (children 0)) as Hk.
  rewrite Ho in Hk. cbn [fst snd] in Hk.
  destruct (once_failed _ _ _ _ _ _ _ Ho)
    as (st & Hrun & _ & _ & _ & Es & _ & Eev & _).
  assert (Hstep : forall r ev',
             before_retry s args' kwargs 0 (CommandFailedException d)
             = (Raises r, ev') ->
             get_output self args' kwargs children = (Raises r, s, ev ++ ev')).
  { intros r ev' Hb.
    apply (get_output_failed_step self args' kwargs children d s ev ev'
             (Raises r) HR Ho Hb). discriminate. }
  split; [|split; [|split]].
  - intros Ht Hn. rewrite <- (app_nil_r ev) at 1. apply Hstep.
    unfold before_retry, call_retry_handler. rewrite Hk, Ht.
    destruct (retry_handler (conf self)) as [| | | | |[| |id ends]];
      try reflexivity.
    exfalso. eapply Hn. reflexivity.
  - intros id n Hh. apply Hstep.
    unfold before_retry, call_retry_handler. rewrite Hk, Hh. reflexivity.
  - intros Hsl.
    assert (E1 : (retry_sleep (conf self) <? - SLEEP_MAX) = false)
      by (apply Z.ltb_ge; lia).
    assert (E2 : (SLEEP_MAX <? retry_sleep (conf self)) = false)
      by (apply Z.ltb_ge; unfold SLEEP_MAX in *; lia).
    assert (E3 : (retry_sleep (conf self) <? 0) = true)
      by (apply Z.ltb_lt; lia).
    split.
    + intros Hh. apply Hstep.
      unfold before_retry, call_retry_handler, time_sleep. rewrite Hk.
      destruct (retry_handler (conf self)) as [| | | | |[| |id []]];
        try discriminate.
      cbn [truthy after_call]. rewrite E1, E2, E3. reflexivity.
    + intros Hh. rewrite <- (app_nil_r ev) at 1. apply Hstep.
      unfold before_retry, time_sleep. rewrite Hk, Hh, E1, E2, E3.
      reflexivity.
  - subst s ev.
    destruct (count_attempt self args' kwargs (children 0) _ st Hrun)
      as (Hp & _ & Hsl).
    repeat split; assumption.
Qed.

Lemma failed_retry_step_ends_the_call_witness :
  exists s tr,
    get_output demo_negative_sleep [] ∅ Sample.children
    = (Raises ValueError, s, tr)
    /\ count is_popen tr = 1%nat
    /\ count is_retry tr = 1%nat
    /\ ret s = Some 1.
Proof.
  destruct (_get_output_once demo_negative_sleep [] ∅ (Sample.children 0))
    as [[r s] ev] eqn:Ho.
  assert (Hr : exists d, r = Raises (CommandFailedException d)).
  { vm_compute in Ho. inversion Ho. eauto. }
  destruct Hr as [d ->].
  destruct (failed_retry_step_ends_the_call demo_negative_sleep [] ∅
              Sample.children d s ev) as (_ & _ & H & Hp & _ & Hret & _).
  - simpl. lia.
  - exact Ho.
  - destruct H as [H _]; [unfold SLEEP_MAX; simpl; lia|].
    exists s, (ev ++ [EvRetry s [] ∅ 0 (CommandFailedException d)]).
    split; [apply H; reflexivity|].
    rewrite !count_app, Hp. split; [reflexivity|]. split; [|exact Hret].
    assert (Hc : count is_retry ev = 0%nat).
    { pose proof (once_no_retry_events [] ∅ demo_negative_sleep
                    (Sample.children 0)) as [Hc _].
      rewrite Ho in Hc. exact Hc. }
    rewrite Hc. reflexivity.
Defined.



Section Uncallable.

Lemma run_handlers_uncallable (oh eh : Value) (tr : list Event) :
  (forall h, oh <> VCallable h) ->
  returns_normally eh = true ->
  forallb is_io tr = true ->
  lines Stdout tr <> [] ->
  exists io,
    run_handlers oh eh tr = (Raises TypeError, io)
    /\ lines Stdout io = []
    /\ forallb is_io io = true.
Proof.
  intros Hoh Heh. induction tr as [|e tr IH]; intros Hio Hl;
    [contradiction|].
  simpl in Hio. apply andb_true_iff in Hio as [He Hio].
  destruct e; try discriminate; cbn [run_handlers lines] in *.
  - destruct (IH Hio Hl) as (io & -> & H1 & H2).
    eexists. split; [reflexivity|]. split; [exact H1|exact H2].
  - destruct (IH Hio Hl) as (io & -> & H1 & H2).
    eexists. split; [reflexivity|]. split; [exact H1|exact H2].
  - destruct s.
    + exists []. split; [|split; reflexivity].
      destruct oh as [| | | | |h]; try reflexivity.
      exfalso. eapply Hoh. reflexivity.
    + cbn [stream_eqb] in Hl. destruct (IH Hio Hl) as (io & E & H1 & H2).
      exists (EvLine Stderr line :: io).
      split; [|split; [exact H1|exact H2]].
      rewrite E.
      destruct eh as [| | | | |[| |id []]]; try discriminate; reflexivity.
Qed.

End Uncallable.

(** X25.  Each reader calls its handler at least once, so a value that is
    not callable does not pass: when the output handler that [execute]
    resolves is not a callable (the error handler is one whose calls
    return) and the child takes the input and is drained, [execute] raises
    [TypeError] at the first line of the output, before any line of it
    is handed on; the child is not waited for and the process handle stays
    on the object. *)
Theorem uncallable_line_handler (self : Command) (args' : list text)
  (kwargs : gmap string Value) (child : ChildRun) :
  only_keys execute_keys kwargs ->
  takes_input (default VNone (kwargs !! "stdin")) child = true ->
  (forall h, effective_out_handler self kwargs <> VCallable h) ->
  returns_normally (effective_err_handler self kwargs) = true ->
  real_chunks (stdout_chunks child) ->
  real_chunks (stderr_chunks child) ->
  drains child ->
  exists io,
    execute self args' kwargs child
    = (Raises TypeError, during_attempt self args' kwargs,
       spawn_events self args' kwargs ++ io)
    /\ lines Stdout io = []
    /\ forallb is_io io = true.
Proof.
  intros Hk Hin Hoh Heh Hro Hre Hd. unfold drains in Hd.
  destruct (pipe_processor_loop (waits child) (start_readers child))
    as [r st] eqn:Hrun.
  cbn [fst] in Hd. subst r.
  destruct (drained_lines child st Hro Hre Hrun) as (Hl & _).
  assert (Hne : lines Stdout (trace st) <> []).
  { rewrite Hl. apply split_not_nil. }
  destruct (run_handlers_uncallable _ _ (trace st) Hoh Heh
              (loop_trace_io _ _ _ Hrun) Hne) as (io & E & H1 & H2).
  exists io. split; [|split; [exact H1|exact H2]].
  rewrite execute_eq, (leftover_recognized _ Hk). cbn [negb].
  unfold execute_body. rewrite (feed_taken _ _ Hin), Hrun.
  unfold effective_out_handler, effective_err_handler in E. rewrite E.
  reflexivity.
Qed.

Lemma uncallable_line_handler_witness :
  exists s tr,
    execute Sample.command [] {[ "out_handler" := VInt 5 ]} Sample.child
    = (Raises TypeError, s, tr)
    /\ pipe s <> None
    /\ lines Stdout tr = [].
Proof.
  destruct (uncallable_line_handler Sample.command []
              {[ "out_handler" := VInt 5 ]} Sample.child)
    as (io & H & Hl & _).
  - intros k [v Hv]. apply lookup_singleton_Some in Hv as [<- _].
    simpl. tauto.
  - reflexivity.
  - intros h. discriminate.
  - reflexivity.
  - repeat constructor; discriminate.
  - repeat constructor; discriminate.
  - reflexivity.
  - eexists _, _. split; [exact H|]. split; [discriminate|].
    rewrite lines_app, Hl. reflexivity.
Defined.
